(** * GitHub Issues/PRs tree provider: a shallow embedding of
      [src/github-issues-prs.ts] and the properties of its remote discovery,
      milestone selection, issue aggregation, tree building and cache. *)

From Stdlib Require Import ZArith List String Ascii Lia Permutation Sorted DecimalString OrdersEx.
From stdpp Require Import base gmap strings list.

Open Scope Z_scope.

(** ** JavaScript values *)

(** Truthiness of a string: only the empty string is falsy. *)
Definition truthyStr (s : string) : bool := negb (String.eqb s EmptyString).

(** Truthiness of a value of type [string | undefined] (or [string | null]). *)
Definition truthy (v : option string) : bool :=
  match v with
  | Some s => truthyStr s
  | None => false
  end.

(** The double quote character, as a one-character string. *)
Definition dquote : string := String (ascii_of_nat 34) EmptyString.

(** *** Numbers in a template literal *)

(** The decimal digits of a natural number. *)
Definition decimalDigits (n : N) : string := NilZero.string_of_uint (N.to_uint n).

(** [Number.MAX_SAFE_INTEGER], 2^53 - 1. *)
Definition maxSafeInteger : N := 9007199254740991%N.

Definition isSafeInteger (n : N) : bool := (n <=? maxSafeInteger)%N.

(** The Number value of a non-negative integer of a response: the integer
    itself when it has at most 53 bits, otherwise the nearest integer with
    53 significant bits, the even one of two equally near. *)
Definition numberValue (n : N) : N :=
  (let e := N.size n - 53 in
   let q := N.shiftr n e in
   let r := n - N.shiftl q e in
   let half := N.shiftl 1 (e - 1) in
   if e =? 0 then n
   else if (half <? r) || ((r =? half) && N.odd q) then N.shiftl (q + 1) e
   else N.shiftl q e)%N.

(** The decimal number with the fewest significant digits whose Number
    value is [x], the nearest to [x] of those, with an even last digit when
    two are equally near. The multiples of [10^j] on either side of [x] are
    tried from the coarsest power of ten down. *)
Fixpoint shortestDecimal (x : N) (j : nat) : N :=
  (let p := 10 ^ N.of_nat j in
   let lo := (x / p) * p in
   let hi := lo + p in
   let fromLo := negb (lo =? 0) && (numberValue lo =? x) in
   let fromHi := numberValue hi =? x in
   if fromLo && fromHi then
     if hi - x <? x - lo then hi
     else if x - lo <? hi - x then lo
     else if N.even (x / p) then lo else hi
   else if fromLo then lo
   else if fromHi then hi
   else match j with
        | O => x
        | S j' => shortestDecimal x j'
        end)%N.

Fixpoint dropTrailingZeros (s : string) : string :=
  match s with
  | EmptyString => EmptyString
  | String c rest =>
      match dropTrailingZeros rest with
      | EmptyString => if Ascii.eqb c "0" then EmptyString else String c EmptyString
      | rest' => String c rest'
      end
  end.

(** [Number::toString] of an integral Number value: its shortest digits,
    filled up with zeros while there are at most 21 digits, in exponent
    form beyond, and [Infinity] past the largest finite value. *)
Definition numberToString (x : N) : string :=
  if (2 ^ 1024 <=? x)%N then "Infinity"
  else
    let digits := decimalDigits (shortestDecimal x (String.length (decimalDigits x))) in
    let n := String.length digits in
    if (n <=? 21)%nat then digits
    else
      let exponent := "e+" +:+ decimalDigits (N.of_nat (n - 1)) in
      match dropTrailingZeros digits with
      | EmptyString => digits
      | String d EmptyString => String d exponent
      | String d more => String d ("." +:+ more +:+ exponent)
      end.

(** Template-literal rendering of a non-negative integer of a response:
    the decimal digits of a safe integer, which every issue number is, and
    what [Number::toString] gives for the Number value of a larger one. *)
Definition showNumber (n : N) : string :=
  if isSafeInteger n then decimalDigits n else numberToString (numberValue n).

(** Errors thrown by the collaborators carry the HTTP status in [code];
    errors thrown by the runtime itself carry none. *)
Inductive Error : Type :=
| HttpError (code : Z)
| TypeError (message : string).

Definition errorCode (e : Error) : option Z :=
  match e with
  | HttpError c => Some c
  | TypeError _ => None
  end.

(** [err.code === 404] *)
Definition isNotFound (e : Error) : bool :=
  match errorCode e with
  | Some c => c =? 404
  | None => false
  end.

(** Outcome of a call that either returns or throws. *)
Inductive Result (A : Type) : Type :=
| Ok (a : A)
| Err (e : Error).
Arguments Ok {A} a.
Arguments Err {A} e.

(** ** Data model *)

Record GitRemote : Type := {
  url : string;
  owner : string;
  repo : string;
  username : string
}.

(** A milestone as the GitHub API returns it: [title] and [due_on]
    ([null] when no due date is set). *)
Record MilestoneData : Type := {
  ms_title : string;
  ms_due_on : option string
}.

(** A search result item; only the fields the provider reads. *)
Record Item : Type := {
  item_title : string;
  item_number : N;
  html_url : string;
  repository_url : string;
  item_milestone : option MilestoneData;
  pull_request : bool
}.

(** [class Issue extends TreeItem] *)
Record Issue : Type := {
  issue_label : string;
  issue_item : Item;
  iconPath : string;
  contextValue : string
}.

(** [class Milestone extends TreeItem], always expanded. *)
Record Milestone : Type := {
  milestone_label : string;
  milestone_issues : list Issue
}.

(** The three kinds of node the provider hands to the host. *)
Inductive TreeItem : Type :=
| Message (label : string)
| IssueNode (issue : Issue)
| MilestoneNode (milestone : Milestone).

(** ** Collaborators *)

(** What the JavaScript runtime supplies to the milestone comparator:
    the instant a date string denotes and [String.prototype.localeCompare]. *)
Class Runtime : Type := {
  dateTime : string -> Z;
  localeCompare : string -> string -> Z
}.

Record SearchParams : Type := {
  q : string;
  sort : string;
  order : string;
  per_page : Z
}.

(** The GitHub client. Every call is a request against a world that may
    change between calls, and may throw. *)
Class GitHubClient (World : Type) : Type := {
  getMilestones : string -> string -> Z -> World -> Result (list MilestoneData) * World;
  searchIssues : SearchParams -> World -> Result (list Item) * World
}.

(** ** Milestone selector ([getCurrentMilestones]) *)

(** [Array.prototype.sort] on the short arrays at hand: the engine's
    insertion sort. [sortedRev] is the already sorted prefix, last element
    first; [element] moves left past every [tmp] with [comparefn(tmp, element) > 0]. *)
Fixpoint insertSorted {A : Type} (comparefn : A -> A -> Z) (element : A)
    (sortedRev : list A) : list A :=
  match sortedRev with
  | [] => [element]
  | tmp :: rest =>
      if 0 <? comparefn tmp element
      then tmp :: insertSorted comparefn element rest
      else element :: sortedRev
  end.

Definition arraySort {A : Type} (comparefn : A -> A -> Z) (a : list A) : list A :=
  rev (fold_left (fun sortedRev element => insertSorted comparefn element sortedRev) a []).

(** The instant of a due date, when there is one. *)
Definition dueInstant `{Runtime} (due : option string) : option Z :=
  if truthy due then option_map dateTime due else None.

(** Modelled from the spec: [compareDateStrings] is imported from [./utils],
    which is not among the sources. "sort ascending by due date using a
    comparator where a missing due date sorts after all present due dates". *)
Definition compareDateStrings `{Runtime} (a b : option string) : Z :=
  match dueInstant a, dueInstant b with
  | None, None => 0
  | None, Some _ => 1
  | Some _, None => -1
  | Some x, Some y => x - y
  end.

(** The comparator passed to [milestones.sort]. *)
Definition milestoneCompare `{Runtime} (a b : MilestoneData) : Z :=
  let cmp := compareDateStrings (ms_due_on a) (ms_due_on b) in
  if cmp =? 0 then localeCompare (ms_title a) (ms_title b) else cmp.

Definition hasDueDate (m : MilestoneData) : bool := truthy (ms_due_on m).

(** [milestones.length && milestones[0].due_on] *)
Definition firstHasDueDate (milestones : list MilestoneData) : bool :=
  match milestones with
  | [] => false
  | m0 :: _ => hasDueDate m0
  end.

(** The part of [getCurrentMilestones] after the response has arrived. *)
Definition currentMilestones `{Runtime} (data : list MilestoneData) : list string :=
  let milestones := arraySort milestoneCompare data in
  let milestones :=
    if firstHasDueDate milestones then List.filter hasDueDate milestones else milestones in
  map ms_title (take 2 milestones).

Definition getCurrentMilestones `{Runtime} `{GitHubClient World} (remote : GitRemote)
    (w : World) : Result (list string) * World :=
  match getMilestones (owner remote) (repo remote) 10 w with
  | (Ok data, w') => (Ok (currentMilestones data), w')
  | (Err e, w') => (Err e, w')
  end.

(** ** Issue aggregator (the remote loop of [fetchChildren]) *)

(** The query string [q] of one (remote, milestone-or-none) pass. *)
Definition searchQuery (remote : GitRemote) (milestone : option string) : string :=
  let q := "repo:" +:+ owner remote +:+ "/" +:+ repo remote +:+ " is:open" in
  let q := if truthyStr (username remote)
           then q +:+ " assignee:" +:+ username remote else q in
  match milestone with
  | Some title =>
      if truthyStr title then q +:+ " milestone:" +:+ dquote +:+ title +:+ dquote else q
  | None => q
  end.

Definition searchParams (remote : GitRemote) (milestone : option string) : SearchParams :=
  {| q := searchQuery remote milestone; sort := "created"; order := "asc"; per_page := 100 |}.

(** [new Issue(`${item.title} (#${item.number})`, item)] with its icon and
    context value. *)
Definition newIssue (item : Item) : Issue :=
  {| issue_label := item_title item +:+ " (#" +:+ showNumber (item_number item) +:+ ")";
     issue_item := item;
     iconPath := if pull_request item then "git-pull-request.svg" else "bug.svg";
     contextValue := if pull_request item then "pull_request" else "issue" |}.

(** [if (!milestones.length) milestones.push(undefined)] *)
Definition milestonePasses (titles : list string) : list (option string) :=
  match titles with
  | [] => [None]
  | _ => map Some titles
  end.

(** The inner loop [for (const milestone of milestones)]: every search
    result is pushed onto the shared [issues] array as soon as it arrives.
    Returns the error that interrupted the loop, if any. *)
Fixpoint milestoneLoop `{GitHubClient World} (remote : GitRemote)
    (milestones : list (option string)) (issues : list Issue) (w : World)
    : option Error * list Issue * World :=
  match milestones with
  | [] => (None, issues, w)
  | milestone :: rest =>
      match searchIssues (searchParams remote milestone) w with
      | (Ok items, w') => milestoneLoop remote rest (issues ++ map newIssue items) w'
      | (Err e, w') => (Some e, issues, w')
      end
  end.

(** The body of the [try] block for one remote. *)
Definition tryRemote `{Runtime} `{GitHubClient World} (remote : GitRemote)
    (issues : list Issue) (w : World) : option Error * list Issue * World :=
  match getCurrentMilestones remote w with
  | (Ok titles, w') => milestoneLoop remote (milestonePasses titles) issues w'
  | (Err e, w') => (Some e, issues, w')
  end.

Definition cannotAccess (remote : GitRemote) : TreeItem :=
  Message ("Cannot access " +:+ owner remote +:+ "/" +:+ repo remote).

(** The outer loop [for (const remote of remotes)] with its [catch]. *)
Fixpoint remoteLoop `{Runtime} `{GitHubClient World} (remotes : list GitRemote)
    (issues : list Issue) (errors : list TreeItem) (w : World)
    : Result (list Issue * list TreeItem) * World :=
  match remotes with
  | [] => (Ok (issues, errors), w)
  | remote :: rest =>
      match tryRemote remote issues w with
      | (None, issues', w') => remoteLoop rest issues' errors w'
      | (Some err, issues', w') =>
          if isNotFound err
          then remoteLoop rest issues' (errors ++ [cannotAccess remote]) w'
          else (Err err, w')
      end
  end.

Definition fetchIssues `{Runtime} `{GitHubClient World} (remotes : list GitRemote)
    (w : World) : Result (list Issue * list TreeItem) * World :=
  remoteLoop remotes [] [] w.

(** ** Tree builder (the tail of [fetchChildren]) *)

(** [m && m.title || 'No Milestone'] *)
Definition milestoneLabelOf (item : Item) : string :=
  match item_milestone item with
  | Some m => if truthyStr (ms_title m) then ms_title m else "No Milestone"
  | None => "No Milestone"
  end.

(** [milestoneIndex] is a plain object literal, so a property read also
    finds the members every object inherits from [Object.prototype]. *)
Definition objectPrototypeKeys : list string :=
  [ "constructor"; "__defineGetter__"; "__defineSetter__"; "hasOwnProperty";
    "__lookupGetter__"; "__lookupSetter__"; "isPrototypeOf";
    "propertyIsEnumerable"; "toString"; "valueOf"; "__proto__"; "toLocaleString" ].

Definition isInheritedKey (k : string) : bool := bool_decide (k ∈ objectPrototypeKeys).

(** What [milestoneIndex[milestoneLabel]] evaluates to. The [Milestone]
    objects live in the [milestones] array; the index holds references to
    them, that is, positions in that array. *)
Inductive PropertyValue : Type :=
| OwnMilestone (ref : nat)
| InheritedMember
| Undefined.

Definition getProperty (milestoneIndex : gmap string nat) (k : string) : PropertyValue :=
  match milestoneIndex !! k with
  | Some ref => OwnMilestone ref
  | None => if isInheritedKey k then InheritedMember else Undefined
  end.

(** [milestone.issues.push(issue)] *)
Definition pushIssue (issue : Issue) (m : Milestone) : Milestone :=
  {| milestone_label := milestone_label m;
     milestone_issues := milestone_issues m ++ [issue] |}.

(** The grouping loop. An inherited member is truthy, so no [Milestone] is
    created for it, and it has no [issues] array to push onto. *)
Fixpoint groupLoop (issues : list Issue) (milestoneIndex : gmap string nat)
    (milestones : list Milestone) : Result (list Milestone) :=
  match issues with
  | [] => Ok milestones
  | issue :: rest =>
      let milestoneLabel := milestoneLabelOf (issue_item issue) in
      match getProperty milestoneIndex milestoneLabel with
      | Undefined =>
          groupLoop rest (<[milestoneLabel := length milestones]> milestoneIndex)
            (milestones ++ [pushIssue issue
                              {| milestone_label := milestoneLabel; milestone_issues := [] |}])
      | OwnMilestone ref =>
          groupLoop rest milestoneIndex (alter (pushIssue issue) ref milestones)
      | InheritedMember =>
          Err (TypeError "Cannot read property 'push' of undefined")
      end
  end.

Definition groupIssues (issues : list Issue) : Result (list Milestone) :=
  groupLoop issues ∅ [].

(** [milestones.length === 1 && milestones[0].label === 'No Milestone'] *)
Definition onlyNoMilestone (milestones : list Milestone) : bool :=
  (length milestones =? 1)%nat &&
  match milestones with
  | m0 :: _ => String.eqb (milestone_label m0) "No Milestone"
  | [] => false
  end.

Definition rootItems (milestones : list Milestone) : list TreeItem :=
  if onlyNoMilestone milestones
  then match milestones with
       | m0 :: _ => map IssueNode (milestone_issues m0)
       | [] => []
       end
  else map MilestoneNode milestones.

(** Everything [fetchChildren] does once the remote loop has finished. *)
Definition buildTree (issues : list Issue) (errors : list TreeItem) : Result (list TreeItem) :=
  match issues with
  | [] => Ok (match errors with
              | [] => [Message "No issues found"]
              | _ => errors
              end)
  | _ =>
      match groupIssues issues with
      | Ok milestones => Ok (rootItems milestones)
      | Err e => Err e
      end
  end.

(** ** Remote resolver ([getGitHubRemotes]) *)

(** *** The regular expressions

    Both patterns are sequences of literals and greedily repeated character
    classes. Text is a list of 8-bit code units. *)

Definition isWhitespace (c : ascii) : bool :=
  let n := N_of_ascii c in
  ((9 <=? n) && (n <=? 13) || (n =? 32) || (n =? 160))%N.

Definition isLineTerminator (c : ascii) : bool :=
  let n := N_of_ascii c in ((n =? 10) || (n =? 13))%N.

(** [[^\s]] *)
Definition nonWhitespace (c : ascii) : bool := negb (isWhitespace c).
(** [[^/]] *)
Definition notSlash (c : ascii) : bool := negb (Ascii.eqb c "/").
(** [[^ \.]] *)
Definition notSpaceOrDot (c : ascii) : bool := negb (Ascii.eqb c " " || Ascii.eqb c ".").

Inductive Atom : Type :=
| Rep (cls : ascii -> bool) (min : nat)
| Lit (s : list ascii).

(** A successful match: the text each atom consumed, and the rest. *)
Definition MatchResult : Type := list (list ascii) * list ascii.

Definition consumed (c : ascii) (r : option MatchResult) : option MatchResult :=
  match r with
  | Some (seg :: segs, rest) => Some ((c :: seg) :: segs, rest)
  | _ => None
  end.

Definition withSegment (seg : list ascii) (r : option MatchResult) : option MatchResult :=
  match r with
  | Some (segs, rest) => Some (seg :: segs, rest)
  | None => None
  end.

(** Greedy repetition with backtracking: take one more character when the
    remainder of the pattern then still matches, otherwise stop here. *)
Fixpoint matchRep (cls : ascii -> bool) (min : nat)
    (k : list ascii -> option MatchResult) (s : list ascii) : option MatchResult :=
  let stop := match min with
              | O => withSegment [] (k s)
              | S _ => None
              end in
  match s with
  | c :: s' =>
      if cls c
      then match consumed c (matchRep cls (pred min) k s') with
           | Some r => Some r
           | None => stop
           end
      else stop
  | [] => stop
  end.

Fixpoint isPrefix (l s : list ascii) : bool :=
  match l, s with
  | [], _ => true
  | a :: l', b :: s' => Ascii.eqb a b && isPrefix l' s'
  | _ :: _, [] => false
  end.

Fixpoint matchSeq (atoms : list Atom) : list ascii -> option MatchResult :=
  match atoms with
  | [] => fun s => Some ([], s)
  | Rep cls min :: atoms' => matchRep cls min (matchSeq atoms')
  | Lit l :: atoms' =>
      fun s => if isPrefix l s
               then withSegment l (matchSeq atoms' (drop (length l) s))
               else None
  end.

(** [regex.exec(s)] without flags: the match at the leftmost position. *)
Fixpoint regexExec (atoms : list Atom) (s : list ascii) : option MatchResult :=
  match matchSeq atoms s with
  | Some r => Some r
  | None =>
      match s with
      | [] => None
      | _ :: s' => regexExec atoms s'
      end
  end.

Definition matchedLength (r : MatchResult) : nat := length (concat r.1).

(** Modelled from the spec: [allMatches] is imported from [./utils], which is
    not among the sources; it yields the requested group of every successive
    match of a global regular expression. Here for patterns of the form
    [/^.../gm]: a match may only start at the beginning of a line, and the
    search resumes where the previous match ended ([skip] characters ahead). *)
Fixpoint allMatchesFrom (atoms : list Atom) (group : nat) (atLineStart : bool)
    (skip : nat) (s : list ascii) : list (list ascii) :=
  match skip with
  | S n =>
      match s with
      | [] => []
      | c :: s' => allMatchesFrom atoms group (isLineTerminator c) n s'
      end
  | O =>
      match (if atLineStart then matchSeq atoms s else None) with
      | Some r =>
          default [] (r.1 !! group) ::
          match s with
          | [] => []
          | c :: s' =>
              allMatchesFrom atoms group (isLineTerminator c) (pred (matchedLength r)) s'
          end
      | None =>
          match s with
          | [] => []
          | c :: s' => allMatchesFrom atoms group (isLineTerminator c) 0 s'
          end
      end
  end.

Definition allMatches (atoms : list Atom) (s : list ascii) (group : nat) : list (list ascii) :=
  allMatchesFrom atoms group true 0 s.

(** [/^[^\s]+\s+([^\s]+)/gm]; the group is the third atom. *)
Definition remoteLinePattern : list Atom :=
  [Rep nonWhitespace 1; Rep isWhitespace 1; Rep nonWhitespace 1].

(** The URL pattern of [getGitHubRemotes]: any run of non-whitespace, the
    literal [github.com/], a group of one or more non-slash characters, a
    slash, a group of one or more characters other than space and dot, and
    any run of non-whitespace; the whole of it is the first group. *)
Definition githubPattern : list Atom :=
  [Rep nonWhitespace 0; Lit (list_ascii_of_string "github.com/"); Rep notSlash 1;
   Lit (list_ascii_of_string "/"); Rep notSpaceOrDot 1; Rep nonWhitespace 0].

(** The groups [m[1]], [m[2]], [m[3]] of a [githubPattern] match. *)
Definition githubGroups (url : string) : option (string * string * string) :=
  match regexExec githubPattern (list_ascii_of_string url) with
  | Some (segs, _) =>
      Some (string_of_list_ascii (concat segs),
            string_of_list_ascii (default [] (segs !! 2%nat)),
            string_of_list_ascii (default [] (segs !! 4%nat)))
  | None => None
  end.

(** [new Set(array)]: insertion order, later duplicates dropped. *)
Definition setAdd (set : list string) (x : string) : list string :=
  if bool_decide (x ∈ set) then set else set ++ [x].

Definition newSet (array : list string) : list string := fold_left setAdd array [].

(** What the credential helper returns for a URL. *)
Record Credential : Type := { cred_username : string }.

(** The workspace and its collaborators: the opened folder, the output of
    [git remote -v] run in it ([None] when the command fails), and the
    credential helper [fill] ([None] for no data). *)
Record Workspace : Type := {
  rootPath : option string;
  gitRemoteV : option string;
  fill : string -> option Credential
}.

(** The loop over the unique URLs. *)
Fixpoint remotesOf (fill : string -> option Credential) (urls : list string)
    (remotes : list GitRemote) : list GitRemote :=
  match urls with
  | [] => remotes
  | url0 :: rest =>
      match githubGroups url0 with
      | Some (m1, m2, m3) =>
          match fill m1 with
          | Some data =>
              remotesOf fill rest
                (remotes ++ [{| url := m1; owner := m2; repo := m3;
                                username := cred_username data |}])
          | None => remotesOf fill rest remotes
          end
      | None => remotesOf fill rest remotes
      end
  end.

Definition remoteUrls (stdout : string) : list string :=
  map string_of_list_ascii
    (allMatches remoteLinePattern (list_ascii_of_string stdout) 2).

Definition parseRemotes (fill : string -> option Credential) (stdout : string)
    : list GitRemote :=
  remotesOf fill (newSet (remoteUrls stdout)) [].

(** [None] when [exec] rejects. *)
Definition getGitHubRemotes (ws : Workspace) : option (list GitRemote) :=
  option_map (parseRemotes (fill ws)) (gitRemoteV ws).

(** ** [fetchChildren] *)

Definition fetchChildren `{Runtime} `{GitHubClient World} (ws : Workspace) (w : World)
    : Result (list TreeItem) * World :=
  if negb (truthy (rootPath ws)) then (Ok [Message "No folder opened"], w)
  else match getGitHubRemotes ws with
       | None => (Ok [Message "Not a GitHub repository"], w)
       | Some [] => (Ok [Message "No GitHub remotes found"], w)
       | Some remotes =>
           match fetchIssues remotes w with
           | (Ok (issues, errors), w') => (buildTree issues errors, w')
           | (Err e, w') => (Err e, w')
           end
       end.

(** ** Tree provider ([GitHubIssuesPrsProvider]) *)

(** A build is the promise [fetchChildren()] returns. *)
Inductive PromiseState : Type :=
| Pending
| Fulfilled (items : list TreeItem)
| Rejected (e : Error).

(** The fields of the provider, the promises created so far ([children]
    refers to one of them by position), the [refresh] calls suspended at
    their [await] (each on the promise it waits for), and the number of
    change notifications fired on [_onDidChangeTreeData]. *)
Record Provider : Type := {
  fetching : bool;
  lastFetch : option Z;
  children : option nat;
  promises : list PromiseState;
  awaiting : list nat;
  fired : nat
}.

Definition newProvider : Provider :=
  {| fetching := false; lastFetch := None; children := None;
     promises := []; awaiting := []; fired := 0 |}.

(** What [getChildren] answers with: the issues of a milestone, or the
    cached promise. *)
Inductive Children : Type :=
| Resolved (items : list TreeItem)
| Promised (ref : nat).

Definition getChildren (element : option TreeItem) (now : Z) (p : Provider)
    : Children * Provider :=
  match element with
  | Some (MilestoneNode m) => (Resolved (map IssueNode (milestone_issues m)), p)
  | _ =>
      match children p with
      | Some ref => (Promised ref, p)
      | None =>
          let ref := length (promises p) in
          (Promised ref,
           {| fetching := true;
              lastFetch := Some now;
              children := Some ref;
              promises := promises p ++ [Pending];
              awaiting := awaiting p;
              fired := fired p |})
      end
  end.

Definition clearChildren (p : Provider) : Provider :=
  {| fetching := fetching p; lastFetch := lastFetch p; children := None;
     promises := promises p; awaiting := awaiting p; fired := fired p |}.

Definition await (c : Children) (p : Provider) : Provider :=
  match c with
  | Promised ref =>
      {| fetching := fetching p; lastFetch := lastFetch p; children := children p;
         promises := promises p; awaiting := awaiting p ++ [ref]; fired := fired p |}
  | Resolved _ => p
  end.

(** [refresh] up to its [await]; the notification is fired by [settle] when
    the awaited promise fulfils. *)
Definition refresh (now : Z) (p : Provider) : Provider :=
  if negb (fetching p)
  then let (c, p') := getChildren None now (clearChildren p) in await c p'
  else p.

(** [!this.lastFetch || this.lastFetch + 30 * 60 * 1000 < Date.now()] *)
Definition isStale (now : Z) (p : Provider) : bool :=
  match lastFetch p with
  | None => true
  | Some t => (t =? 0) || (t + 30 * 60 * 1000 <? now)
  end.

Definition poll (now : Z) (p : Provider) : Provider :=
  if isStale now p then refresh now p else p.

Definition waitersOf (ref : nat) (awaiting : list nat) : nat :=
  length (List.filter (Nat.eqb ref) awaiting).

(** A pending promise settles. On fulfilment the [then] callback registered
    by [getChildren] clears [fetching], and every [refresh] waiting for the
    promise resumes and fires the change event. On rejection the waiting
    [refresh] calls reject in turn; nothing else runs. *)
Definition settle (ref : nat) (outcome : Result (list TreeItem)) (p : Provider) : Provider :=
  match promises p !! ref with
  | Some Pending =>
      match outcome with
      | Ok items =>
          {| fetching := false;
             lastFetch := lastFetch p;
             children := children p;
             promises := <[ref := Fulfilled items]> (promises p);
             awaiting := List.filter (fun r => negb (Nat.eqb ref r)) (awaiting p);
             fired := (fired p + waitersOf ref (awaiting p))%nat |}
      | Err e =>
          {| fetching := fetching p;
             lastFetch := lastFetch p;
             children := children p;
             promises := <[ref := Rejected e]> (promises p);
             awaiting := List.filter (fun r => negb (Nat.eqb ref r)) (awaiting p);
             fired := fired p |}
      end
  | _ => p
  end.

(** What can happen to the provider: the host or the user calls in, or a
    build settles. *)
Inductive Event : Type :=
| CallGetChildren (element : option TreeItem)
| CallRefresh
| CallPoll
| Settle (ref : nat) (outcome : Result (list TreeItem)).

(** One event, at instant [now] of [Date.now()]. *)
Definition step (p : Provider) (timed : Z * Event) : Provider :=
  let (now, e) := timed in
  match e with
  | CallGetChildren element => (getChildren element now p).2
  | CallRefresh => refresh now p
  | CallPoll => poll now p
  | Settle ref outcome => settle ref outcome p
  end.

Definition run (trace : list (Z * Event)) (p : Provider) : Provider :=
  fold_left step trace p.

Definition reachable (p : Provider) : Prop :=
  exists trace, p = run trace newProvider.

(** A build is in flight when some promise is still pending. *)
Definition buildInFlight (p : Provider) : bool :=
  existsb (fun s => match s with Pending => true | _ => false end) (promises p).

(** The number of builds started so far. *)
Definition buildsStarted (p : Provider) : nat := length (promises p).

(** The instant the latest build completed, read off a trace: the time of
    the last [Settle] that fulfilled a pending promise. *)
Fixpoint lastCompletedFrom (p : Provider) (trace : list (Z * Event)) (last : option Z)
    : option Z :=
  match trace with
  | [] => last
  | (now, e) :: rest =>
      let last' :=
        match e with
        | Settle ref (Ok _) =>
            match promises p !! ref with
            | Some Pending => Some now
            | _ => last
            end
        | _ => last
        end in
      lastCompletedFrom (step p (now, e)) rest last'
  end.

Definition lastCompleted (trace : list (Z * Event)) : option Z :=
  lastCompletedFrom newProvider trace None.

(** ** Sample collaborators and inputs *)

(** A runtime for dates written [YYYY-MM-DD...]: the instant is the number
    the digits spell, and strings collate by code unit. *)
Fixpoint digitsValue (s : string) (acc : Z) : Z :=
  match s with
  | EmptyString => acc
  | String c s' =>
      let n := Z.of_N (N_of_ascii c) in
      if (48 <=? n) && (n <=? 57)
      then digitsValue s' (10 * acc + (n - 48))
      else digitsValue s' acc
  end.

Definition comparisonSign (c : comparison) : Z :=
  match c with
  | Lt => -1
  | Eq => 0
  | Gt => 1
  end.

Definition codeUnitRuntime : Runtime :=
  {| dateTime := fun s => digitsValue s 0;
     localeCompare := fun a b => comparisonSign (OrdersEx.String_as_OT.compare a b) |}.

Definition milestoneA : MilestoneData := {| ms_title := "A"; ms_due_on := Some "2024-03-01" |}.
Definition milestoneB : MilestoneData := {| ms_title := "B"; ms_due_on := None |}.
Definition milestoneC : MilestoneData := {| ms_title := "C"; ms_due_on := Some "2024-01-01" |}.
Definition undatedZ : MilestoneData := {| ms_title := "Z"; ms_due_on := None |}.
Definition undatedA : MilestoneData := {| ms_title := "A"; ms_due_on := None |}.

(** ** Orders used to state the properties *)

(** With comparator [comparefn], [a] may stay in front of [b]. *)
Definition inOrder {A : Type} (comparefn : A -> A -> Z) (a b : A) : Prop :=
  comparefn a b <= 0.

(** The ranking of milestones in words: ascending by due date, a missing due
    date after every present one, equal ranks settled by comparing titles. *)
Definition milestoneOrder `{Runtime} (a b : MilestoneData) : Prop :=
  match dueInstant (ms_due_on a), dueInstant (ms_due_on b) with
  | Some x, Some y => x < y \/ (x = y /\ localeCompare (ms_title a) (ms_title b) <= 0)
  | Some _, None => True
  | None, Some _ => False
  | None, None => localeCompare (ms_title a) (ms_title b) <= 0
  end.

(** ** One remote on its own *)

(** The issues the passes of one remote find, pass by pass, up to the first
    search that throws. *)
Fixpoint passResults `{GitHubClient World} (remote : GitRemote)
    (milestones : list (option string)) (w : World) : option Error * list Issue * World :=
  match milestones with
  | [] => (None, [], w)
  | milestone :: rest =>
      match searchIssues (searchParams remote milestone) w with
      | (Ok items, w') =>
          let '(e, found, w'') := passResults remote rest w' in
          (e, map newIssue items ++ found, w'')
      | (Err e, w') => (Some e, [], w')
      end
  end.

(** What processing one remote yields: the error that interrupted it, if
    any, and the issues found before that. *)
Definition remoteReport `{Runtime} `{GitHubClient World} (remote : GitRemote) (w : World)
    : option Error * list Issue * World :=
  match getCurrentMilestones remote w with
  | (Ok titles, w') => passResults remote (milestonePasses titles) w'
  | (Err e, w') => (Some e, [], w')
  end.

(** Put the contribution of one remote in front of the result for the
    remotes after it. *)
Definition withRemote {World : Type} (found : list Issue) (messages : list TreeItem)
    (later : Result (list Issue * list TreeItem) * World)
    : Result (list Issue * list TreeItem) * World :=
  match later with
  | (Ok (issues, errors), w) => (Ok (found ++ issues, messages ++ errors), w)
  | (Err e, w) => (Err e, w)
  end.

(** A client whose world counts the requests served: the milestone listing
    answers two dated milestones, the first search one item, and every later
    request is refused with status 404. *)
Definition widgetItem : Item :=
  {| item_title := "Fix the flange"; item_number := 7;
     html_url := "https://github.com/acme/widgets/issues/7";
     repository_url := "https://api.github.com/repos/acme/widgets";
     item_milestone := Some {| ms_title := "v1"; ms_due_on := Some "2024-01-01" |};
     pull_request := false |}.

Definition revokedClient : GitHubClient nat :=
  {| getMilestones := fun _ _ _ served =>
       (if (served =? 0)%nat
        then Ok [ {| ms_title := "v1"; ms_due_on := Some "2024-01-01" |};
                  {| ms_title := "v2"; ms_due_on := Some "2024-03-01" |} ]
        else Err (HttpError 404), S served);
     searchIssues := fun _ served =>
       (if (served =? 1)%nat then Ok [widgetItem] else Err (HttpError 404), S served) |}.

Definition acmeWidgets : GitRemote :=
  {| url := "https://github.com/acme/widgets.git"; owner := "acme"; repo := "widgets";
     username := "bob" |}.

(** A client that answers from fixed tables and never throws. *)
Definition tableClient (listed : string -> string -> list MilestoneData)
    (found : SearchParams -> list Item) : GitHubClient unit :=
  {| getMilestones := fun o r _ w => (Ok (listed o r), w);
     searchIssues := fun params w => (Ok (found params), w) |}.

(** ** Grouping in words *)

(** The grouping key of an issue. *)
Definition groupKey (issue : Issue) : string := milestoneLabelOf (issue_item issue).

(** The group labelled [label]: the issues with that key, in the order they
    were aggregated. *)
Definition groupOf (issues : list Issue) (label : string) : Milestone :=
  {| milestone_label := label;
     milestone_issues := List.filter (fun i => String.eqb (groupKey i) label) issues |}.

(** One group per key, in the order the keys are first seen. *)
Definition groupsOf (issues : list Issue) : list Milestone :=
  map (groupOf issues) (newSet (map groupKey issues)).

(** [index] holds, for every label, the position of its group. *)
Definition indexes (index : gmap string nat) (labels : list string) : Prop :=
  forall (k : string) (ref : nat), index !! k = Some ref <-> labels !! ref = Some k.

Definition issueOf (title : string) (number : N) (milestone : option string) : Issue :=
  newIssue {| item_title := title; item_number := number;
              html_url := "https://github.com/acme/widgets/issues/" +:+ showNumber number;
              repository_url := "https://api.github.com/repos/acme/widgets";
              item_milestone :=
                option_map (fun t => {| ms_title := t; ms_due_on := None |}) milestone;
              pull_request := false |}.

Definition pushOfUndefined : Error := TypeError "Cannot read property 'push' of undefined".

Definition constructorIssue : Issue := issueOf "Rename the class" 12 (Some "constructor").

Definition looseIssues : list Issue :=
  [issueOf "Crash on start" 1 None; issueOf "Typo in README" 2 None;
   issueOf "Add dark theme" 3 None].

(** ** The output of [git remote -v] *)

Inductive Direction : Type := Fetch | Push.

(** One line [<name>\t<url> (fetch|push)]. *)
Record RemoteLine : Type := {
  line_name : string;
  line_url : string;
  line_direction : Direction
}.

Definition tabChar : ascii := ascii_of_nat 9.
Definition newlineChar : ascii := ascii_of_nat 10.

Definition directionText (d : Direction) : string :=
  match d with
  | Fetch => " (fetch)"
  | Push => " (push)"
  end.

Definition renderLine (l : RemoteLine) : string :=
  line_name l +:+ String tabChar (line_url l) +:+ directionText (line_direction l)
  +:+ String newlineChar EmptyString.

Fixpoint gitRemoteOutput (lines : list RemoteLine) : string :=
  match lines with
  | [] => EmptyString
  | l :: rest => renderLine l +:+ gitRemoteOutput rest
  end.

(** A non-empty run of non-whitespace characters. *)
Definition isToken (s : string) : bool :=
  truthyStr s && forallb nonWhitespace (list_ascii_of_string s).

Definition wellFormedLine (l : RemoteLine) : bool :=
  isToken (line_name l) && isToken (line_url l).

(** Each element at its first occurrence only. *)
Fixpoint firstOccurrences (seen : list string) (l : list string) : list string :=
  match l with
  | [] => []
  | x :: rest =>
      if bool_decide (x ∈ seen) then firstOccurrences seen rest
      else x :: firstOccurrences (seen ++ [x]) rest
  end.

(** What one URL contributes: a remote when the pattern matches and the
    credential helper has data for it. *)
Definition resolveRemote (fill : string -> option Credential) (url0 : string)
    : option GitRemote :=
  match githubGroups url0 with
  | Some (m1, m2, m3) =>
      match fill m1 with
      | Some data =>
          Some {| url := m1; owner := m2; repo := m3; username := cred_username data |}
      | None => None
      end
  | None => None
  end.

(** Shapes of the parts of a GitHub URL. *)
Definition noWhitespace (s : string) : bool :=
  forallb nonWhitespace (list_ascii_of_string s).

Definition isOwnerName (s : string) : bool :=
  truthyStr s &&
  forallb (fun c => nonWhitespace c && notSlash c) (list_ascii_of_string s).

Definition isRepoName (s : string) : bool :=
  truthyStr s &&
  forallb (fun c => nonWhitespace c && notSlash c && notSpaceOrDot c)
    (list_ascii_of_string s).

(** Nothing, or a dot followed by slash-free non-whitespace, as in [.git]. *)
Definition isExtension (s : string) : bool :=
  match s with
  | EmptyString => true
  | String c _ =>
      Ascii.eqb c "." &&
      forallb (fun c => nonWhitespace c && notSlash c) (list_ascii_of_string s)
  end.

Definition widgetsOutput : list RemoteLine :=
  [ {| line_name := "origin"; line_url := "https://github.com/acme/widgets.git";
       line_direction := Fetch |};
    {| line_name := "origin"; line_url := "https://github.com/acme/widgets.git";
       line_direction := Push |} ].

Definition bobsCredentials (url0 : string) : option Credential :=
  Some {| cred_username := "bob" |}.

Definition countSlashes (s : list ascii) : nat :=
  length (List.filter (fun c => Ascii.eqb c "/") s).

(** What follows [github.com/] in a repository URL. *)
Definition githubPath (owner0 repo0 ext : list ascii) : list ascii :=
  owner0 ++ list_ascii_of_string "/" ++ repo0 ++ ext.

(** [githubPattern] after its leading repetition. *)
Definition githubTail : list Atom := tail githubPattern.

(** ** Provider states *)

Definition isFulfilled (s : PromiseState) : Prop :=
  match s with
  | Fulfilled _ => True
  | _ => False
  end.

(** What holds of every state the provider can be in: when [fetching] is
    clear every build has fulfilled, every build but the cached one has
    fulfilled, and an empty cache means no build is running. *)
Definition consistent (p : Provider) : Prop :=
  (fetching p = false -> Forall isFulfilled (promises p)) /\
  (forall ref ref' s, children p = Some ref -> promises p !! ref' = Some s ->
     ref' <> ref -> isFulfilled s) /\
  (children p = None -> fetching p = false).

(** The instant the latest build was started, read off a trace. *)
Fixpoint lastStartedFrom (p : Provider) (trace : list (Z * Event)) (last : option Z)
    : option Z :=
  match trace with
  | [] => last
  | (now, e) :: rest =>
      let p' := step p (now, e) in
      lastStartedFrom p' rest
        (if (buildsStarted p <? buildsStarted p')%nat then Some now else last)
  end.

Definition lastStarted (trace : list (Z * Event)) : option Z :=
  lastStartedFrom newProvider trace None.

(** A first build that takes a quarter of an hour. *)
Definition slowBuild : list (Z * Event) :=
  [(1000, CallGetChildren None); (1000000, Settle 0 (Ok [Message "No issues found"]))].

(** A build that completes at once, and a refresh whose build hangs. *)
Definition hungRefresh : list (Z * Event) :=
  [(1000, CallGetChildren None); (2000, Settle 0 (Ok [Message "No issues found"]));
   (3000, CallRefresh)].

(** The first build is under way. *)
Definition firstBuild : list (Z * Event) := [(1000, CallGetChildren None)].

(** A provider whose build has failed: the busy flag is set, a promise is
    cached, and nothing is pending any more. *)
Definition blocked (p : Provider) : Prop :=
  fetching p = true /\ is_Some (children p) /\ buildInFlight p = false.

Definition widgetsWorkspace : Workspace :=
  {| rootPath := Some "/home/bob/widgets";
     gitRemoteV := Some (gitRemoteOutput widgetsOutput);
     fill := bobsCredentials |}.

From Stdlib Require DecimalPos DecimalN.

(** ** Item commands *)

(** [getTreeItem] hands the element back. *)
Definition getTreeItem (element : TreeItem) : TreeItem := element.

(** [openIssue]: the address handed to [vscode.open]. *)
Definition openIssue (issue : Issue) : string := html_url (issue_item issue).

(** [copyNumber], [copyText], [copyMarkdown]: the text put on the clipboard. *)
Definition copyNumber (issue : Issue) : string :=
  "#" +:+ showNumber (item_number (issue_item issue)).

Definition copyText (issue : Issue) : string := issue_label issue.

Definition copyMarkdown (issue : Issue) : string :=
  "[#" +:+ showNumber (item_number (issue_item issue)) +:+ "](" +:+
  html_url (issue_item issue) +:+ ")".

(** ** What the host shows *)

(** The issues under a root node: the node itself when it is a leaf, the
    children [getChildren] answers with when it is a milestone. *)
Definition leavesOf (node : TreeItem) : list Issue :=
  match node with
  | IssueNode issue => [issue]
  | MilestoneNode m => milestone_issues m
  | Message _ => []
  end.

Definition shownIssues (roots : list TreeItem) : list Issue := flat_map leavesOf roots.

Definition isMessage (node : TreeItem) : bool :=
  match node with Message _ => true | _ => false end.

Definition isIssueNode (node : TreeItem) : bool :=
  match node with IssueNode _ => true | _ => false end.

Definition isMilestoneNode (node : TreeItem) : bool :=
  match node with MilestoneNode _ => true | _ => false end.

(** An issue leaf as the aggregator builds it from its item. *)
Definition builtFromItem (issue : Issue) : Prop := issue = newIssue (issue_item issue).

(** ** Counting requests *)

(** The same client, with the number of requests served kept beside its
    world. *)
Definition countingClient `(client : GitHubClient World) : GitHubClient (World * nat) :=
  {| getMilestones := fun o r n wc =>
       let (res, w') := getMilestones o r n wc.1 in (res, (w', S wc.2));
     searchIssues := fun params wc =>
       let (res, w') := searchIssues params wc.1 in (res, (w', S wc.2)) |}.

(** Run on the counting client, a computation does what it does on the
    client itself and adds [k] to the count. *)
Definition countsAs {World A : Type} (counted : A * (World * nat)) (plain : A * World)
    (c k : nat) : Prop :=
  counted = (plain.1, (plain.2, (c + k)%nat)).

(** A client for a server that knows none of the repositories. *)
Definition notFoundClient : GitHubClient unit :=
  {| getMilestones := fun _ _ _ w => (Err (HttpError 404), w);
     searchIssues := fun _ w => (Err (HttpError 404), w) |}.

(** ** What a matched segment looks like *)

Definition segmentMatches (atom : Atom) (seg : list ascii) : Prop :=
  match atom with
  | Rep cls min => forallb cls seg = true /\ (min <= length seg)%nat
  | Lit l => seg = l
  end.

(** ** More provider invariants *)

Definition isPending (s : PromiseState) : bool :=
  match s with Pending => true | _ => false end.

Definition pendingCount (p : Provider) : nat := length (List.filter isPending (promises p)).

(** The cache refers to the build started last; every suspended [refresh]
    waits for a pending build; each build accounts for at most one
    notification, fired or still to come; and while [fetching] is set the
    cached build has not fulfilled. *)
Definition orderly (p : Provider) : Prop :=
  match children p with
  | None => promises p = []
  | Some ref => S ref = length (promises p)
  end /\
  (forall ref, In ref (awaiting p) -> promises p !! ref = Some Pending) /\
  (fired p + length (awaiting p) <= buildsStarted p)%nat /\
  (length (awaiting p) <= 1)%nat /\
  (fetching p = true -> forall ref s,
     children p = Some ref -> promises p !! ref = Some s -> ~ isFulfilled s).

(** A second remote and a workspace with a line that is no GitHub URL. *)
Definition mixedOutput : list RemoteLine :=
  [ {| line_name := "origin"; line_url := "https://github.com/acme/widgets.git";
       line_direction := Fetch |};
    {| line_name := "origin"; line_url := "https://github.com/acme/widgets.git";
       line_direction := Push |};
    {| line_name := "mirror"; line_url := "https://example.org/acme/widgets.git";
       line_direction := Fetch |};
    {| line_name := "upstream"; line_url := "https://github.com/octo/gadgets";
       line_direction := Fetch |} ].

Definition octoGadgets : GitRemote :=
  {| url := "https://github.com/octo/gadgets"; owner := "octo"; repo := "gadgets";
     username := "bob" |}.

Definition widgetLeaf : Issue := newIssue widgetItem.

(** ** [checkoutPullRequest] *)

(** The part of a pull request the method reads: [head.repo.owner.login],
    [head.repo.clone_url] and [head.ref]. *)
Record PullRequestHead : Type := {
  head_login : string;
  head_clone_url : string;
  head_ref : string
}.

(** A command that exits with an error. *)
Record ExecFailure : Type := {
  exit_code : Z;
  stderr : string
}.

(** The collaborators of the method: [Uri.parse(...).path], [path.basename]
    and [path.dirname], and the pull request endpoint of the GitHub client.
    [pullRequestsGet] stands for the request together with the three reads
    of its answer that follow it: it fails when the request is refused, and
    when the answer has no head repository to read the login and the clone
    URL from. *)
Class PullRequestHost (World : Type) : Type := {
  pullRequestsGet : string -> string -> N -> World -> Result PullRequestHead * World;
  uriPath : string -> string;
  basename : string -> string;
  dirname : string -> string
}.

(** [exec] from [./utils], run in the workspace folder: the standard output
    of the command, or its failure. *)
Class Shell (Sh : Type) : Type := {
  exec : string -> Sh -> (ExecFailure + string) * Sh
}.

(** The pattern of the loop: a run of non-whitespace, whitespace, a run of
    non-whitespace, whitespace, and the literal [(fetch)], from the start
    of a line; the groups are the first and the third atom. *)
Definition fetchLinePattern : list Atom :=
  [Rep nonWhitespace 1; Rep isWhitespace 1; Rep nonWhitespace 1; Rep isWhitespace 1;
   Lit (list_ascii_of_string "(fetch)")].

(** The successive matches [r.exec] yields on a text, for a pattern with
    the flags [gm] anchored at the start of a line. *)
Fixpoint execAllFrom (atoms : list Atom) (atLineStart : bool) (skip : nat)
    (s : list ascii) : list (list (list ascii)) :=
  match skip with
  | S n =>
      match s with
      | [] => []
      | c :: s' => execAllFrom atoms (isLineTerminator c) n s'
      end
  | O =>
      match (if atLineStart then matchSeq atoms s else None) with
      | Some r =>
          r.1 ::
          match s with
          | [] => []
          | c :: s' => execAllFrom atoms (isLineTerminator c) (pred (matchedLength r)) s'
          end
      | None =>
          match s with
          | [] => []
          | c :: s' => execAllFrom atoms (isLineTerminator c) 0 s'
          end
      end
  end.

(** The [while] loop: the first group of the first match whose second
    group is the clone URL. *)
Definition findRemote (clone_url : string) (stdout : string) : option string :=
  match List.find
          (fun segs => String.eqb (string_of_list_ascii (default [] (segs !! 2%nat)))
                                  clone_url)
          (execAllFrom fetchLinePattern true 0 (list_ascii_of_string stdout)) with
  | Some segs => Some (string_of_list_ascii (default [] (segs !! 0%nat)))
  | None => None
  end.

Definition gitRemoteAdd (login clone_url : string) : string :=
  "git remote add " +:+ login +:+ " " +:+ clone_url.

Definition gitFetch (remote remoteBranch : string) : string :=
  "git fetch " +:+ remote +:+ " " +:+ remoteBranch.

Definition gitCheckout (localBranch remote remoteBranch : string) : string :=
  "git checkout -b " +:+ localBranch +:+ " " +:+ remote +:+ "/" +:+ remoteBranch.

(** The body of the outer [try]: the failures passed to [console.error],
    and the shell afterwards. *)
Definition checkoutSteps `{Shell Sh} (pr : PullRequestHead) (sh : Sh)
    : list ExecFailure * Sh :=
  let login := head_login pr in
  let clone_url := head_clone_url pr in
  let remoteBranch := head_ref pr in
  let localBranch := login +:+ "/" +:+ remoteBranch in
  match exec "git remote -v" sh with
  | (inl err, sh1) => ([err], sh1)
  | (inr stdout, sh1) =>
      let remote := findRemote clone_url stdout in
      let added :=
        if truthy remote then (inr (default EmptyString remote), sh1)
        else match exec (gitRemoteAdd login clone_url) sh1 with
             | (inl err, sh2) => (inl err, sh2)
             | (inr _, sh2) => (inr login, sh2)
             end in
      match added with
      | (inl err, sh2) => ([err], sh2)
      | (inr remote, sh2) =>
          let (fetched, sh3) := exec (gitFetch remote remoteBranch) sh2 in
          let logged := match fetched with inl err => [err] | inr _ => [] end in
          match exec (gitCheckout localBranch remote remoteBranch) sh3 with
          | (inl err, sh4) => (logged ++ [err], sh4)
          | (inr _, sh4) => (logged, sh4)
          end
      end
  end.

Definition checkoutPullRequest `{PullRequestHost World} `{Shell Sh} (issue : Issue)
    (w : World) (sh : Sh) : Result (list ExecFailure) * World * Sh :=
  let p := uriPath (repository_url (issue_item issue)) in
  let repo0 := basename p in
  let owner0 := basename (dirname p) in
  match pullRequestsGet owner0 repo0 (item_number (issue_item issue)) w with
  | (Err e, w') => (Err e, w', sh)
  | (Ok pr, w') =>
      let (logged, sh') := checkoutSteps pr sh in (Ok logged, w', sh')
  end.

(** The same shell, with the commands it was given and their outcomes kept
    beside its state, latest last. *)
Definition Trace : Type := list (string * (ExecFailure + string)).

Definition recordingShell `(shell : Shell Sh) : Shell (Sh * Trace) :=
  {| exec := fun command state =>
       let (out, sh') := exec command state.1 in
       (out, (sh', state.2 ++ [(command, out)])) |}.

Definition failuresOf (trace : Trace) : list ExecFailure :=
  omap (fun step => match step.2 with inl err => Some err | inr _ => None end) trace.

(** A shell in which every command succeeds, and the listing prints a
    fixed text. *)
Definition quietShell (listing : string) : Shell unit :=
  {| exec := fun command sh =>
       (inr (if String.eqb command "git remote -v" then listing else EmptyString), sh) |}.

(** The fetch lines of a listing, as name and URL. *)
Definition fetchRemotes (lines : list RemoteLine) : list RemoteLine :=
  List.filter (fun l => match line_direction l with Fetch => true | Push => false end) lines.

Definition forkHead : PullRequestHead :=
  {| head_login := "octo"; head_clone_url := "https://github.com/octo/gadgets";
     head_ref := "fix-flange" |}.

Definition strangerHead : PullRequestHead :=
  {| head_login := "mallory"; head_clone_url := "https://github.com/mallory/widgets.git";
     head_ref := "patch-1" |}.

(** A host that answers every lookup the same way and leaves paths as they
    are. *)
Definition fixedHost (answer : Result PullRequestHead) : PullRequestHost unit :=
  {| pullRequestsGet := fun _ _ _ w => (answer, w);
     uriPath := fun u => u; basename := fun p => p; dirname := fun p => p |}.

Definition isSuccess {A B : Type} (r : A + B) : bool :=
  match r with inl _ => false | inr _ => true end.

Definition fetchText : list ascii := list_ascii_of_string "(fetch)".

(** What the pattern consumes on a fetch line. *)
Definition fetchSegments (l : RemoteLine) : list (list ascii) :=
  [list_ascii_of_string (line_name l); [tabChar]; list_ascii_of_string (line_url l);
   [" "%char]; fetchText].

(** The run of the method with its commands recorded. *)
Definition recordedCheckout `{host : PullRequestHost World} `{shell : Shell Sh}
    (issue : Issue) (w : World) (sh : Sh) : Result (list ExecFailure) * World * (Sh * Trace) :=
  @checkoutPullRequest World host (Sh * Trace) (recordingShell shell) issue w (sh, []).

(** ** More sample inputs *)

Definition mixedWorkspace : Workspace :=
  {| rootPath := Some "/home/bob/widgets";
     gitRemoteV := Some (gitRemoteOutput mixedOutput);
     fill := bobsCredentials |}.

(** A client with no milestones and one open issue. *)
Definition widgetClient : GitHubClient unit :=
  tableClient (fun _ _ => []) (fun _ => [widgetItem]).

Definition widgetTree : list TreeItem :=
  [MilestoneNode {| milestone_label := "v1"; milestone_issues := [widgetLeaf] |}].

Definition reorderedMilestones : list MilestoneData := [milestoneC; milestoneA; milestoneB].

(** ** The remote resolver in the words of the specification *)

(** The fields of a text between separators. *)
Fixpoint splitOn (sep : ascii -> bool) (s : list ascii) : list (list ascii) :=
  match s with
  | [] => [[]]
  | c :: s' =>
      if sep c then [] :: splitOn sep s'
      else match splitOn sep s' with
           | field :: fields => (c :: field) :: fields
           | [] => [[c]]
           end
  end.

(** The whitespace-delimited tokens of a line. *)
Definition tokensOf (line : list ascii) : list (list ascii) :=
  List.filter (fun field => negb (Nat.eqb (length field) 0)) (splitOn isWhitespace line).

(** In the words of the specification: the second whitespace-delimited
    token of each line of the text that has one. *)
Definition secondTokens (text : string) : list string :=
  omap (fun line => option_map string_of_list_ascii (tokensOf line !! 1%nat))
       (splitOn isLineTerminator (list_ascii_of_string text)).

(** A text that holds [github.com/], an owner and the first character of a
    repository name: one or more characters other than a slash, a slash,
    and a character other than space and dot. *)
Definition githubShaped (u : string) : Prop :=
  exists (pre owner0 : string) (c : ascii) (rest : string),
    u = pre +:+ "github.com/" +:+ owner0 +:+ "/" +:+ String c rest /\
    owner0 <> EmptyString /\ forallb notSlash (list_ascii_of_string owner0) = true /\
    notSpaceOrDot c = true.

(** A listing whose first line holds a name only, in front of the line of a
    GitHub remote. *)
Definition strayNameOutput : string :=
  "origin" +:+ String newlineChar
    (gitRemoteOutput
       [ {| line_name := "upstream"; line_url := "https://github.com/acme/widgets.git";
            line_direction := Fetch |} ]).

Definition strayNameWorkspace : Workspace :=
  {| rootPath := Some "/home/bob/widgets";
     gitRemoteV := Some strayNameOutput;
     fill := bobsCredentials |}.

(** * Properties *)

(** ** Sorting with a comparator function *)

Section ArraySort.
Context {A : Type} (comparefn : A -> A -> Z).


Hypothesis comparefn_total : forall a b, inOrder comparefn a b \/ inOrder comparefn b a.
Hypothesis comparefn_trans :
  forall a b c, inOrder comparefn a b -> inOrder comparefn b c -> inOrder comparefn a c.

Lemma insertSorted_perm (x : A) (l : list A) :
  Permutation (insertSorted comparefn x l) (x :: l).
Proof.
  induction l as [|tmp rest IH]; simpl; [reflexivity|].
  destruct (0 <? comparefn tmp x); [|reflexivity].
  rewrite IH. apply perm_swap.
Qed.

Lemma fold_insertSorted_perm (l acc : list A) :
  Permutation (fold_left (fun s e => insertSorted comparefn e s) l acc) (l ++ acc).
Proof.
  revert acc. induction l as [|x l IH]; intros acc; simpl; [reflexivity|].
  rewrite IH, insertSorted_perm. symmetry. apply Permutation_middle.
Qed.

Lemma arraySort_perm (l : list A) : Permutation (arraySort comparefn l) l.
Proof.
  unfold arraySort. rewrite <- Permutation_rev, fold_insertSorted_perm.
  by rewrite app_nil_r.
Qed.

Lemma insertSorted_descending (x : A) (l : list A) :
  StronglySorted (fun a b => inOrder comparefn b a) l ->
  StronglySorted (fun a b => inOrder comparefn b a) (insertSorted comparefn x l).
Proof.
  induction l as [|tmp rest IH]; simpl; intros Hs.
  - repeat constructor.
  - apply StronglySorted_inv in Hs as [Hrest Htmp].
    destruct (0 <? comparefn tmp x) eqn:Hc.
    + apply Z.ltb_lt in Hc. constructor; [by apply IH|].
      apply List.Forall_forall. intros y Hy.
      apply (Permutation_in _ (insertSorted_perm x rest)) in Hy.
      destruct Hy as [<-|Hy].
      * destruct (comparefn_total x tmp) as [?|Hle]; [done|].
        unfold inOrder in Hle. lia.
      * by apply (proj1 (List.Forall_forall _ _) Htmp).
    + apply Z.ltb_ge in Hc. constructor; [by constructor|].
      constructor; [exact Hc|].
      eapply Forall_impl; [exact Htmp|].
      intros y Hy. simpl in *. by eapply comparefn_trans.
Qed.

Lemma fold_insertSorted_descending (l acc : list A) :
  StronglySorted (fun a b => inOrder comparefn b a) acc ->
  StronglySorted (fun a b => inOrder comparefn b a)
    (fold_left (fun s e => insertSorted comparefn e s) l acc).
Proof.
  revert acc. induction l as [|x l IH]; intros acc Hs; simpl; [done|].
  by apply IH, insertSorted_descending.
Qed.

Lemma StronglySorted_snoc (R : A -> A -> Prop) (l : list A) (x : A) :
  StronglySorted R l -> Forall (fun y => R y x) l -> StronglySorted R (l ++ [x]).
Proof.
  induction l as [|a l IH]; simpl; intros Hs Hx.
  - repeat constructor.
  - apply StronglySorted_inv in Hs as [Hl Ha].
    apply Forall_cons in Hx as [Hax Hx].
    constructor; [by apply IH|].
    apply Forall_app. split; [done|by constructor].
Qed.

Lemma StronglySorted_rev (R : A -> A -> Prop) (l : list A) :
  StronglySorted (fun a b => R b a) l -> StronglySorted R (rev l).
Proof.
  induction 1 as [|a l Hs IH Ha]; simpl; [constructor|].
  apply StronglySorted_snoc; [exact IH|].
  apply List.Forall_forall. intros y Hy. apply List.in_rev in Hy.
  by apply (proj1 (List.Forall_forall _ _) Ha).
Qed.

Lemma arraySort_sorted (l : list A) : StronglySorted (inOrder comparefn) (arraySort comparefn l).
Proof.
  unfold arraySort. apply StronglySorted_rev, fold_insertSorted_descending. constructor.
Qed.

End ArraySort.

(** ** Milestone selector *)

Section MilestoneSelector.
Context `{Runtime}.

(** [localeCompare] is a total preorder on titles. *)
Hypothesis localeCompare_total :
  forall a b : string, localeCompare a b <= 0 \/ localeCompare b a <= 0.
Hypothesis localeCompare_trans :
  forall a b c : string,
    localeCompare a b <= 0 -> localeCompare b c <= 0 -> localeCompare a c <= 0.

(** The runtime reads the two dates of the example in calendar order and
    collates "A" before "Z". *)
Hypothesis january_before_march : dateTime "2024-01-01" < dateTime "2024-03-01".
Hypothesis A_before_Z : 0 < localeCompare "Z" "A".

Lemma milestoneCompare_order (a b : MilestoneData) :
  inOrder milestoneCompare a b <-> milestoneOrder a b.
Proof.
  unfold inOrder, milestoneCompare, compareDateStrings, milestoneOrder.
  destruct (dueInstant (ms_due_on a)) as [x|], (dueInstant (ms_due_on b)) as [y|];
    simpl; try (split; [done|lia]); try (split; [lia|done]); try done.
  destruct (x - y =? 0) eqn:E; [apply Z.eqb_eq in E|apply Z.eqb_neq in E]; lia.
Qed.

Lemma milestoneOrder_total (a b : MilestoneData) :
  milestoneOrder a b \/ milestoneOrder b a.
Proof.
  unfold milestoneOrder.
  destruct (dueInstant (ms_due_on a)) as [x|], (dueInstant (ms_due_on b)) as [y|];
    auto.
  destruct (localeCompare_total (ms_title a) (ms_title b)); lia.
Qed.

Lemma milestoneOrder_trans (a b c : MilestoneData) :
  milestoneOrder a b -> milestoneOrder b c -> milestoneOrder a c.
Proof.
  unfold milestoneOrder.
  destruct (dueInstant (ms_due_on a)) as [x|], (dueInstant (ms_due_on b)) as [y|],
    (dueInstant (ms_due_on c)) as [z|]; try done; try eauto.
  intros [?|[-> Hab]] [?|[-> Hbc]]; try lia. right. eauto.
Qed.

Lemma sorted_milestones (data : list MilestoneData) :
  StronglySorted milestoneOrder (arraySort milestoneCompare data).
Proof.
  eapply StronglySorted_ind with (R := inOrder milestoneCompare).
  - constructor.
  - intros a l _ IH Ha. constructor; [exact IH|].
    eapply Forall_impl; [exact Ha|]. intros b. apply milestoneCompare_order.
  - apply arraySort_sorted.
    + intros a b. rewrite !milestoneCompare_order. apply milestoneOrder_total.
    + intros a b c. rewrite !milestoneCompare_order. apply milestoneOrder_trans.
Qed.

Lemma hasDueDate_instant (m : MilestoneData) :
  hasDueDate m = true <-> is_Some (dueInstant (ms_due_on m)).
Proof.
  unfold hasDueDate, dueInstant.
  destruct (truthy (ms_due_on m)) eqn:E.
  - destruct (ms_due_on m); [|done]. split; [by eexists|done].
  - split; [done|]. by intros [? ?].
Qed.

(** In a ranked list whose first milestone has no due date, none has. *)
Lemma undated_first_all_undated (m0 : MilestoneData) (l : list MilestoneData) :
  StronglySorted milestoneOrder (m0 :: l) -> hasDueDate m0 = false ->
  forall m, In m (m0 :: l) -> hasDueDate m = false.
Proof.
  intros Hs H0 m [<-|Hm]; [done|].
  apply StronglySorted_inv in Hs as [_ Hall].
  pose proof (proj1 (List.Forall_forall _ _) Hall m Hm) as Hle.
  destruct (hasDueDate m) eqn:E; [|done].
  apply hasDueDate_instant in E as [y Hy].
  unfold milestoneOrder in Hle. rewrite Hy in Hle.
  destruct (dueInstant (ms_due_on m0)) eqn:E0; [|done].
  assert (hasDueDate m0 = true) by (apply hasDueDate_instant; by eexists).
  congruence.
Qed.

Lemma firstHasDueDate_sorted (data : list MilestoneData) :
  firstHasDueDate (arraySort milestoneCompare data) = true <->
  exists m, In m data /\ hasDueDate m = true.
Proof.
  pose proof (sorted_milestones data) as Hs.
  pose proof (arraySort_perm milestoneCompare data) as Hp.
  destruct (arraySort milestoneCompare data) as [|m0 l] eqn:E; simpl.
  - apply Permutation_nil in Hp as ->. split; [done|]. by intros (? & [] & _).
  - split.
    + intros H0. exists m0. split; [|done].
      apply (Permutation_in _ Hp). by left.
    + intros (m & Hm & Hd).
      destruct (hasDueDate m0) eqn:E0; [done|].
      apply (Permutation_in _ (Permutation_sym Hp)) in Hm.
      pose proof (undated_first_all_undated _ _ Hs E0 m Hm). congruence.
Qed.

Lemma example_dated :
  currentMilestones [milestoneA; milestoneB; milestoneC] = ["C"; "A"].
Proof.
  unfold currentMilestones, arraySort. simpl.
  unfold milestoneCompare, compareDateStrings. simpl.
  destruct (dateTime "2024-03-01" - dateTime "2024-01-01" =? 0) eqn:E;
    [apply Z.eqb_eq in E; lia|].
  destruct (0 <? dateTime "2024-03-01" - dateTime "2024-01-01") eqn:E';
    [|apply Z.ltb_ge in E'; lia].
  reflexivity.
Qed.

Lemma example_undated : currentMilestones [undatedZ; undatedA] = ["A"; "Z"].
Proof.
  unfold currentMilestones, arraySort. simpl.
  unfold milestoneCompare, compareDateStrings. simpl.
  destruct (0 <? localeCompare "Z" "A") eqn:E; [|apply Z.ltb_ge in E; lia].
  reflexivity.
Qed.

(** Once any milestone has a due date, only dated milestones are returned. *)
Lemma dated_only (data : list MilestoneData) :
  (exists m, In m data /\ hasDueDate m = true) ->
  forall t, In t (currentMilestones data) ->
    exists m, In m data /\ hasDueDate m = true /\ ms_title m = t.
Proof.
  intros Hdated t Ht. unfold currentMilestones in Ht.
  rewrite (proj2 (firstHasDueDate_sorted data) Hdated) in Ht.
  apply in_map_iff in Ht as (m & <- & Hm). exists m.
  apply list_elem_of_In, elem_of_take in Hm as (i & Hi & _).
  apply list_elem_of_lookup_2, list_elem_of_In, List.filter_In in Hi as [Hin Hdue].
  split; [|done]. by apply (Permutation_in _ (arraySort_perm milestoneCompare data)).
Qed.

(** C1. For every fetched list of up to 10 open milestones, the selector
    sorts it ascending by due date, missing due dates after all present
    ones and ties broken by title comparison; exactly when the first
    milestone of the sorted list has a due date (that is, when any
    milestone has one) it removes every milestone lacking a due date; and it
    returns the titles of the first 2 milestones of the resulting list, so
    at most two titles and, once a dated milestone exists, those of dated
    milestones only. The dated example yields ["C";"A"], the all-undated one ["A";"Z"]. *)
Theorem currentMilestones_selects (data : list MilestoneData) :
  (length data <= 10)%nat ->
  let sorted := arraySort milestoneCompare data in
  Permutation sorted data /\
  StronglySorted milestoneOrder sorted /\
  (firstHasDueDate sorted = true <-> exists m, In m data /\ hasDueDate m = true) /\
  currentMilestones data =
    map ms_title
      (take 2 (if firstHasDueDate sorted then List.filter hasDueDate sorted else sorted)) /\
  ((exists m, In m data /\ hasDueDate m = true) ->
   forall t, In t (currentMilestones data) ->
     exists m, In m data /\ hasDueDate m = true /\ ms_title m = t) /\
  (length (currentMilestones data) <= 2)%nat /\
  currentMilestones [milestoneA; milestoneB; milestoneC] = ["C"; "A"] /\
  currentMilestones [undatedZ; undatedA] = ["A"; "Z"].
Proof.
  intros _ sorted. subst sorted.
  split; [apply arraySort_perm|].
  split; [apply sorted_milestones|].
  split; [apply firstHasDueDate_sorted|].
  split; [reflexivity|].
  split; [apply dated_only|].
  split; [|split; [apply example_dated|apply example_undated]].
  unfold currentMilestones. rewrite length_map, length_take. lia.
Qed.

End MilestoneSelector.

(** ** Issue aggregator *)

Section Aggregator.
Context `{Runtime} `{GitHubClient World}.

(** The shared [issues] array only grows: the loop for one remote leaves
    what was there and appends what that remote finds. *)
Lemma milestoneLoop_passResults (remote : GitRemote) (milestones : list (option string))
    (issues : list Issue) (w : World) :
  milestoneLoop remote milestones issues w =
    let '(e, found, w') := passResults remote milestones w in (e, issues ++ found, w').
Proof.
  revert issues w. induction milestones as [|m rest IH]; intros issues w; simpl.
  - by rewrite app_nil_r.
  - destruct (searchIssues (searchParams remote m) w) as [[items|e] w'].
    + rewrite IH. destruct (passResults remote rest w') as [[e found] w''].
      by rewrite app_assoc.
    + by rewrite app_nil_r.
Qed.

Lemma tryRemote_remoteReport (remote : GitRemote) (issues : list Issue) (w : World) :
  tryRemote remote issues w =
    let '(e, found, w') := remoteReport remote w in (e, issues ++ found, w').
Proof.
  unfold tryRemote, remoteReport.
  destruct (getCurrentMilestones remote w) as [[titles|e] w'].
  - apply milestoneLoop_passResults.
  - by rewrite app_nil_r.
Qed.

Lemma remoteLoop_accumulates (remotes : list GitRemote) (issues : list Issue)
    (errors : list TreeItem) (w : World) :
  remoteLoop remotes issues errors w = withRemote issues errors (remoteLoop remotes [] [] w).
Proof.
  revert issues errors w.
  induction remotes as [|remote rest IH]; intros issues errors w; simpl.
  - by rewrite !app_nil_r.
  - rewrite !tryRemote_remoteReport.
    destruct (remoteReport remote w) as [[[err|] found] w']; simpl.
    + destruct (isNotFound err); [|done].
      rewrite (IH (issues ++ found)), (IH found).
      destruct (remoteLoop rest [] [] w') as [[[found' errors']|e] w'']; simpl; [|done].
      by rewrite <- !app_assoc.
    + rewrite (IH (issues ++ found)), (IH found).
      destruct (remoteLoop rest [] [] w') as [[[found' errors']|e] w'']; simpl; [|done].
      by rewrite <- !app_assoc.
Qed.

Lemma fetchIssues_cons (remote : GitRemote) (rest : list GitRemote) (w : World) :
  fetchIssues (remote :: rest) w =
    match remoteReport remote w with
    | (None, found, w') => withRemote found [] (fetchIssues rest w')
    | (Some err, found, w') =>
        if isNotFound err
        then withRemote found [cannotAccess remote] (fetchIssues rest w')
        else (Err err, w')
    end.
Proof.
  unfold fetchIssues. simpl. rewrite tryRemote_remoteReport.
  destruct (remoteReport remote w) as [[[err|] found] w']; simpl.
  - destruct (isNotFound err); [|done]. apply remoteLoop_accumulates.
  - apply remoteLoop_accumulates.
Qed.

Lemma remoteReport_listing_throws (remote : GitRemote) (w w1 : World) (e : Error) :
  getCurrentMilestones remote w = (Err e, w1) -> remoteReport remote w = (Some e, [], w1).
Proof. unfold remoteReport. by intros ->. Qed.

(** A search that throws at the first pass leaves nothing behind. *)
Lemma passResults_first_throws (remote : GitRemote) (m : option string)
    (rest : list (option string)) (w w1 : World) (e : Error) :
  searchIssues (searchParams remote m) w = (Err e, w1) ->
  passResults remote (m :: rest) w = (Some e, [], w1).
Proof. simpl. by intros ->. Qed.

(** C2 (amended). A remote whose processing raises a 404-class error adds
    exactly one Message "Cannot access owner/repo" to the error list and
    keeps in the issue list only what its passes found before the error
    (nothing when the milestone listing raised it); the remotes after it are
    processed as usual. An error that is not 404-class aborts the whole
    aggregation, without a partial result. *)
Theorem inaccessible_remote_reported (remote : GitRemote) (rest : list GitRemote)
    (w : World) :
  match remoteReport remote w with
  | (Some err, found, w') =>
      if isNotFound err
      then fetchIssues (remote :: rest) w =
             withRemote found [cannotAccess remote] (fetchIssues rest w') /\
           (forall e w1, getCurrentMilestones remote w = (Err e, w1) -> found = [])
      else fetchIssues (remote :: rest) w = (Err err, w')
  | (None, found, w') =>
      fetchIssues (remote :: rest) w = withRemote found [] (fetchIssues rest w')
  end.
Proof.
  pose proof (fetchIssues_cons remote rest w) as Hcons.
  destruct (remoteReport remote w) as [[[err|] found] w'] eqn:Hreport; [|done].
  destruct (isNotFound err); [|done].
  split; [done|].
  intros e w1 Hthrow. apply remoteReport_listing_throws in Hthrow. congruence.
Qed.

End Aggregator.

(** C2 as stated fails: the second search of the remote is refused with
    status 404, the remote is reported as inaccessible, and the issue its
    first search found stays in the aggregated list. *)
Lemma inaccessible_remote_keeps_issues :
  (tryRemote (H := codeUnitRuntime) (H0 := revokedClient) acmeWidgets [] 0%nat).1.1
    = Some (HttpError 404) /\
  fetchIssues (H := codeUnitRuntime) (H0 := revokedClient) [acmeWidgets] 0%nat
    = (Ok ([newIssue widgetItem], [cannotAccess acmeWidgets]), 3%nat) /\
  [newIssue widgetItem] <> [].
Proof. split; [reflexivity|]. split; [reflexivity|discriminate]. Qed.

Lemma append_cons (c : ascii) (s t : string) : String c s +:+ t = String c (s +:+ t).
Proof. reflexivity. Qed.

Lemma append_empty_r (s : string) : s +:+ EmptyString = s.
Proof. induction s as [|c s IH]; [done|]. by rewrite append_cons, IH. Qed.

Lemma append_assoc (s1 s2 s3 : string) : (s1 +:+ s2) +:+ s3 = s1 +:+ s2 +:+ s3.
Proof. induction s1 as [|c s1 IH]; [done|]. by rewrite !append_cons, IH. Qed.

Lemma truthyStr_nonempty (s : string) : truthyStr s = true <-> s <> EmptyString.
Proof.
  unfold truthyStr. destruct (String.eqb_spec s EmptyString) as [->|Hne]; simpl.
  - split; [done|congruence].
  - done.
Qed.

Lemma searchQuery_clauses (remote : GitRemote) (milestone : option string) :
  searchQuery remote milestone =
    ("repo:" +:+ owner remote +:+ "/" +:+ repo remote +:+ " is:open")
    +:+ (if truthyStr (username remote)
         then " assignee:" +:+ username remote else EmptyString)
    +:+ (if truthy milestone
         then " milestone:" +:+ dquote +:+ default EmptyString milestone +:+ dquote
         else EmptyString).
Proof.
  unfold searchQuery.
  destruct milestone as [title|]; simpl.
  - destruct (truthyStr title), (truthyStr (username remote));
      repeat rewrite append_empty_r; repeat rewrite append_assoc; reflexivity.
  - destruct (truthyStr (username remote));
      repeat rewrite append_empty_r; repeat rewrite append_assoc; reflexivity.
Qed.

(** With a client answering from tables, the aggregation is the
    concatenation, remote by remote and pass by pass, of the search results. *)
Lemma passResults_table (listed : string -> string -> list MilestoneData)
    (found : SearchParams -> list Item) (remote : GitRemote)
    (milestones : list (option string)) :
  passResults (H := tableClient listed found) remote milestones tt =
    (None, flat_map (fun m => map newIssue (found (searchParams remote m))) milestones, tt).
Proof.
  induction milestones as [|m rest IH]; simpl; [done|]. by rewrite IH.
Qed.

Lemma fetchIssues_table `{Runtime} (listed : string -> string -> list MilestoneData)
    (found : SearchParams -> list Item) (remotes : list GitRemote) :
  fetchIssues (H0 := tableClient listed found) remotes tt =
    (Ok (flat_map (fun remote =>
           flat_map (fun m => map newIssue (found (searchParams remote m)))
             (milestonePasses (currentMilestones (listed (owner remote) (repo remote)))))
           remotes, []), tt).
Proof.
  induction remotes as [|remote rest IH]; [done|].
  rewrite fetchIssues_cons.
  unfold remoteReport, getCurrentMilestones. simpl.
  rewrite passResults_table, IH. reflexivity.
Qed.

(** C5. For every remote and every milestone-or-none pass the query is
    [repo:{owner}/{repo} is:open], then [ assignee:{username}] exactly when
    the username is non-empty, then [ milestone:"{title}"] exactly when the
    pass carries a milestone (a non-empty title); the search asks for up to
    100 results sorted by creation date, ascending; each pass appends its
    results, in search-result order, to what the passes and remotes before
    it found, so the aggregated list follows remote order, then milestone
    order within a remote, then search-result order within a query. *)
Theorem search_passes_in_order `{Runtime} (remote : GitRemote) (milestone : option string) :
  q (searchParams remote milestone) =
    ("repo:" +:+ owner remote +:+ "/" +:+ repo remote +:+ " is:open")
    +:+ (if truthyStr (username remote)
         then " assignee:" +:+ username remote else EmptyString)
    +:+ (if truthy milestone
         then " milestone:" +:+ dquote +:+ default EmptyString milestone +:+ dquote
         else EmptyString) /\
  (truthyStr (username remote) = true <-> username remote <> EmptyString) /\
  (truthy milestone = true <-> exists title, milestone = Some title /\ title <> EmptyString) /\
  sort (searchParams remote milestone) = "created" /\
  order (searchParams remote milestone) = "asc" /\
  per_page (searchParams remote milestone) = 100 /\
  (forall `(client : GitHubClient World) (rest : list (option string))
          (issues : list Issue) (w : World),
     milestoneLoop remote (milestone :: rest) issues w =
       match searchIssues (searchParams remote milestone) w with
       | (Ok items, w') => milestoneLoop remote rest (issues ++ map newIssue items) w'
       | (Err e, w') => (Some e, issues, w')
       end) /\
  (forall `(client : GitHubClient World) (later : list GitRemote) (w : World),
     match remoteReport remote w with
     | (None, found, w') =>
         fetchIssues (remote :: later) w = withRemote found [] (fetchIssues later w')
     | _ => True
     end) /\
  (forall (listed : string -> string -> list MilestoneData)
          (found : SearchParams -> list Item) (remotes : list GitRemote),
     fetchIssues (H0 := tableClient listed found) remotes tt =
       (Ok (flat_map (fun r =>
              flat_map (fun m => map newIssue (found (searchParams r m)))
                (milestonePasses (currentMilestones (listed (owner r) (repo r)))))
              remotes, []), tt)).
Proof.
  split; [apply searchQuery_clauses|].
  split; [apply truthyStr_nonempty|].
  split.
  { destruct milestone as [title|]; simpl.
    - rewrite truthyStr_nonempty. split.
      + intros Hne. by exists title.
      + by intros (t & [= <-] & Hne).
    - split; [done|]. by intros (t & [=] & _). }
  split; [done|]. split; [done|]. split; [done|].
  split; [done|].
  split.
  { intros World client later w. pose proof (fetchIssues_cons remote later w) as Hc.
    by destruct (remoteReport remote w) as [[[err|] found] w']. }
  intros listed found remotes. apply fetchIssues_table.
Qed.

(** ** Insertion-ordered sets *)

Lemma newSet_snoc (l : list string) (x : string) :
  newSet (l ++ [x]) = setAdd (newSet l) x.
Proof. unfold newSet. by rewrite fold_left_app. Qed.

Lemma elem_of_setAdd (set : list string) (x y : string) :
  y ∈ setAdd set x <-> y ∈ set \/ y = x.
Proof.
  unfold setAdd. case_bool_decide as Hx.
  - split; [by left|]. by intros [?| ->].
  - rewrite elem_of_app, list_elem_of_singleton. done.
Qed.

Lemma elem_of_newSet (l : list string) (x : string) : x ∈ newSet l <-> x ∈ l.
Proof.
  induction l as [|y l IH] using rev_ind.
  - done.
  - rewrite newSet_snoc, elem_of_setAdd, IH, elem_of_app, list_elem_of_singleton. done.
Qed.

Lemma NoDup_newSet (l : list string) : NoDup (newSet l).
Proof.
  induction l as [|y l IH] using rev_ind.
  - constructor.
  - rewrite newSet_snoc. unfold setAdd. case_bool_decide as Hy; [done|].
    apply NoDup_app. split; [done|]. split.
    + intros z Hz Hzy. apply list_elem_of_singleton in Hzy as ->. done.
    + apply NoDup_singleton.
Qed.

Lemma fold_setAdd_firstOccurrences (l acc : list string) :
  fold_left setAdd l acc = acc ++ firstOccurrences acc l.
Proof.
  revert acc. induction l as [|x l IH]; intros acc; simpl.
  - by rewrite app_nil_r.
  - unfold setAdd at 2. case_bool_decide as Hx; rewrite IH; [done|].
    by rewrite <- app_assoc.
Qed.

Lemma newSet_firstOccurrences (l : list string) : newSet l = firstOccurrences [] l.
Proof. unfold newSet. by rewrite fold_setAdd_firstOccurrences. Qed.

(** ** Tree builder *)

Lemma filter_snoc {A : Type} (f : A -> bool) (l : list A) (x : A) :
  List.filter f (l ++ [x]) = List.filter f l ++ (if f x then [x] else []).
Proof. rewrite List.filter_app. simpl. by destruct (f x). Qed.

Lemma groupOf_snoc_other (done : list Issue) (issue : Issue) (label : string) :
  label <> groupKey issue -> groupOf (done ++ [issue]) label = groupOf done label.
Proof.
  intros Hne. unfold groupOf. rewrite filter_snoc.
  destruct (String.eqb_spec (groupKey issue) label) as [E|_]; [congruence|].
  by rewrite app_nil_r.
Qed.

Lemma groupOf_snoc_same (done : list Issue) (issue : Issue) :
  groupOf (done ++ [issue]) (groupKey issue) = pushIssue issue (groupOf done (groupKey issue)).
Proof.
  unfold groupOf, pushIssue. simpl. rewrite filter_snoc.
  by rewrite String.eqb_refl.
Qed.

Lemma groupOf_unseen (done : list Issue) (label : string) :
  label ∉ map groupKey done -> milestone_issues (groupOf done label) = [].
Proof.
  intros Hnot. simpl. induction done as [|i done IH]; simpl; [done|].
  destruct (String.eqb_spec (groupKey i) label) as [E|_].
  - exfalso. apply Hnot. simpl. rewrite E. by left.
  - apply IH. intros Hin. apply Hnot. simpl. by right.
Qed.

(** Pushing onto the group of a key already seen. *)
Lemma groupsOf_snoc_seen (done : list Issue) (issue : Issue) (ref : nat) :
  newSet (map groupKey done) !! ref = Some (groupKey issue) ->
  alter (pushIssue issue) ref (groupsOf done) = groupsOf (done ++ [issue]).
Proof.
  intros Href. unfold groupsOf.
  assert (Hkeys : newSet (map groupKey (done ++ [issue])) = newSet (map groupKey done)).
  { rewrite map_app. simpl. rewrite newSet_snoc. unfold setAdd.
    case_bool_decide as Hin; [done|].
    exfalso. apply Hin. by eapply list_elem_of_lookup_2. }
  rewrite Hkeys.
  pose proof (NoDup_newSet (map groupKey done)) as Hnd.
  apply list_eq. intros j.
  destruct (decide (j = ref)) as [->|Hj].
  - rewrite list_lookup_alter, !list_lookup_fmap, Href. simpl.
    rewrite decide_True by done. by rewrite groupOf_snoc_same.
  - rewrite list_lookup_alter_ne by done. rewrite !list_lookup_fmap.
    destruct (newSet (map groupKey done) !! j) as [k|] eqn:Hk; simpl; [|done].
    rewrite groupOf_snoc_other; [done|].
    intros ->. apply Hj. by eapply NoDup_lookup.
Qed.

(** Opening a group for a key not seen before. *)
Lemma groupsOf_snoc_unseen (done : list Issue) (issue : Issue) :
  groupKey issue ∉ newSet (map groupKey done) ->
  groupsOf done ++
    [pushIssue issue {| milestone_label := groupKey issue; milestone_issues := [] |}]
  = groupsOf (done ++ [issue]).
Proof.
  intros Hnew. unfold groupsOf.
  rewrite (map_app groupKey). simpl. rewrite newSet_snoc. unfold setAdd.
  rewrite bool_decide_eq_false_2 by done.
  rewrite map_app. simpl. f_equal.
  - apply map_ext_in. intros k Hk. symmetry. apply groupOf_snoc_other.
    intros ->. apply Hnew. by apply list_elem_of_In.
  - rewrite groupOf_snoc_same. f_equal. unfold pushIssue. simpl.
    change (List.filter (fun i => String.eqb (groupKey i) (groupKey issue)) done)
      with (milestone_issues (groupOf done (groupKey issue))).
    rewrite groupOf_unseen; [done|]. by rewrite <- elem_of_newSet.
Qed.

Lemma indexes_insert (index : gmap string nat) (labels : list string) (k : string) :
  indexes index labels -> k ∉ labels ->
  indexes (<[k := length labels]> index) (labels ++ [k]).
Proof.
  intros Hidx Hnew k' ref.
  destruct (decide (k = k')) as [<-|Hne].
  - rewrite lookup_insert_eq. split.
    + intros [= <-]. by rewrite lookup_app_r, Nat.sub_diag.
    + intros Hl. f_equal.
      destruct (decide (ref < length labels)%nat) as [Hlt|Hge].
      * rewrite lookup_app_l in Hl by done.
        exfalso. apply Hnew. by eapply list_elem_of_lookup_2.
      * apply lookup_lt_Some in Hl. rewrite length_app in Hl. simpl in Hl. lia.
  - rewrite lookup_insert_ne by done. rewrite (Hidx k' ref). split.
    + intros Hl. by apply lookup_app_l_Some.
    + intros Hl. apply lookup_app_Some in Hl as [Hl|[_ Hl]]; [done|].
      apply list_lookup_singleton_Some in Hl as [_ Hk]. congruence.
Qed.

Lemma groupLoop_groups (rest done : list Issue) (index : gmap string nat) :
  indexes index (newSet (map groupKey done)) ->
  Forall (fun i => isInheritedKey (groupKey i) = false) rest ->
  groupLoop rest index (groupsOf done) = Ok (groupsOf (done ++ rest)).
Proof.
  revert done index.
  induction rest as [|issue rest IH]; intros done index Hidx Hsafe; simpl.
  - by rewrite app_nil_r.
  - apply Forall_cons in Hsafe as [Hkey Hsafe].
    fold (groupKey issue). unfold getProperty.
    destruct (index !! groupKey issue) as [ref|] eqn:Hlook.
    + apply Hidx in Hlook.
      rewrite (groupsOf_snoc_seen _ _ _ Hlook).
      rewrite (IH (done ++ [issue]) index); [by rewrite <- app_assoc| |done].
      rewrite map_app. simpl. rewrite newSet_snoc. unfold setAdd.
      rewrite bool_decide_eq_true_2; [done|]. by eapply list_elem_of_lookup_2.
    + rewrite Hkey.
      assert (Hnew : groupKey issue ∉ newSet (map groupKey done)).
      { intros Hin. apply list_elem_of_lookup in Hin as [ref Href].
        apply Hidx in Href. congruence. }
      rewrite (groupsOf_snoc_unseen _ _ Hnew).
      assert (Hlen : length (groupsOf done) = length (newSet (map groupKey done))).
      { unfold groupsOf. by rewrite length_map. }
      rewrite Hlen.
      rewrite (IH (done ++ [issue])); [by rewrite <- app_assoc| |done].
      rewrite map_app. simpl. rewrite newSet_snoc. unfold setAdd.
      rewrite bool_decide_eq_false_2 by done.
      by apply indexes_insert.
Qed.

Lemma groupIssues_groups (issues : list Issue) :
  Forall (fun i => isInheritedKey (groupKey i) = false) issues ->
  groupIssues issues = Ok (groupsOf issues).
Proof.
  intros Hsafe. unfold groupIssues.
  change (@nil Milestone) with (groupsOf []).
  rewrite (groupLoop_groups issues [] ∅); [done| |done].
  intros k ref. unfold newSet. simpl. by rewrite lookup_empty, lookup_nil.
Qed.

Lemma groupLoop_inherited (rest : list Issue) (index : gmap string nat)
    (milestones : list Milestone) :
  (forall k, is_Some (index !! k) -> isInheritedKey k = false) ->
  Exists (fun i => isInheritedKey (groupKey i) = true) rest ->
  groupLoop rest index milestones = Err pushOfUndefined.
Proof.
  revert index milestones.
  induction rest as [|issue rest IH]; intros index milestones Hidx Hex; simpl.
  - by apply Exists_nil in Hex.
  - fold (groupKey issue). unfold getProperty.
    destruct (isInheritedKey (groupKey issue)) eqn:Hkey.
    + destruct (index !! groupKey issue) as [ref|] eqn:Hlook; [|done].
      assert (isInheritedKey (groupKey issue) = false) by (apply Hidx; by eexists).
      congruence.
    + apply Exists_cons in Hex as [Hhere|Hex]; [congruence|].
      destruct (index !! groupKey issue) as [ref|] eqn:Hlook.
      * by apply IH.
      * apply IH; [|done]. intros k [ref Hk].
        destruct (decide (groupKey issue = k)) as [<-|Hne]; [done|].
        rewrite lookup_insert_ne in Hk by done. apply Hidx. by eexists.
Qed.

(** What the grouping loop returns, for every issue list. *)
Lemma groupIssues_result (issues : list Issue) :
  groupIssues issues =
    if existsb (fun i => isInheritedKey (groupKey i)) issues
    then Err pushOfUndefined
    else Ok (groupsOf issues).
Proof.
  destruct (existsb _ issues) eqn:Hex.
  - apply groupLoop_inherited.
    + intros k [ref Hk]. by rewrite lookup_empty in Hk.
    + apply existsb_exists in Hex as (i & Hi & Hkey).
      apply Exists_exists. exists i. split; [by apply list_elem_of_In|done].
  - apply groupIssues_groups. apply Forall_forall. intros i Hi.
    destruct (isInheritedKey (groupKey i)) eqn:Hkey; [|done].
    assert (existsb (fun i => isInheritedKey (groupKey i)) issues = true); [|congruence].
    apply existsb_exists. exists i. split; [by apply list_elem_of_In|done].
Qed.

(** The groups in words are what they should be: labels are the keys in
    first-seen order, every issue is in the group of its key and in no
    other, and a group lists its issues in aggregation order. *)
Lemma groupsOf_labels (issues : list Issue) :
  map milestone_label (groupsOf issues) = firstOccurrences [] (map groupKey issues).
Proof.
  unfold groupsOf. rewrite map_map. simpl. rewrite map_id.
  apply newSet_firstOccurrences.
Qed.

Lemma groupsOf_children (issues : list Issue) (m : Milestone) :
  In m (groupsOf issues) ->
  milestone_issues m =
    List.filter (fun i => String.eqb (groupKey i) (milestone_label m)) issues /\
  forall i, In i (milestone_issues m) -> In i issues /\ groupKey i = milestone_label m.
Proof.
  unfold groupsOf. intros Hm. apply in_map_iff in Hm as (k & <- & _). simpl.
  split; [done|]. intros i Hi. apply List.filter_In in Hi as [Hin Hk].
  split; [done|]. by apply String.eqb_eq.
Qed.

Lemma groupsOf_covers (issues : list Issue) (i : Issue) :
  In i issues ->
  exists m, In m (groupsOf issues) /\ milestone_label m = groupKey i /\
            In i (milestone_issues m).
Proof.
  intros Hi. exists (groupOf issues (groupKey i)). split; [|split; [done|]].
  - unfold groupsOf. apply in_map. apply list_elem_of_In, elem_of_newSet, list_elem_of_In.
    by apply in_map.
  - simpl. apply List.filter_In. split; [done|]. apply String.eqb_refl.
Qed.

(** C3. The tree builder groups the issues by milestone title, or
    "No Milestone". Where no grouping key is the name of a member inherited
    from [Object.prototype] there is one group per key, in first-seen order,
    each holding the issues with that key in aggregation order, so every
    Issue leaf sits in the group labelled with its key. An issue whose
    milestone is titled "constructor" makes the grouping loop throw
    instead of opening a group with that label. *)
Theorem grouping_breaks_on_inherited_label :
  (forall issues : list Issue,
     groupIssues issues =
       if existsb (fun i => isInheritedKey (groupKey i)) issues
       then Err pushOfUndefined
       else Ok (groupsOf issues)) /\
  (forall issues : list Issue,
     map milestone_label (groupsOf issues) = firstOccurrences [] (map groupKey issues) /\
     (forall m, In m (groupsOf issues) ->
        milestone_issues m =
          List.filter (fun i => String.eqb (groupKey i) (milestone_label m)) issues) /\
     (forall i, In i issues ->
        exists m, In m (groupsOf issues) /\ milestone_label m = groupKey i /\
                  In i (milestone_issues m))) /\
  groupKey constructorIssue = "constructor" /\
  groupsOf [constructorIssue] =
    [{| milestone_label := "constructor"; milestone_issues := [constructorIssue] |}] /\
  groupIssues [constructorIssue] = Err pushOfUndefined /\
  buildTree [constructorIssue] [] = Err pushOfUndefined.
Proof.
  split; [apply groupIssues_result|].
  split.
  { intros issues. split; [apply groupsOf_labels|]. split.
    - intros m Hm. by apply groupsOf_children.
    - apply groupsOf_covers. }
  repeat split; reflexivity.
Qed.

Lemma newSet_constant (l : list string) (k : string) :
  l <> [] -> Forall (fun x => x = k) l -> newSet l = [k].
Proof.
  induction l as [|x l IH] using rev_ind; [done|].
  intros _ Hall. apply Forall_app in Hall as [Hl Hx].
  apply Forall_singleton in Hx as ->.
  rewrite newSet_snoc. destruct l as [|y l].
  - change (newSet []) with (@nil string). unfold setAdd.
    case_bool_decide as Hin; [by apply elem_of_nil in Hin|done].
  - rewrite IH by done. unfold setAdd.
    rewrite bool_decide_eq_true_2; [done|]. by apply list_elem_of_singleton.
Qed.

Lemma groupsOf_single_key (issues : list Issue) (k : string) :
  issues <> [] -> Forall (fun i => groupKey i = k) issues ->
  groupsOf issues = [{| milestone_label := k; milestone_issues := issues |}].
Proof.
  intros Hne Hall. unfold groupsOf.
  rewrite (newSet_constant _ k).
  - simpl. unfold groupOf. f_equal. f_equal.
    induction Hall as [|i l Hi _ IH]; simpl; [done|].
    rewrite Hi, String.eqb_refl. f_equal.
    destruct l; [done|]. by apply IH.
  - by destruct issues.
  - apply Forall_forall. intros x Hx.
    apply list_elem_of_In, in_map_iff in Hx as (i & <- & Hi).
    by apply (proj1 (Forall_forall _ _) Hall), list_elem_of_In.
Qed.

Lemma buildTree_nonempty (issues : list Issue) (errors : list TreeItem) :
  issues <> [] ->
  buildTree issues errors =
    match groupIssues issues with
    | Ok milestones => Ok (rootItems milestones)
    | Err e => Err e
    end.
Proof. by destruct issues. Qed.

(** C4. For every non-empty issue list: when grouping yields exactly one
    group and its label is "No Milestone", the builder returns the Issue
    children of that group as the root list; in every other case it returns
    the milestone group nodes. Three issues without a milestone come back as
    the three root items. *)
Theorem single_no_milestone_group_is_flattened (issues : list Issue)
    (errors : list TreeItem) :
  issues <> [] ->
  (forall milestones : list Milestone,
     groupIssues issues = Ok milestones ->
     buildTree issues errors =
       Ok (match milestones with
           | [m] =>
               if String.eqb (milestone_label m) "No Milestone"
               then map IssueNode (milestone_issues m)
               else map MilestoneNode milestones
           | _ => map MilestoneNode milestones
           end)) /\
  (Forall (fun i => groupKey i = "No Milestone") issues ->
   buildTree issues errors = Ok (map IssueNode issues)) /\
  buildTree looseIssues errors = Ok (map IssueNode looseIssues).
Proof.
  intros Hne. split; [|split].
  - intros milestones Hgroups.
    rewrite buildTree_nonempty, Hgroups by done. f_equal.
    unfold rootItems, onlyNoMilestone.
    by destruct milestones as [|m [|m' rest]].
  - intros Hall.
    rewrite buildTree_nonempty by done.
    rewrite groupIssues_groups.
    + by rewrite (groupsOf_single_key issues "No Milestone").
    + eapply Forall_impl; [exact Hall|]. by intros i ->.
  - reflexivity.
Qed.

(** C9. On an empty issue list the tree builder returns the error list when
    that list is non-empty, and otherwise exactly one Message node labelled
    "No issues found"; nothing is grouped or flattened. *)
Theorem empty_issue_list_reports (errors : list TreeItem) :
  buildTree [] errors =
    Ok (match errors with
        | [] => [Message "No issues found"]
        | _ => errors
        end) /\
  (errors <> [] -> buildTree [] errors = Ok errors) /\
  buildTree [] [] = Ok [Message "No issues found"].
Proof.
  split; [reflexivity|]. split; [|reflexivity].
  intros Hne. by destruct errors.
Qed.

(** ** Regular expression matching *)

Lemma matchRep_run (cls : ascii -> bool) (k : list ascii -> option MatchResult)
    (run rest : list ascii) (segs : list (list ascii)) (rest' : list ascii) :
  forall min : nat,
  forallb cls run = true ->
  match rest with [] => true | c :: _ => negb (cls c) end = true ->
  (min <= length run)%nat ->
  k rest = Some (segs, rest') ->
  matchRep cls min k (run ++ rest) = Some (run :: segs, rest').
Proof.
  induction run as [|c run IH]; intros min Hrun Hstop Hmin Hk; simpl in *.
  - assert (min = 0%nat) as -> by lia.
    destruct rest as [|c rest]; simpl; [by rewrite Hk|].
    apply negb_true_iff in Hstop. by rewrite Hstop, Hk.
  - apply andb_true_iff in Hrun as [Hc Hrun]. rewrite Hc.
    rewrite (IH (pred min)); [done|done|done|lia|done].
Qed.

(** A repetition that can run to the end of the text, in front of a
    continuation that fails at every later position, stops where it starts. *)
Lemma matchRep_no_later (cls : ascii -> bool) (k : list ascii -> option MatchResult)
    (s : list ascii) :
  (forall n, k (drop (S n) s) = None) ->
  matchRep cls 0 k s = withSegment [] (k s).
Proof.
  induction s as [|c s IH]; intros Hlater; simpl; [done|].
  destruct (cls c); [|done].
  rewrite IH.
  - pose proof (Hlater 0%nat) as H0. simpl in H0. rewrite drop_0 in H0.
    by rewrite H0.
  - intros n. apply (Hlater (S n)).
Qed.

(** Backtracking: the leading repetition gives back characters until the
    rest of the pattern matches, which it does at [tail] and nowhere later. *)
Lemma matchRep_backtrack (cls : ascii -> bool) (k : list ascii -> option MatchResult)
    (pre tail : list ascii) (segs : list (list ascii)) (rest' : list ascii) :
  forallb cls pre = true ->
  (forall n, k (drop (S n) tail) = None) ->
  k tail = Some (segs, rest') ->
  matchRep cls 0 k (pre ++ tail) = Some (pre :: segs, rest').
Proof.
  intros Hpre Hlater Hk.
  induction pre as [|c pre IH]; simpl in *.
  - rewrite matchRep_no_later by done. by rewrite Hk.
  - apply andb_true_iff in Hpre as [Hc Hpre]. rewrite Hc.
    by rewrite IH.
Qed.

Lemma isPrefix_app (l s : list ascii) : isPrefix l (l ++ s) = true.
Proof.
  induction l as [|a l IH]; simpl; [done|].
  by rewrite Ascii.eqb_refl, IH.
Qed.

Lemma isPrefix_split (l s : list ascii) :
  isPrefix l s = true -> s = l ++ drop (length l) s.
Proof.
  revert s. induction l as [|a l IH]; intros s Hp; simpl in *.
  - by rewrite drop_0.
  - destruct s as [|b s]; [done|].
    apply andb_true_iff in Hp as [Hab Hp]. apply Ascii.eqb_eq in Hab as ->.
    simpl. f_equal. by apply IH.
Qed.

Lemma list_ascii_of_string_app (a b : string) :
  list_ascii_of_string (a +:+ b) = list_ascii_of_string a ++ list_ascii_of_string b.
Proof.
  induction a as [|c a IH]; [done|].
  rewrite append_cons. simpl. by rewrite IH.
Qed.

(** *** The line pattern on well-formed lines *)

Lemma whitespace_not_token_char (c : ascii) : isWhitespace c = true -> nonWhitespace c = false.
Proof. unfold nonWhitespace. by intros ->. Qed.

Lemma line_terminator_is_whitespace (c : ascii) :
  isLineTerminator c = true -> isWhitespace c = true.
Proof.
  unfold isLineTerminator, isWhitespace.
  destruct (N_of_ascii c =? 10)%N eqn:E10; [apply N.eqb_eq in E10 as ->; done|].
  destruct (N_of_ascii c =? 13)%N eqn:E13; [apply N.eqb_eq in E13 as ->; done|].
  done.
Qed.

Lemma token_char_not_terminator (c : ascii) :
  nonWhitespace c = true -> isLineTerminator c = false.
Proof.
  unfold nonWhitespace. intros Hc.
  destruct (isLineTerminator c) eqn:E; [|done].
  apply line_terminator_is_whitespace in E. by rewrite E in Hc.
Qed.

(** The pattern consumes the name, the tab and the URL of a line and stops
    at the blank in front of the direction. *)
Lemma matchSeq_remote_line (name url0 rest : list ascii) :
  name <> [] -> forallb nonWhitespace name = true ->
  url0 <> [] -> forallb nonWhitespace url0 = true ->
  match rest with [] => true | c :: _ => isWhitespace c end = true ->
  matchSeq remoteLinePattern (name ++ tabChar :: url0 ++ rest)
    = Some ([name; [tabChar]; url0], rest).
Proof.
  intros Hname Hn Hurl Hu Hrest. unfold remoteLinePattern. simpl.
  apply matchRep_run; [done|done|destruct name; [done|simpl; lia]|].
  change (tabChar :: url0 ++ rest) with ([tabChar] ++ url0 ++ rest).
  apply matchRep_run; [done| |simpl; lia|].
  { destruct url0 as [|c url0]; [done|]. simpl in *.
    apply andb_true_iff in Hu as [Hc _]. unfold nonWhitespace in Hc.
    by rewrite Hc. }
  apply matchRep_run; [done| |destruct url0; [done|simpl; lia]|done].
  destruct rest as [|c rest]; [done|]. unfold nonWhitespace. by rewrite Hrest.
Qed.

(** Skipping the characters of a match. *)
Lemma allMatchesFrom_skip (atoms : list Atom) (group : nat) (pre s : list ascii)
    (atLineStart : bool) :
  allMatchesFrom atoms group atLineStart (length pre) (pre ++ s) =
    allMatchesFrom atoms group
      (fold_left (fun _ c => isLineTerminator c) pre atLineStart) 0 s.
Proof.
  revert atLineStart. induction pre as [|c pre IH]; intros atLineStart; simpl; [done|].
  apply IH.
Qed.

(** No match starts inside a line. *)
Lemma allMatchesFrom_rest_of_line (atoms : list Atom) (group : nat)
    (t more : list ascii) :
  forallb (fun c => negb (isLineTerminator c)) t = true ->
  allMatchesFrom atoms group false 0 (t ++ newlineChar :: more) =
    allMatchesFrom atoms group true 0 more.
Proof.
  induction t as [|c t IH]; intros Ht; simpl in *; [done|].
  apply andb_true_iff in Ht as [Hc Ht]. apply negb_true_iff in Hc.
  rewrite Hc. by apply IH.
Qed.

Lemma last_char_not_terminator (pre : list ascii) (b : bool) :
  pre <> [] -> forallb nonWhitespace pre = true ->
  fold_left (fun _ c => isLineTerminator c) pre b = false.
Proof.
  revert b. induction pre as [|c pre IH]; intros b Hne Hpre; [done|]. simpl in *.
  apply andb_true_iff in Hpre as [Hc Hpre].
  destruct pre as [|c' pre]; [simpl; by apply token_char_not_terminator|].
  by apply IH.
Qed.

Lemma isToken_chars (s : string) :
  isToken s = true ->
  list_ascii_of_string s <> [] /\ forallb nonWhitespace (list_ascii_of_string s) = true.
Proof.
  unfold isToken. intros Ht. apply andb_true_iff in Ht as [Hne Hall].
  split; [|done]. by destruct s.
Qed.

Lemma renderLine_chars (l : RemoteLine) :
  list_ascii_of_string (renderLine l) =
    list_ascii_of_string (line_name l) ++
    tabChar :: list_ascii_of_string (line_url l) ++
    list_ascii_of_string (directionText (line_direction l)) ++ [newlineChar].
Proof.
  unfold renderLine.
  rewrite list_ascii_of_string_app, append_cons. simpl.
  by rewrite !list_ascii_of_string_app.
Qed.

Lemma allMatchesFrom_line (name url0 dir more : list ascii) :
  name <> [] -> forallb nonWhitespace name = true ->
  url0 <> [] -> forallb nonWhitespace url0 = true ->
  match dir with [] => true | c :: _ => isWhitespace c end = true ->
  forallb (fun c => negb (isLineTerminator c)) dir = true ->
  allMatchesFrom remoteLinePattern 2 true 0
    (name ++ tabChar :: url0 ++ dir ++ newlineChar :: more) =
    url0 :: allMatchesFrom remoteLinePattern 2 true 0 more.
Proof.
  intros Hname Hn Hurl Hu Hblank Hdir.
  assert (Hrest : match dir ++ newlineChar :: more with
                  | [] => true | c :: _ => isWhitespace c end = true).
  { destruct dir; [done|exact Hblank]. }
  pose proof (matchSeq_remote_line name url0 _ Hname Hn Hurl Hu Hrest) as Hm.
  destruct name as [|c name']; [done|].
  simpl app in *. cbn [allMatchesFrom]. rewrite Hm.
  cbn [fst]. change ([c :: name'; [tabChar]; url0] !! 2%nat) with (Some url0).
  cbn [default]. f_equal.
  replace (pred (matchedLength ([c :: name'; [tabChar]; url0], dir ++ newlineChar :: more)))
    with (length (name' ++ tabChar :: url0)).
  2:{ unfold matchedLength. simpl. rewrite !length_app. simpl. rewrite length_app. simpl. lia. }
  replace (name' ++ tabChar :: url0 ++ dir ++ newlineChar :: more)
    with ((name' ++ tabChar :: url0) ++ dir ++ newlineChar :: more)
    by (by rewrite <- app_assoc).
  rewrite allMatchesFrom_skip.
  replace (name' ++ tabChar :: url0) with ((name' ++ [tabChar]) ++ url0)
    by (by rewrite <- app_assoc).
  rewrite fold_left_app, last_char_not_terminator by done.
  by apply allMatchesFrom_rest_of_line.
Qed.

Lemma allMatches_line (l : RemoteLine) (more : list ascii) :
  wellFormedLine l = true ->
  allMatchesFrom remoteLinePattern 2 true 0 (list_ascii_of_string (renderLine l) ++ more) =
    list_ascii_of_string (line_url l) :: allMatchesFrom remoteLinePattern 2 true 0 more.
Proof.
  unfold wellFormedLine. intros Hwf. apply andb_true_iff in Hwf as [Hname Hurl].
  apply isToken_chars in Hname as [Hname Hn], Hurl as [Hurl Hu].
  rewrite renderLine_chars.
  rewrite <- (allMatchesFrom_line (list_ascii_of_string (line_name l))
                (list_ascii_of_string (line_url l))
                (list_ascii_of_string (directionText (line_direction l))) more);
    try done; try (by destruct (line_direction l)).
  f_equal. rewrite <- !app_assoc. simpl. by rewrite <- !app_assoc.
Qed.

Lemma allMatches_output (lines : list RemoteLine) :
  Forall (fun l => wellFormedLine l = true) lines ->
  allMatches remoteLinePattern (list_ascii_of_string (gitRemoteOutput lines)) 2 =
    map (fun l => list_ascii_of_string (line_url l)) lines.
Proof.
  unfold allMatches. induction 1 as [|l lines Hl _ IH]; simpl; [done|].
  by rewrite list_ascii_of_string_app, allMatches_line, IH.
Qed.

Lemma remoteUrls_output (lines : list RemoteLine) :
  Forall (fun l => wellFormedLine l = true) lines ->
  remoteUrls (gitRemoteOutput lines) = map line_url lines.
Proof.
  intros Hwf. unfold remoteUrls. rewrite allMatches_output by done.
  rewrite map_map. apply map_ext. intros l. apply string_of_list_ascii_of_string.
Qed.

(** *** The URL pattern *)

Lemma countSlashes_app (a b : list ascii) :
  countSlashes (a ++ b) = (countSlashes a + countSlashes b)%nat.
Proof. unfold countSlashes. by rewrite List.filter_app, length_app. Qed.

Lemma countSlashes_none (s : list ascii) :
  forallb notSlash s = true -> countSlashes s = 0%nat.
Proof.
  unfold countSlashes, notSlash. induction s as [|c s IH]; simpl; [done|].
  intros Hs. apply andb_true_iff in Hs as [Hc Hs]. apply negb_true_iff in Hc.
  rewrite Hc. by apply IH.
Qed.

Lemma countSlashes_zero (s : list ascii) :
  countSlashes s = 0%nat -> forallb notSlash s = true.
Proof.
  unfold countSlashes, notSlash. induction s as [|c s IH]; simpl; [done|].
  destruct (Ascii.eqb c "/"); simpl; [done|]. exact IH.
Qed.

Lemma countSlashes_drop (n : nat) (s : list ascii) :
  (countSlashes (drop n s) <= countSlashes s)%nat.
Proof.
  rewrite <- (take_drop n s) at 2. rewrite countSlashes_app. lia.
Qed.

(** Without a slash in the text, nothing of the form "owner/" matches. *)
Lemma matchRep_never (cls : ascii -> bool) (k : list ascii -> option MatchResult)
    (t : list ascii) (min : nat) :
  forallb cls t = true ->
  (forall s, match s with [] => true | c :: _ => cls c end = true -> k s = None) ->
  matchRep cls min k t = None.
Proof.
  intros Ht Hk. revert min. induction t as [|c t IH]; intros min; simpl in *.
  - destruct min; [|done]. by rewrite Hk.
  - apply andb_true_iff in Ht as [Hc Ht]. rewrite Hc, IH by done. simpl.
    destruct min; [|done]. by rewrite (Hk (c :: t)).
Qed.

Lemma slash_expected (atoms : list Atom) (s : list ascii) :
  match s with [] => true | c :: _ => notSlash c end = true ->
  matchSeq (Lit (list_ascii_of_string "/") :: atoms) s = None.
Proof.
  intros Hs. cbn [matchSeq list_ascii_of_string].
  destruct s as [|c s]; [done|]. cbn [isPrefix].
  unfold notSlash in Hs. apply negb_true_iff in Hs.
  by rewrite Ascii.eqb_sym, Hs.
Qed.

Lemma no_slash_no_owner (atoms : list Atom) (t : list ascii) (min : nat) :
  forallb notSlash t = true ->
  matchRep notSlash min (matchSeq (Lit (list_ascii_of_string "/") :: atoms)) t = None.
Proof. intros Ht. apply matchRep_never; [done|]. apply slash_expected. Qed.

Lemma matchSeq_Lit (l : list ascii) (atoms : list Atom) (s : list ascii) :
  matchSeq (Lit l :: atoms) s =
    if isPrefix l s then withSegment l (matchSeq atoms (drop (length l) s)) else None.
Proof. reflexivity. Qed.

Lemma matchSeq_Rep (cls : ascii -> bool) (min : nat) (atoms : list Atom) (s : list ascii) :
  matchSeq (Rep cls min :: atoms) s = matchRep cls min (matchSeq atoms) s.
Proof. reflexivity. Qed.

Lemma githubTail_needs_two_slashes (s : list ascii) :
  (countSlashes s <= 1)%nat -> matchSeq githubTail s = None.
Proof.
  intros Hcount. unfold githubTail, githubPattern. cbn [tail].
  rewrite matchSeq_Lit.
  destruct (isPrefix (list_ascii_of_string "github.com/") s) eqn:Hp; [|done].
  apply isPrefix_split in Hp.
  rewrite matchSeq_Rep, no_slash_no_owner; [done|].
  apply countSlashes_zero.
  rewrite Hp, countSlashes_app in Hcount.
  change (countSlashes (list_ascii_of_string "github.com/")) with 1%nat in Hcount.
  lia.
Qed.

Lemma regexExec_here (atoms : list Atom) (s : list ascii) (r : MatchResult) :
  matchSeq atoms s = Some r -> regexExec atoms s = Some r.
Proof. intros Hm. destruct s; cbn [regexExec]; by rewrite Hm. Qed.

Section GitHubUrl.
Variables owner0 repo0 ext : list ascii.
Hypothesis owner_shape : owner0 <> [] /\ forallb notSlash owner0 = true.
Hypothesis repo_shape :
  repo0 <> [] /\ forallb notSlash repo0 = true /\ forallb notSpaceOrDot repo0 = true.
Hypothesis ext_shape :
  forallb nonWhitespace ext = true /\ forallb notSlash ext = true /\
  match ext with [] => true | c :: _ => Ascii.eqb c "." end = true.

Lemma githubTail_matches :
  matchSeq githubTail (list_ascii_of_string "github.com/" ++ githubPath owner0 repo0 ext) =
    Some ([list_ascii_of_string "github.com/"; owner0; list_ascii_of_string "/"; repo0; ext],
          []).
Proof.
  destruct owner_shape as [Ho1 Ho2], repo_shape as (Hr1 & Hr2 & Hr3),
    ext_shape as (He1 & He2 & He3).
  unfold githubTail, githubPattern. cbn [tail].
  rewrite matchSeq_Lit, isPrefix_app, drop_app_length, matchSeq_Rep. unfold githubPath.
  rewrite (matchRep_run notSlash _ owner0 _
             [list_ascii_of_string "/"; repo0; ext] []); try done.
  - destruct owner0; [done|simpl; lia].
  - rewrite matchSeq_Lit, isPrefix_app, drop_app_length, matchSeq_Rep.
    rewrite (matchRep_run notSpaceOrDot _ repo0 _ [ext] []); try done.
    + destruct ext as [|c ext']; [done|].
      apply Ascii.eqb_eq in He3 as ->. done.
    + destruct repo0; [done|simpl; lia].
    + rewrite matchSeq_Rep. rewrite <- (app_nil_r ext) at 1.
      rewrite (matchRep_run nonWhitespace _ ext [] [] []); try done. simpl. lia.
Qed.

Lemma path_one_slash : countSlashes (githubPath owner0 repo0 ext) = 1%nat.
Proof.
  destruct owner_shape as [Ho1 Ho2], repo_shape as (Hr1 & Hr2 & Hr3),
    ext_shape as (He1 & He2 & He3).
  unfold githubPath. rewrite !countSlashes_app.
  rewrite (countSlashes_none owner0), (countSlashes_none repo0), (countSlashes_none ext)
    by done.
  reflexivity.
Qed.

Lemma githubTail_nowhere_later (n : nat) :
  matchSeq githubTail
    (drop (S n) (list_ascii_of_string "github.com/" ++ githubPath owner0 repo0 ext)) = None.
Proof.
  do 10 (destruct n as [|n]; [reflexivity|]).
  change (drop _ _) with (drop n (githubPath owner0 repo0 ext)).
  apply githubTail_needs_two_slashes.
  pose proof (countSlashes_drop n (githubPath owner0 repo0 ext)). rewrite path_one_slash in *. done.
Qed.

Lemma githubPattern_matches (pre : list ascii) :
  forallb nonWhitespace pre = true ->
  regexExec githubPattern
    (pre ++ list_ascii_of_string "github.com/" ++ githubPath owner0 repo0 ext) =
    Some ([pre; list_ascii_of_string "github.com/"; owner0; list_ascii_of_string "/";
           repo0; ext], []).
Proof.
  intros Hpre.
  assert (Hm : matchSeq githubPattern
                 (pre ++ list_ascii_of_string "github.com/" ++ githubPath owner0 repo0 ext) =
               Some ([pre; list_ascii_of_string "github.com/"; owner0;
                      list_ascii_of_string "/"; repo0; ext], [])).
  { change (matchSeq githubPattern) with (matchRep nonWhitespace 0 (matchSeq githubTail)).
    apply matchRep_backtrack; [done|apply githubTail_nowhere_later|apply githubTail_matches]. }
  by apply regexExec_here.
Qed.

End GitHubUrl.

(** ** Remote resolver *)

Lemma remotesOf_omap (fill : string -> option Credential) (urls : list string)
    (remotes : list GitRemote) :
  remotesOf fill urls remotes = remotes ++ omap (resolveRemote fill) urls.
Proof.
  revert remotes. induction urls as [|u urls IH]; intros remotes; simpl.
  - by rewrite app_nil_r.
  - unfold resolveRemote at 1.
    destruct (githubGroups u) as [[[m1 m2] m3]|]; [|apply IH].
    destruct (fill m1) as [data|]; [|apply IH].
    rewrite IH. by rewrite <- app_assoc.
Qed.

Lemma forallb_both {A : Type} (f g : A -> bool) (l : list A) :
  forallb (fun x => f x && g x) l = true -> forallb f l = true /\ forallb g l = true.
Proof.
  induction l as [|x l IH]; simpl; [done|].
  intros H. apply andb_true_iff in H as [Hx Hl]. apply andb_true_iff in Hx as [Hf Hg].
  destruct (IH Hl) as [IHf IHg]. by rewrite Hf, Hg, IHf, IHg.
Qed.

Lemma nonempty_chars (s : string) : truthyStr s = true -> list_ascii_of_string s <> [].
Proof. by destruct s. Qed.

(** On a URL made of a whitespace-free prefix, [github.com/], an owner, a
    slash, a repository name and an extension such as [.git], the pattern
    captures the owner and the repository name without the extension. *)
Lemma githubGroups_url (pre owner0 repo0 ext : string) :
  noWhitespace pre = true -> isOwnerName owner0 = true -> isRepoName repo0 = true ->
  isExtension ext = true ->
  githubGroups (pre +:+ "github.com/" +:+ owner0 +:+ "/" +:+ repo0 +:+ ext) =
    Some (pre +:+ "github.com/" +:+ owner0 +:+ "/" +:+ repo0 +:+ ext, owner0, repo0).
Proof.
  intros Hpre Howner Hrepo Hext. unfold githubGroups.
  rewrite !list_ascii_of_string_app.
  unfold isOwnerName in Howner. apply andb_true_iff in Howner as [Ho0 Ho].
  apply forallb_both in Ho as [_ Ho].
  unfold isRepoName in Hrepo. apply andb_true_iff in Hrepo as [Hr0 Hr].
  apply forallb_both in Hr as [Hr Hr2]. apply forallb_both in Hr as [_ Hr1].
  assert (He : forallb nonWhitespace (list_ascii_of_string ext) = true /\
               forallb notSlash (list_ascii_of_string ext) = true /\
               match list_ascii_of_string ext with
               | [] => true | c :: _ => Ascii.eqb c "." end = true).
  { destruct ext as [|c ext]; [done|].
    unfold isExtension in Hext. apply andb_true_iff in Hext as [Hdot Hall].
    apply forallb_both in Hall as [H1 H2]. done. }
  rewrite (githubPattern_matches (list_ascii_of_string owner0)
             (list_ascii_of_string repo0) (list_ascii_of_string ext)); try done.
  - cbn [lookup list_lookup default concat]. rewrite app_nil_r. unfold id.
    by rewrite <- !list_ascii_of_string_app, !string_of_list_ascii_of_string.
  - split; [by apply nonempty_chars|done].
  - split; [by apply nonempty_chars|done].
Qed.

(** ** Tree provider *)

Lemma refresh_fetching (now : Z) (p : Provider) : fetching p = true -> refresh now p = p.
Proof. unfold refresh. by intros ->. Qed.

Lemma refresh_idle (now : Z) (p : Provider) :
  fetching p = false ->
  refresh now p =
    {| fetching := true; lastFetch := Some now; children := Some (length (promises p));
       promises := promises p ++ [Pending];
       awaiting := awaiting p ++ [length (promises p)]; fired := fired p |}.
Proof. unfold refresh. by intros ->. Qed.

Lemma buildsStarted_refresh (now : Z) (p : Provider) :
  buildsStarted (refresh now p) =
    if fetching p then buildsStarted p else S (buildsStarted p).
Proof.
  destruct (fetching p) eqn:E.
  - by rewrite refresh_fetching.
  - rewrite refresh_idle by done. unfold buildsStarted. simpl.
    rewrite length_app. simpl. lia.
Qed.

Lemma buildInFlight_false (p : Provider) :
  Forall isFulfilled (promises p) -> buildInFlight p = false.
Proof.
  unfold buildInFlight. induction 1 as [|s l Hs _ IH]; simpl; [done|].
  by destruct s.
Qed.

Lemma consistent_new : consistent newProvider.
Proof.
  split; [by constructor|]. split; [|done]. intros ref ref' s Hc. done.
Qed.

Lemma consistent_start (now : Z) (p : Provider) (waiting : list nat) :
  consistent p -> fetching p = false ->
  consistent {| fetching := true; lastFetch := Some now;
                children := Some (length (promises p));
                promises := promises p ++ [Pending];
                awaiting := waiting; fired := fired p |}.
Proof.
  intros (HA & HB & HC) Hidle. split; [done|]. split; [|done]. simpl.
  intros ref ref' s [= <-] Hs Hne.
  apply lookup_app_Some in Hs as [Hs|[Hge Hs]].
  - by apply (proj1 (Forall_lookup _ _) (HA Hidle) ref' s).
  - apply list_lookup_singleton_Some in Hs as [Hz _]. lia.
Qed.

Lemma consistent_getChildren (element : option TreeItem) (now : Z) (p : Provider) :
  consistent p -> consistent (getChildren element now p).2.
Proof.
  intros Hp. unfold getChildren.
  assert (Hroot : consistent
            (match children p with
             | Some ref => (Promised ref, p)
             | None =>
                 (Promised (length (promises p)),
                  {| fetching := true; lastFetch := Some now;
                     children := Some (length (promises p));
                     promises := promises p ++ [Pending];
                     awaiting := awaiting p; fired := fired p |})
             end).2).
  { destruct (children p) eqn:Hc; [done|]. simpl.
    apply consistent_start; [done|]. by apply Hp. }
  destruct element as [[| |m]|]; done.
Qed.

Lemma consistent_refresh (now : Z) (p : Provider) : consistent p -> consistent (refresh now p).
Proof.
  intros Hp. destruct (fetching p) eqn:E.
  - by rewrite refresh_fetching.
  - rewrite refresh_idle by done. by apply consistent_start.
Qed.

(** In a consistent state the only promise that can be pending is the
    cached one, and then [fetching] is set. *)
Lemma pending_is_cached (p : Provider) (ref : nat) :
  consistent p -> promises p !! ref = Some Pending ->
  fetching p = true /\ children p = Some ref.
Proof.
  intros (HA & HB & HC) Hpending.
  assert (Hbusy : fetching p = true).
  { destruct (fetching p) eqn:E; [done|].
    by pose proof (proj1 (Forall_lookup _ _) (HA eq_refl) ref _ Hpending). }
  split; [done|].
  destruct (children p) as [cached|] eqn:Hc.
  - destruct (decide (ref = cached)) as [->|Hne]; [done|].
    by pose proof (HB cached ref _ eq_refl Hpending Hne).
  - rewrite HC in Hbusy; done.
Qed.

Lemma consistent_settle (ref : nat) (outcome : Result (list TreeItem)) (p : Provider) :
  consistent p -> consistent (settle ref outcome p).
Proof.
  intros Hp. unfold settle.
  destruct (promises p !! ref) as [[| |]|] eqn:Hlook; try done.
  destruct (pending_is_cached p ref Hp Hlook) as [Hbusy Hcached].
  destruct Hp as (HA & HB & HC).
  assert (Hothers : forall ref' s new,
            <[ref := new]> (promises p) !! ref' = Some s -> ref' <> ref -> isFulfilled s).
  { intros ref' s new Hs Hne. rewrite list_lookup_insert_ne in Hs by done.
    by eapply HB. }
  destruct outcome as [items|e]; (split; [|split]); simpl.
  - intros _. apply Forall_lookup. intros i s Hs.
    destruct (decide (i = ref)) as [->|Hne]; [|by eapply Hothers].
    rewrite list_lookup_insert_eq in Hs by (by eapply lookup_lt_Some).
    by injection Hs as <-.
  - intros c ref' s Hc Hs Hne. rewrite Hcached in Hc. injection Hc as <-.
    by eapply Hothers.
  - congruence.
  - congruence.
  - intros c ref' s Hc Hs Hne. rewrite Hcached in Hc. injection Hc as <-.
    by eapply Hothers.
  - congruence.
Qed.

Lemma consistent_step (p : Provider) (timed : Z * Event) :
  consistent p -> consistent (step p timed).
Proof.
  intros Hp. destruct timed as [now [element| | |ref outcome]]; simpl.
  - by apply consistent_getChildren.
  - by apply consistent_refresh.
  - unfold poll. destruct (isStale now p); [by apply consistent_refresh|done].
  - by apply consistent_settle.
Qed.

Lemma consistent_run (trace : list (Z * Event)) (p : Provider) :
  consistent p -> consistent (run trace p).
Proof.
  revert p. induction trace as [|e trace IH]; intros p Hp; simpl; [done|].
  by apply IH, consistent_step.
Qed.

Lemma reachable_consistent (p : Provider) : reachable p -> consistent p.
Proof. intros [trace ->]. apply consistent_run, consistent_new. Qed.

Lemma in_flight_fetching (p : Provider) :
  consistent p -> buildInFlight p = true -> fetching p = true.
Proof.
  intros Hp Hflight. destruct (fetching p) eqn:E; [done|].
  rewrite buildInFlight_false in Hflight; [done|]. by apply Hp.
Qed.

(** C7. In every reachable state in which a build is in progress the busy
    flag is set, and with the busy flag set [refresh] changes nothing: the
    cached promise stays, no build is started, no [refresh] is left waiting
    to fire a change notification. [refresh] starts a build only when no
    build is in flight. *)
Theorem refresh_while_fetching_is_noop (p : Provider) (now : Z) :
  reachable p ->
  (buildInFlight p = true -> fetching p = true) /\
  (fetching p = true ->
     refresh now p = p /\
     children (refresh now p) = children p /\
     buildsStarted (refresh now p) = buildsStarted p /\
     awaiting (refresh now p) = awaiting p /\
     fired (refresh now p) = fired p) /\
  (buildsStarted (refresh now p) <> buildsStarted p ->
     fetching p = false /\ buildInFlight p = false /\
     buildsStarted (refresh now p) = S (buildsStarted p)).
Proof.
  intros Hreach. apply reachable_consistent in Hreach as Hp.
  split; [by apply in_flight_fetching|]. split.
  - intros Hbusy. by rewrite refresh_fetching.
  - rewrite buildsStarted_refresh. destruct (fetching p) eqn:E; [done|].
    intros _. split; [done|]. split; [|done].
    apply buildInFlight_false. by apply Hp.
Qed.

(** *** The staleness check *)

Lemma isStale_cases (now : Z) (p : Provider) :
  isStale now p = true <->
  lastFetch p = None \/ lastFetch p = Some 0 \/
  exists t, lastFetch p = Some t /\ t + 30 * 60 * 1000 < now.
Proof.
  unfold isStale. destruct (lastFetch p) as [t|]; [|by split; [left|]].
  rewrite orb_true_iff, Z.eqb_eq, Z.ltb_lt. split.
  - intros [->|Hlt]; [by right; left|]. right; right. by exists t.
  - intros [?|[[= ->]|(t' & [= <-] & Hlt)]]; [done|by left|by right].
Qed.

Lemma poll_reruns (now : Z) (p : Provider) :
  buildsStarted (poll now p) = S (buildsStarted p) <->
  fetching p = false /\ isStale now p = true.
Proof.
  unfold poll. destruct (isStale now p).
  - rewrite buildsStarted_refresh. destruct (fetching p).
    + split; [lia|by intros [? _]].
    + done.
  - split; [lia|by intros [_ ?]].
Qed.

Lemma poll_otherwise (now : Z) (p : Provider) :
  ~ (fetching p = false /\ isStale now p = true) -> poll now p = p.
Proof.
  unfold poll. intros Hnot. destruct (isStale now p); [|done].
  destruct (fetching p) eqn:E; [by apply refresh_fetching|]. by destruct Hnot.
Qed.

Lemma buildsStarted_settle (ref : nat) (outcome : Result (list TreeItem)) (p : Provider) :
  buildsStarted (settle ref outcome p) = buildsStarted p /\
  lastFetch (settle ref outcome p) = lastFetch p.
Proof.
  unfold settle, buildsStarted.
  destruct (promises p !! ref) as [[| |]|]; try done.
  destruct outcome; simpl; by rewrite length_insert.
Qed.

(** Every event either starts a build and stamps [lastFetch] with the
    current instant, or leaves both alone. *)
Lemma lastFetch_step (p : Provider) (now : Z) (e : Event) :
  lastFetch (step p (now, e)) =
    if (buildsStarted p <? buildsStarted (step p (now, e)))%nat
    then Some now else lastFetch p.
Proof.
  assert (Hsame : forall q : Provider,
            (buildsStarted q <? buildsStarted q)%nat = false)
    by (intros q; apply Nat.ltb_irrefl).
  assert (Hrefresh : lastFetch (refresh now p) =
            if (buildsStarted p <? buildsStarted (refresh now p))%nat
            then Some now else lastFetch p).
  { destruct (fetching p) eqn:E.
    - by rewrite refresh_fetching, Hsame.
    - rewrite refresh_idle by done. unfold buildsStarted. simpl.
      rewrite length_app. simpl.
      by rewrite (proj2 (Nat.ltb_lt _ _)) by lia. }
  destruct e as [element| | |ref outcome]; simpl.
  - unfold getChildren.
    assert (Hroot : forall c : Children * Provider,
              c = match children p with
                  | Some ref => (Promised ref, p)
                  | None =>
                      (Promised (length (promises p)),
                       {| fetching := true; lastFetch := Some now;
                          children := Some (length (promises p));
                          promises := promises p ++ [Pending];
                          awaiting := awaiting p; fired := fired p |})
                  end ->
              lastFetch c.2 =
                if (buildsStarted p <? buildsStarted c.2)%nat
                then Some now else lastFetch p).
    { intros c ->. destruct (children p); simpl; [by rewrite Hsame|].
      unfold buildsStarted. simpl. rewrite length_app. simpl.
      by rewrite (proj2 (Nat.ltb_lt _ _)) by lia. }
    destruct element as [[| |m]|]; simpl; try (by apply Hroot).
    by rewrite Hsame.
  - exact Hrefresh.
  - unfold poll. destruct (isStale now p); [exact Hrefresh|by rewrite Hsame].
  - destruct (buildsStarted_settle ref outcome p) as [-> ->]. by rewrite Hsame.
Qed.

Lemma lastFetch_run (trace : list (Z * Event)) (p : Provider) :
  lastFetch (run trace p) = lastStartedFrom p trace (lastFetch p).
Proof.
  revert p. induction trace as [|[now e] trace IH]; intros p; [done|].
  change (run ((now, e) :: trace) p) with (run trace (step p (now, e))).
  cbn [lastStartedFrom]. by rewrite IH, lastFetch_step.
Qed.

Lemma buildsStarted_step (p : Provider) (timed : Z * Event) :
  (buildsStarted p <= buildsStarted (step p timed))%nat.
Proof.
  destruct timed as [now [element| | |ref outcome]]; simpl.
  - unfold getChildren.
    destruct element as [[| |m]|]; simpl; try done;
      destruct (children p); unfold buildsStarted; simpl; try done;
      rewrite length_app; lia.
  - rewrite buildsStarted_refresh. destruct (fetching p); lia.
  - unfold poll. destruct (isStale now p); [|done].
    rewrite buildsStarted_refresh. destruct (fetching p); lia.
  - by destruct (buildsStarted_settle ref outcome p) as [-> _].
Qed.

(** [lastFetch] is unset exactly as long as no build has been started. *)
Lemma lastFetch_none_run (trace : list (Z * Event)) (p : Provider) :
  (lastFetch p = None <-> buildsStarted p = 0%nat) ->
  (lastFetch (run trace p) = None <-> buildsStarted (run trace p) = 0%nat).
Proof.
  revert p. induction trace as [|[now e] trace IH]; intros p Hp; [done|].
  change (run ((now, e) :: trace) p) with (run trace (step p (now, e))).
  apply IH. rewrite lastFetch_step.
  pose proof (buildsStarted_step p (now, e)) as Hle.
  destruct (buildsStarted p <? buildsStarted (step p (now, e)))%nat eqn:E.
  - apply Nat.ltb_lt in E. split; [done|lia].
  - apply Nat.ltb_ge in E. rewrite Hp. lia.
Qed.

(** C8 (amended). A staleness check re-runs the pipeline if and only if no
    build is in flight or has failed (the busy flag is clear) and either no
    build was ever started (or the start was recorded as instant 0) or more
    than 30 minutes have passed since the latest build was started;
    otherwise it changes nothing of the provider. *)
Theorem poll_reruns_when_idle_and_stale (trace : list (Z * Event)) (now : Z) :
  let p := run trace newProvider in
  (buildsStarted (poll now p) = S (buildsStarted p) <->
     fetching p = false /\
     (lastStarted trace = None \/ lastStarted trace = Some 0 \/
      exists t, lastStarted trace = Some t /\ t + 30 * 60 * 1000 < now)) /\
  (buildsStarted (poll now p) <> S (buildsStarted p) -> poll now p = p) /\
  lastFetch p = lastStarted trace /\
  (lastStarted trace = None <-> buildsStarted p = 0%nat).
Proof.
  intros p.
  assert (Hlast : lastFetch p = lastStarted trace) by apply lastFetch_run.
  split; [|split; [|split]].
  - rewrite poll_reruns, isStale_cases, Hlast. done.
  - intros Hnot. apply poll_otherwise. by rewrite <- poll_reruns.
  - exact Hlast.
  - rewrite <- Hlast. by apply lastFetch_none_run.
Qed.

(** C8 as stated fails in both directions. After a build that started at
    1000 ms and completed at 1000000 ms, a check at 1900000 ms comes 15
    minutes after the completion and starts a second build. After a refresh
    whose build hangs, a check more than 30 minutes after the last completed
    build starts nothing. *)
Lemma poll_measures_from_build_start :
  lastCompleted slowBuild = Some 1000000 /\
  1900000 - 1000000 <= 30 * 60 * 1000 /\
  buildsStarted (run slowBuild newProvider) = 1%nat /\
  buildsStarted (poll 1900000 (run slowBuild newProvider)) = 2%nat /\
  lastCompleted hungRefresh = Some 2000 /\
  2000 + 30 * 60 * 1000 < 2000000 /\
  poll 2000000 (run hungRefresh newProvider) = run hungRefresh newProvider.
Proof. repeat split; try reflexivity; lia. Qed.

(** *** After a failed build *)

Lemma not_in_flight_no_pending (p : Provider) (ref : nat) :
  buildInFlight p = false -> promises p !! ref <> Some Pending.
Proof.
  unfold buildInFlight. intros Hnone Hlook.
  assert (existsb (fun s => match s with Pending => true | _ => false end) (promises p)
          = true); [|congruence].
  apply existsb_exists. exists Pending. split; [|done].
  apply list_elem_of_In. by eapply list_elem_of_lookup_2.
Qed.

Lemma blocked_step (p : Provider) (timed : Z * Event) : blocked p -> step p timed = p.
Proof.
  intros (Hbusy & [cached Hcached] & Hnone).
  destruct timed as [now [element| | |ref outcome]]; simpl.
  - unfold getChildren. rewrite Hcached. by destruct element as [[| |m]|].
  - by apply refresh_fetching.
  - unfold poll. destruct (isStale now p); [by apply refresh_fetching|done].
  - unfold settle. pose proof (not_in_flight_no_pending p ref Hnone) as Hnot.
    by destruct (promises p !! ref) as [[| |]|].
Qed.

Lemma blocked_run (trace : list (Z * Event)) (p : Provider) : blocked p -> run trace p = p.
Proof.
  intros Hp. induction trace as [|e trace IH]; [done|].
  change (run (e :: trace) p) with (run trace (step p e)).
  by rewrite blocked_step.
Qed.

Lemma settle_rejected (p : Provider) (ref : nat) (e : Error) :
  consistent p -> promises p !! ref = Some Pending ->
  let p' := settle ref (Err e) p in
  fetching p' = true /\ children p' = Some ref /\
  promises p' !! ref = Some (Rejected e) /\ blocked p'.
Proof.
  intros Hp Hpending p'.
  destruct (pending_is_cached p ref Hp Hpending) as [Hbusy Hcached].
  assert (Hp' : p' = {| fetching := fetching p; lastFetch := lastFetch p;
                        children := children p;
                        promises := <[ref := Rejected e]> (promises p);
                        awaiting := List.filter (fun r => negb (Nat.eqb ref r)) (awaiting p);
                        fired := fired p |}).
  { subst p'. unfold settle. by rewrite Hpending. }
  assert (Hrejected : promises p' !! ref = Some (Rejected e)).
  { rewrite Hp'. simpl. apply list_lookup_insert_eq. by eapply lookup_lt_Some. }
  rewrite Hp' in *. simpl in *.
  split; [done|]. split; [done|]. split; [done|].
  split; [done|]. split; [by rewrite Hcached|].
  unfold buildInFlight. simpl.
  destruct (existsb _ _) eqn:Hex; [|done].
  apply existsb_exists in Hex as (s & Hin & Hs).
  apply list_elem_of_In, list_elem_of_lookup in Hin as [i Hi].
  destruct (decide (i = ref)) as [->|Hne].
  - rewrite Hrejected in Hi. by injection Hi as <-.
  - rewrite list_lookup_insert_ne in Hi by done.
    destruct Hp as (_ & HB & _).
    pose proof (HB ref i s Hcached Hi Hne). by destruct s.
Qed.

(** The remote loop lets no 404-class error out. *)
Lemma remoteLoop_error `{Runtime} `{GitHubClient World} (remotes : list GitRemote)
    (issues : list Issue) (errors : list TreeItem) (w w' : World) (e : Error) :
  remoteLoop remotes issues errors w = (Err e, w') -> isNotFound e = false.
Proof.
  revert issues errors w.
  induction remotes as [|remote rest IH]; intros issues errors w; simpl; [done|].
  destruct (tryRemote remote issues w) as [[[err|] issues'] w1]; [|apply IH].
  destruct (isNotFound err) eqn:E; [apply IH|]. by intros [= <- _].
Qed.

Lemma fetchChildren_error `{Runtime} `{GitHubClient World} (ws : Workspace)
    (w w' : World) (e : Error) :
  fetchChildren ws w = (Err e, w') -> isNotFound e = false.
Proof.
  unfold fetchChildren.
  destruct (negb (truthy (rootPath ws))); [done|].
  destruct (getGitHubRemotes ws) as [[|remote rest]|]; try done.
  destruct (fetchIssues (remote :: rest) w) as [[[issues errors]|err] w1] eqn:Hfetch.
  - intros [= Htree _]. unfold buildTree in Htree.
    destruct issues as [|i issues]; [done|].
    rewrite groupIssues_result in Htree.
    destruct (existsb _ _); [|done]. by injection Htree as <-.
  - intros [= <- _]. by eapply remoteLoop_error.
Qed.

(** C10. When a build rejects (which [fetchChildren] only does with an
    error that is not 404-class) the busy flag stays set, the rejected
    promise stays cached, and from then on the provider never changes:
    every refresh and every staleness check is a no-op and no build is
    started again. *)
Theorem rejected_build_blocks_provider (p : Provider) (ref : nat) (e : Error) :
  reachable p -> promises p !! ref = Some Pending ->
  let p' := settle ref (Err e) p in
  fetching p' = true /\ children p' = Some ref /\
  promises p' !! ref = Some (Rejected e) /\
  (forall now, refresh now p' = p' /\ poll now p' = p') /\
  (forall trace, run trace p' = p' /\
     fetching (run trace p') = true /\
     buildsStarted (run trace p') = buildsStarted p) /\
  (forall (rt : Runtime) `(client : GitHubClient World) (ws : Workspace)
          (w w' : World) (err : Error),
     fetchChildren ws w = (Err err, w') -> isNotFound err = false).
Proof.
  intros Hreach Hpending p'.
  apply reachable_consistent in Hreach as Hp.
  destruct (settle_rejected p ref e Hp Hpending) as (Hbusy & Hcached & Hrej & Hblocked).
  fold p' in Hbusy, Hcached, Hrej, Hblocked.
  split; [done|]. split; [done|]. split; [done|]. split; [|split].
  - intros now. split.
    + apply (blocked_step p' (now, CallRefresh) Hblocked).
    + apply (blocked_step p' (now, CallPoll) Hblocked).
  - intros trace. rewrite blocked_run by done. split; [done|]. split; [done|].
    subst p'. by destruct (buildsStarted_settle ref (Err e) p) as [-> _].
  - intros rt World client ws w w' err. apply fetchChildren_error.
Qed.

(** ** The properties at the sample inputs *)

Lemma codeUnit_total (a b : string) :
  @localeCompare codeUnitRuntime a b <= 0 \/ @localeCompare codeUnitRuntime b a <= 0.
Proof.
  simpl. destruct (OrdersEx.String_as_OT.compare_spec a b) as [Heq|Hlt|Hgt].
  - left. simpl. lia.
  - left. simpl. lia.
  - right. unfold OrdersEx.String_as_OT.lt in Hgt. rewrite Hgt. simpl. lia.
Defined.

Lemma codeUnit_trans (a b c : string) :
  @localeCompare codeUnitRuntime a b <= 0 -> @localeCompare codeUnitRuntime b c <= 0 ->
  @localeCompare codeUnitRuntime a c <= 0.
Proof.
  simpl.
  destruct (OrdersEx.String_as_OT.compare_spec a b) as [->|Hab|Hba]; simpl; [done| |lia].
  destruct (OrdersEx.String_as_OT.compare_spec b c) as [<-|Hbc|Hcb]; simpl; [|  |lia].
  - intros _ _. unfold OrdersEx.String_as_OT.lt in Hab. rewrite Hab. simpl. lia.
  - intros _ _.
    assert (Hac : OrdersEx.String_as_OT.lt a c) by (by etransitivity).
    unfold OrdersEx.String_as_OT.lt in Hac. rewrite Hac. simpl. lia.
Defined.

Lemma currentMilestones_selects_witness :
  (length [milestoneA; milestoneB; milestoneC] <= 10)%nat /\
  @currentMilestones codeUnitRuntime [milestoneA; milestoneB; milestoneC] = ["C"; "A"] /\
  @currentMilestones codeUnitRuntime [undatedZ; undatedA] = ["A"; "Z"].
Proof.
  assert (Hlen : (length [milestoneA; milestoneB; milestoneC] <= 10)%nat) by (simpl; lia).
  split; [exact Hlen|].
  assert (Hdates : @dateTime codeUnitRuntime "2024-01-01" < @dateTime codeUnitRuntime "2024-03-01")
    by (vm_compute; reflexivity).
  assert (HAZ : 0 < @localeCompare codeUnitRuntime "Z" "A") by (vm_compute; reflexivity).
  destruct (currentMilestones_selects codeUnit_total codeUnit_trans Hdates HAZ
              [milestoneA; milestoneB; milestoneC] Hlen)
    as (_ & _ & _ & _ & _ & _ & Hdated & Hundated).
  split; [exact Hdated|exact Hundated].
Defined.

Lemma single_no_milestone_group_is_flattened_witness :
  looseIssues <> [] /\ buildTree looseIssues [] = Ok (map IssueNode looseIssues).
Proof.
  assert (Hne : looseIssues <> []) by discriminate.
  split; [exact Hne|].
  destruct (single_no_milestone_group_is_flattened looseIssues [] Hne) as (_ & Hall & _).
  apply Hall. repeat constructor.
Defined.


Lemma refresh_while_fetching_is_noop_witness :
  reachable (run firstBuild newProvider) /\
  buildInFlight (run firstBuild newProvider) = true /\
  refresh 5000 (run firstBuild newProvider) = run firstBuild newProvider.
Proof.
  assert (Hreach : reachable (run firstBuild newProvider)) by (by exists firstBuild).
  split; [exact Hreach|]. split; [reflexivity|].
  destruct (refresh_while_fetching_is_noop (run firstBuild newProvider) 5000 Hreach)
    as (Hbusy & Hnoop & _).
  apply Hnoop, Hbusy. reflexivity.
Defined.

Lemma rejected_build_blocks_provider_witness :
  reachable (run firstBuild newProvider) /\
  promises (run firstBuild newProvider) !! 0%nat = Some Pending /\
  forall trace,
    run trace (settle 0 (Err (HttpError 500)) (run firstBuild newProvider)) =
      settle 0 (Err (HttpError 500)) (run firstBuild newProvider).
Proof.
  assert (Hreach : reachable (run firstBuild newProvider)) by (by exists firstBuild).
  split; [exact Hreach|]. split; [reflexivity|].
  intros trace.
  destruct (rejected_build_blocks_provider (run firstBuild newProvider) 0 (HttpError 500)
              Hreach eq_refl) as (_ & _ & _ & _ & Hrun & _).
  apply Hrun.
Defined.

(** * Further properties *)

(** ** The tree and the issues it shows *)

Lemma flat_map_pick (keys : list string) (k : string) (issue : Issue) :
  NoDup keys -> k ∈ keys ->
  flat_map (fun k' => if String.eqb k k' then [issue] else []) keys = [issue].
Proof.
  induction 1 as [|k0 keys Hk0 Hnd IH]; intros Hin; [by apply elem_of_nil in Hin|].
  simpl. destruct (String.eqb_spec k k0) as [->|Hne].
  - simpl. f_equal.
    clear IH Hin. induction keys as [|k1 keys IHk]; [done|]. simpl.
    destruct (String.eqb_spec k0 k1) as [->|_].
    + exfalso. apply Hk0. by left.
    + apply IHk.
      * intros Hin. apply Hk0. by right.
      * by apply NoDup_cons in Hnd as [_ ?].
  - simpl. apply IH. by apply elem_of_cons in Hin as [?|?].
Qed.

Lemma flat_map_app_perm {A B : Type} (f g : A -> list B) (l : list A) :
  Permutation (flat_map (fun x => f x ++ g x) l) (flat_map f l ++ flat_map g l).
Proof.
  induction l as [|x l IH]; simpl; [done|].
  rewrite IH. rewrite <- !app_assoc. apply Permutation_app_head.
  rewrite !app_assoc. apply Permutation_app_tail. apply Permutation_app_comm.
Qed.

(** Splitting a list by key loses and repeats nothing. *)
Lemma partition_by_key (issues : list Issue) (keys : list string) :
  NoDup keys -> (forall i, In i issues -> groupKey i ∈ keys) ->
  Permutation
    (flat_map (fun k => List.filter (fun i => String.eqb (groupKey i) k) issues) keys)
    issues.
Proof.
  intros Hnd. induction issues as [|issue issues IH]; intros Hcover.
  - clear. induction keys as [|k keys IHk]; [done|]. exact IHk.
  - simpl.
    rewrite (flat_map_ext _
               (fun k => (if String.eqb (groupKey issue) k then [issue] else []) ++
                         List.filter (fun i => String.eqb (groupKey i) k) issues)).
    + rewrite flat_map_app_perm, flat_map_pick; [|done|apply Hcover; by left].
      simpl. constructor. apply IH. intros i Hi. apply Hcover. by right.
    + intros k. by destruct (String.eqb (groupKey issue) k).
Qed.

Lemma groupsOf_partition (issues : list Issue) :
  Permutation (flat_map milestone_issues (groupsOf issues)) issues.
Proof.
  unfold groupsOf. rewrite flat_map_concat_map, map_map, <- flat_map_concat_map. simpl.
  apply partition_by_key; [apply NoDup_newSet|].
  intros i Hi. apply elem_of_newSet, list_elem_of_In. by apply in_map.
Qed.

Lemma groupsOf_nonempty_groups (issues : list Issue) (m : Milestone) :
  In m (groupsOf issues) -> milestone_issues m <> [].
Proof.
  unfold groupsOf. intros Hm. apply in_map_iff in Hm as (k & <- & Hk).
  apply list_elem_of_In, elem_of_newSet, list_elem_of_In, in_map_iff in Hk
    as (i & <- & Hi).
  simpl. intros Hnil.
  assert (Hin : In i (List.filter (fun i' => String.eqb (groupKey i') (groupKey i)) issues)).
  { apply List.filter_In. split; [done|]. apply String.eqb_refl. }
  rewrite Hnil in Hin. done.
Qed.

Lemma groupsOf_distinct_labels (issues : list Issue) :
  NoDup (map milestone_label (groupsOf issues)).
Proof.
  unfold groupsOf. rewrite map_map. simpl. rewrite map_id. apply NoDup_newSet.
Qed.

Lemma shownIssues_rootItems (milestones : list Milestone) :
  shownIssues (rootItems milestones) = flat_map milestone_issues milestones.
Proof.
  unfold rootItems, shownIssues. destruct (onlyNoMilestone milestones) eqn:E.
  - destruct milestones as [|m [|m' rest]]; try done. simpl.
    rewrite app_nil_r. induction (milestone_issues m) as [|i l IH]; [done|].
    simpl. by rewrite IH.
  - induction milestones as [|m rest IH] in |- *; [done|]. simpl. f_equal. apply IH.
Qed.

Lemma buildTree_groups (issues : list Issue) (errors items : list TreeItem) :
  issues <> [] -> buildTree issues errors = Ok items ->
  groupIssues issues = Ok (groupsOf issues) /\ items = rootItems (groupsOf issues).
Proof.
  intros Hne Htree. rewrite buildTree_nonempty in Htree by done.
  rewrite groupIssues_result in *. destruct (existsb _ issues); [done|].
  by injection Htree as <-.
Qed.

(** X1. The tree shows every aggregated issue exactly once: the issues under
    the root nodes are a rearrangement of the aggregated list, a flattened
    tree lists them in aggregation order, and the children the host gets
    for a milestone node are its issues, at no cost to the provider. *)
Theorem tree_shows_each_issue_once (issues : list Issue) (errors items : list TreeItem) :
  issues <> [] -> buildTree issues errors = Ok items ->
  Permutation (shownIssues items) issues /\
  (Forall (fun node => isIssueNode node = true) items -> items = map IssueNode issues) /\
  (forall m now p, In (MilestoneNode m) items ->
     getChildren (Some (MilestoneNode m)) now p =
       (Resolved (map IssueNode (milestone_issues m)), p) /\
     milestone_issues m <> [] /\
     forall i, In i (milestone_issues m) -> In i issues /\ groupKey i = milestone_label m).
Proof.
  intros Hne Htree.
  destruct (buildTree_groups issues errors items Hne Htree) as [_ ->].
  split; [rewrite shownIssues_rootItems; apply groupsOf_partition|]. split.
  - intros Hleaves. unfold rootItems in *.
    destruct (onlyNoMilestone (groupsOf issues)) eqn:E.
    + destruct (groupsOf issues) as [|m [|m' rest]] eqn:Hg; try done.
      pose proof (groupsOf_partition issues) as Hperm. rewrite Hg in Hperm.
      simpl in Hperm. rewrite app_nil_r in Hperm.
      assert (Hm : In m (groupsOf issues)) by (rewrite Hg; by left).
      destruct (groupsOf_children issues m Hm) as [Hfilter _].
      f_equal. rewrite Hfilter.
      assert (Hlen : length (List.filter
                (fun i => String.eqb (groupKey i) (milestone_label m)) issues)
              = length issues).
      { rewrite <- Hfilter. by apply Permutation_length. }
      clear -Hlen. induction issues as [|i issues IH]; [done|]. simpl in *.
      pose proof (List.filter_length_le
                    (fun i => String.eqb (groupKey i) (milestone_label m)) issues).
      destruct (String.eqb (groupKey i) (milestone_label m)); simpl in *; [|lia].
      f_equal. apply IH. lia.
    + destruct (groupsOf issues) as [|m rest] eqn:Hg.
      * pose proof (groupsOf_partition issues) as Hperm. rewrite Hg in Hperm.
        apply Permutation_nil in Hperm. by destruct issues.
      * simpl in Hleaves. by apply Forall_cons in Hleaves as [? _].
  - intros m now p Hin. split; [done|].
    assert (Hm : In m (groupsOf issues)).
    { unfold rootItems in Hin. destruct (onlyNoMilestone (groupsOf issues)).
      - destruct (groupsOf issues) as [|m0 rest]; [done|].
        apply in_map_iff in Hin as (i & Hi & _). done.
      - apply in_map_iff in Hin as (m' & [= ->] & Hm'). done. }
    split; [by eapply groupsOf_nonempty_groups|].
    by apply groupsOf_children.
Qed.

Lemma tree_shows_each_issue_once_witness :
  looseIssues ++ [widgetLeaf] <> [] /\
  buildTree (looseIssues ++ [widgetLeaf]) [] =
    Ok (map MilestoneNode (groupsOf (looseIssues ++ [widgetLeaf]))) /\
  Permutation
    (shownIssues (map MilestoneNode (groupsOf (looseIssues ++ [widgetLeaf]))))
    (looseIssues ++ [widgetLeaf]).
Proof.
  assert (Hne : looseIssues ++ [widgetLeaf] <> []) by discriminate.
  assert (Htree : buildTree (looseIssues ++ [widgetLeaf]) [] =
                  Ok (map MilestoneNode (groupsOf (looseIssues ++ [widgetLeaf]))))
    by reflexivity.
  split; [exact Hne|]. split; [exact Htree|].
  apply (tree_shows_each_issue_once _ [] _ Hne Htree).
Defined.

(** X2. Milestone nodes carry pairwise distinct labels, none is empty, they come
    in the order their labels are first seen, and a tree of milestone nodes
    is never the lone "No Milestone" group. *)
Theorem milestone_nodes_distinct_and_nonempty (issues : list Issue)
    (errors items : list TreeItem) :
  issues <> [] -> buildTree issues errors = Ok items ->
  Forall (fun node => isMilestoneNode node = true) items ->
  exists milestones,
    items = map MilestoneNode milestones /\
    NoDup (map milestone_label milestones) /\
    map milestone_label milestones = firstOccurrences [] (map groupKey issues) /\
    Forall (fun m => milestone_issues m <> []) milestones /\
    map milestone_label milestones <> ["No Milestone"].
Proof.
  intros Hne Htree Hgroups.
  destruct (buildTree_groups issues errors items Hne Htree) as [_ ->].
  exists (groupsOf issues). unfold rootItems in *.
  destruct (onlyNoMilestone (groupsOf issues)) eqn:E.
  - exfalso. destruct (groupsOf issues) as [|m [|m' rest]] eqn:Hg; try done.
    assert (Hm : In m (groupsOf issues)) by (rewrite Hg; by left).
    pose proof (groupsOf_nonempty_groups issues m Hm) as Hnil.
    destruct (milestone_issues m); [done|]. simpl in Hgroups.
    by apply Forall_cons in Hgroups as [? _].
  - split; [done|]. split; [apply groupsOf_distinct_labels|].
    split; [apply groupsOf_labels|]. split.
    + apply Forall_forall. intros m Hm.
      by apply (groupsOf_nonempty_groups issues), list_elem_of_In.
    + intros Hlabels. unfold onlyNoMilestone in E.
      destruct (groupsOf issues) as [|m [|m' rest]]; try done.
      simpl in *. injection Hlabels as Hlabel. rewrite Hlabel in E. done.
Qed.

(** ** What the aggregation hands to the tree builder *)

Section AggregatorShape.
Context `{Runtime} `{GitHubClient World}.

Lemma passResults_built (remote : GitRemote) (milestones : list (option string)) (w : World) :
  Forall builtFromItem (passResults remote milestones w).1.2.
Proof.
  revert w. induction milestones as [|m rest IH]; intros w; simpl; [constructor|].
  destruct (searchIssues (searchParams remote m) w) as [[items|e] w']; [|constructor].
  specialize (IH w'). destruct (passResults remote rest w') as [[e found] w'']. simpl in *.
  apply Forall_app. split; [|done].
  apply Forall_forall. intros i Hi.
  apply list_elem_of_In, in_map_iff in Hi as (item & <- & _). reflexivity.
Qed.

Lemma remoteReport_built (remote : GitRemote) (w : World) :
  Forall builtFromItem (remoteReport remote w).1.2.
Proof.
  unfold remoteReport. destruct (getCurrentMilestones remote w) as [[titles|e] w'].
  - apply passResults_built.
  - constructor.
Qed.

(** Every aggregated issue is a leaf built from a search result, and the
    error list holds "Cannot access" messages of remotes of the list, at
    most one for each, in remote order. *)
Lemma fetchIssues_shape (remotes : list GitRemote) (w w' : World)
    (issues : list Issue) (errors : list TreeItem) :
  fetchIssues remotes w = (Ok (issues, errors), w') ->
  Forall builtFromItem issues /\ errors `sublist_of` map cannotAccess remotes.
Proof.
  revert w issues errors. induction remotes as [|remote rest IH]; intros w issues errors.
  - intros [= <- <- _]. split; [constructor|done].
  - rewrite fetchIssues_cons.
    pose proof (remoteReport_built remote w) as Hbuilt.
    destruct (remoteReport remote w) as [[[err|] found] w1]; simpl in Hbuilt.
    + destruct (isNotFound err); [|done].
      destruct (fetchIssues rest w1) as [[[issues1 errors1]|e] w2] eqn:Hrest; [|done].
      intros [= <- <- ->]. destruct (IH _ _ _ Hrest) as [Hi He].
      split; [by apply Forall_app|]. simpl. by apply sublist_skip.
    + destruct (fetchIssues rest w1) as [[[issues1 errors1]|e] w2] eqn:Hrest; [|done].
      intros [= <- <- ->]. destruct (IH _ _ _ Hrest) as [Hi He].
      split; [by apply Forall_app|]. simpl. by apply sublist_cons.
Qed.

End AggregatorShape.

(** ** The root list of [fetchChildren] *)

Lemma sublist_messages (errors : list TreeItem) (remotes : list GitRemote) :
  errors `sublist_of` map cannotAccess remotes ->
  Forall (fun node => isMessage node = true) errors /\ shownIssues errors = [].
Proof.
  intros Hsub.
  assert (Hall : Forall (fun node => isMessage node = true) errors).
  { apply Forall_forall. intros node Hnode.
    apply (elem_of_sublist _ _ _ Hnode) in Hsub. rename Hsub into Hin. clear Hnode.
    rename Hin into Hnode.
    apply list_elem_of_In, in_map_iff in Hnode as (r & <- & _). done. }
  split; [done|]. clear Hsub.
  induction Hall as [|node l Hnode _ IH]; [done|].
  by destruct node.
Qed.

Lemma rootItems_groupsOf_shape (issues : list Issue) :
  issues <> [] ->
  rootItems (groupsOf issues) <> [] /\
  (Forall (fun node => isIssueNode node = true) (rootItems (groupsOf issues)) \/
   Forall (fun node => isMilestoneNode node = true) (rootItems (groupsOf issues))).
Proof.
  intros Hne.
  assert (Hgroups : groupsOf issues <> []).
  { intros Hnil. pose proof (groupsOf_partition issues) as Hperm.
    rewrite Hnil in Hperm. apply Permutation_nil in Hperm. done. }
  unfold rootItems. destruct (onlyNoMilestone (groupsOf issues)) eqn:E.
  - destruct (groupsOf issues) as [|m rest] eqn:Hg; [done|].
    assert (Hm : In m (groupsOf issues)) by (rewrite Hg; by left).
    pose proof (groupsOf_nonempty_groups issues m Hm) as Hnil.
    split; [by destruct (milestone_issues m)|].
    left. apply Forall_forall. intros node Hnode.
    apply list_elem_of_In, in_map_iff in Hnode as (i & <- & _). done.
  - split; [by destruct (groupsOf issues)|].
    right. apply Forall_forall. intros node Hnode.
    apply list_elem_of_In, in_map_iff in Hnode as (m & <- & _). done.
Qed.

Section RootList.
Context `{Runtime} `{GitHubClient World}.

Lemma fetchChildren_cases (ws : Workspace) (w w' : World) (items : list TreeItem) :
  fetchChildren ws w = (Ok items, w') ->
  (exists label, items = [Message label] /\ w' = w /\
     (truthy (rootPath ws) = false \/ getGitHubRemotes ws = None \/
      getGitHubRemotes ws = Some [])) \/
  (exists remotes issues errors,
     truthy (rootPath ws) = true /\ getGitHubRemotes ws = Some remotes /\ remotes <> [] /\
     fetchIssues remotes w = (Ok (issues, errors), w') /\
     buildTree issues errors = Ok items).
Proof.
  unfold fetchChildren. destruct (truthy (rootPath ws)) eqn:Hroot; simpl.
  - destruct (getGitHubRemotes ws) as [[|remote rest]|] eqn:Hremotes.
    + intros [= <- <-]. left. eexists. split; [done|]. split; [done|]. by right; right.
    + destruct (fetchIssues (remote :: rest) w) as [[[issues errors]|e] w1] eqn:Hfetch;
        [|done].
      intros [= Htree <-]. right. exists (remote :: rest), issues, errors. done.
    + intros [= <- <-]. left. eexists. split; [done|]. split; [done|]. by right; left.
  - intros [= <- <-]. left. eexists. split; [done|]. split; [done|]. by left.
Qed.

(** X3. Whenever [fetchChildren] fulfils, the root list is not empty and is of
    one kind: messages only, issue leaves only, or milestone nodes only.
    Messages appear only when no issue was found; without an open folder,
    when git fails, or when no GitHub remote resolves, the GitHub client is
    not called at all. *)
Theorem root_list_of_one_kind (ws : Workspace) (w w' : World) (items : list TreeItem) :
  fetchChildren ws w = (Ok items, w') ->
  items <> [] /\
  (Forall (fun node => isMessage node = true) items /\ shownIssues items = [] \/
   Forall (fun node => isIssueNode node = true) items \/
   Forall (fun node => isMilestoneNode node = true) items) /\
  (truthy (rootPath ws) = false \/ getGitHubRemotes ws = None \/
   getGitHubRemotes ws = Some [] ->
   w' = w /\ exists label, items = [Message label]).
Proof.
  intros Hfetch. destruct (fetchChildren_cases ws w w' items Hfetch)
    as [(label & -> & -> & Hwhy)|(remotes & issues & errors & Hroot & Hrem & Hne & Hagg & Htree)].
  - split; [done|]. split; [left; split; [by repeat constructor|done]|].
    intros _. split; [done|by exists label].
  - destruct (fetchIssues_shape remotes w w' issues errors Hagg) as [_ Hsub].
    destruct (sublist_messages errors remotes Hsub) as [Hmsgs Hnone].
    split; [|split].
    + destruct issues as [|i issues].
      * injection Htree as <-. by destruct errors.
      * destruct (buildTree_groups (i :: issues) errors items) as [_ ->]; try done.
        by apply rootItems_groupsOf_shape.
    + destruct issues as [|i issues].
      * injection Htree as <-. left. destruct errors; [|done].
        split; [by repeat constructor|done].
      * destruct (buildTree_groups (i :: issues) errors items) as [_ ->]; try done.
        right. by apply rootItems_groupsOf_shape.
    + intros [Hno|[Hno|Hno]]; [congruence|congruence|].
      rewrite Hrem in Hno. by injection Hno.
Qed.

(** X4. Every issue the tree shows was built from a search result: the text
    [copyText] copies is the title followed by the [copyNumber] text in
    parentheses, the markdown is a link from that number to the address
    [openIssue] opens, and the context value tells a pull request from an
    issue. *)
Theorem shown_leaves_built_from_items (ws : Workspace) (w w' : World)
    (items : list TreeItem) (issue : Issue) :
  fetchChildren ws w = (Ok items, w') -> In issue (shownIssues items) ->
  issue = newIssue (issue_item issue) /\
  copyText issue = item_title (issue_item issue) +:+ " (" +:+ copyNumber issue +:+ ")" /\
  copyMarkdown issue = "[" +:+ copyNumber issue +:+ "](" +:+ openIssue issue +:+ ")" /\
  (contextValue issue = "pull_request" <-> pull_request (issue_item issue) = true) /\
  (contextValue issue = "issue" <-> pull_request (issue_item issue) = false).
Proof.
  intros Hfetch Hin.
  assert (Hbuilt : builtFromItem issue).
  { destruct (fetchChildren_cases ws w w' items Hfetch)
      as [(label & -> & _)|(remotes & issues & errors & _ & _ & _ & Hagg & Htree)];
      [done|].
    destruct (fetchIssues_shape remotes w w' issues errors Hagg) as [Hall Hsub].
    destruct issues as [|i issues].
    - injection Htree as <-.
      destruct (sublist_messages errors remotes Hsub) as [_ Hnone].
      destruct errors; [done|]. by rewrite Hnone in Hin.
    - destruct (buildTree_groups (i :: issues) errors items) as [_ ->]; try done.
      rewrite shownIssues_rootItems in Hin.
      apply (Permutation_in _ (groupsOf_partition _)) in Hin.
      by apply (proj1 (List.Forall_forall _ _) Hall). }
  split; [exact Hbuilt|].
  unfold copyText, copyNumber, copyMarkdown, openIssue.
  unfold builtFromItem, newIssue in Hbuilt.
  destruct issue as [label item icon ctx]. simpl in *.
  injection Hbuilt as -> -> ->.
  split; [by rewrite !append_assoc|]. split; [by rewrite !append_assoc|].
  destruct (pull_request item); by split.
Qed.

End RootList.

(** ** Issue numbers on the clipboard *)

Lemma to_uint_nonnil (n : N) : N.to_uint n <> Decimal.Nil.
Proof. destruct n; [done|]. apply DecimalPos.Unsigned.to_uint_nonnil. Qed.

Lemma decimalDigits_inj (a b : N) : decimalDigits a = decimalDigits b -> a = b.
Proof.
  unfold decimalDigits. intros Heq.
  apply DecimalN.Unsigned.to_uint_inj.
  pose proof (NilZero.usu (N.to_uint a) (to_uint_nonnil a)) as Ha.
  pose proof (NilZero.usu (N.to_uint b) (to_uint_nonnil b)) as Hb.
  rewrite Heq in Ha. congruence.
Qed.

Lemma showNumber_safe (n : N) : isSafeInteger n = true -> showNumber n = decimalDigits n.
Proof. unfold showNumber. by intros ->. Qed.

(** Past the safe integers the number is rounded to a Number value before
    it is printed, so different numbers print alike, and from 10^21 on the
    text has an exponent. *)
Lemma large_numbers_are_rounded :
  copyNumber (issueOf "Far out" 9007199254740993 None) = "#9007199254740992" /\
  copyNumber (issueOf "Far out" 9007199254740992 None) = "#9007199254740992" /\
  copyNumber (issueOf "Far out" 1000000000000000000000 None) = "#1e+21".
Proof. repeat split; vm_compute; reflexivity. Qed.

(** X5. For issue numbers that are safe integers (up to 2^53 - 1, as every
    issue number of GitHub is), the text [copyNumber] copies determines the
    issue number, and reading it back as a decimal number after the hash
    sign gives that number. *)
Theorem copyNumber_determines_number (a b : Issue) :
  isSafeInteger (item_number (issue_item a)) = true ->
  isSafeInteger (item_number (issue_item b)) = true ->
  (copyNumber a = copyNumber b ->
   item_number (issue_item a) = item_number (issue_item b)) /\
  (exists digits, copyNumber a = String "#" digits /\
     option_map N.of_uint (NilZero.uint_of_string digits) =
       Some (item_number (issue_item a))).
Proof.
  intros Ha Hb. unfold copyNumber. rewrite !showNumber_safe by done. split.
  - intros Heq. apply decimalDigits_inj. by injection Heq.
  - exists (decimalDigits (item_number (issue_item a))). split; [done|].
    unfold decimalDigits. rewrite NilZero.usu by apply to_uint_nonnil. simpl.
    by rewrite DecimalN.Unsigned.of_to.
Qed.

(** ** More on the milestone selector *)

Lemma sorted_unique {A : Type} (R : A -> A -> Prop) (l1 l2 : list A) :
  StronglySorted R l1 -> StronglySorted R l2 -> Permutation l1 l2 ->
  (forall a b, In a l1 -> In b l1 -> R a b -> R b a -> a = b) ->
  l1 = l2.
Proof.
  intros Hs1. revert l2. induction Hs1 as [|a l1 Hs1 IH Ha]; intros l2 Hs2 Hperm Hanti.
  - by apply Permutation_nil in Hperm.
  - destruct l2 as [|b l2]; [by apply Permutation_sym, Permutation_nil in Hperm|].
    apply StronglySorted_inv in Hs2 as [Hs2 Hb].
    assert (Hab : a = b).
    { assert (Hain : In a (b :: l2)) by (apply (Permutation_in _ Hperm); by left).
      assert (Hbin : In b (a :: l1))
        by (apply (Permutation_in _ (Permutation_sym Hperm)); by left).
      destruct Hain as [->|Hain]; [done|]. destruct Hbin as [->|Hbin]; [done|].
      apply Hanti; [by left|by right| |].
      - by apply (proj1 (List.Forall_forall _ _) Ha).
      - by apply (proj1 (List.Forall_forall _ _) Hb). }
    subst b. f_equal. apply IH; [done|by eapply Permutation_cons_inv|].
    intros x y Hx Hy. apply Hanti; by right.
Qed.

Lemma NoDup_map_eq {A B : Type} (f : A -> B) (l : list A) (a b : A) :
  NoDup (map f l) -> In a l -> In b l -> f a = f b -> a = b.
Proof.
  induction l as [|x l IH]; [done|]. simpl. intros Hnd Ha Hb Hf.
  apply NoDup_cons in Hnd as [Hx Hnd].
  destruct Ha as [->|Ha], Hb as [->|Hb]; try done.
  - exfalso. apply Hx. rewrite Hf. by apply list_elem_of_In, in_map.
  - exfalso. apply Hx. rewrite <- Hf. by apply list_elem_of_In, in_map.
  - by apply IH.
Qed.

Section SelectorOrder.
Context `{Runtime}.
Hypothesis localeCompare_total :
  forall a b : string, localeCompare a b <= 0 \/ localeCompare b a <= 0.
Hypothesis localeCompare_trans :
  forall a b c : string,
    localeCompare a b <= 0 -> localeCompare b c <= 0 -> localeCompare a c <= 0.
(** Distinct titles never collate as equal. *)
Hypothesis localeCompare_antisym :
  forall a b : string, localeCompare a b <= 0 -> localeCompare b a <= 0 -> a = b.

Lemma milestoneOrder_same_title (a b : MilestoneData) :
  milestoneOrder a b -> milestoneOrder b a -> ms_title a = ms_title b.
Proof.
  unfold milestoneOrder.
  destruct (dueInstant (ms_due_on a)) as [x|], (dueInstant (ms_due_on b)) as [y|];
    try done.
  - intros [?|[? Hab]] [?|[? Hba]]; try lia. by apply localeCompare_antisym.
  - intros Hab Hba. by apply localeCompare_antisym.
Qed.

(** X6. The selection does not depend on the order in which the milestones were
    fetched, as long as their titles are pairwise distinct. *)
Theorem currentMilestones_order_independent (data data' : list MilestoneData) :
  Permutation data data' -> NoDup (map ms_title data) ->
  arraySort milestoneCompare data = arraySort milestoneCompare data' /\
  currentMilestones data = currentMilestones data'.
Proof.
  intros Hperm Hnd.
  assert (Hsame : arraySort milestoneCompare data = arraySort milestoneCompare data').
  { apply (sorted_unique milestoneOrder).
    - by apply sorted_milestones.
    - by apply sorted_milestones.
    - by rewrite !arraySort_perm.
    - intros a b Ha Hb Hab Hba.
      apply (Permutation_in _ (arraySort_perm milestoneCompare data)) in Ha, Hb.
      apply (NoDup_map_eq ms_title data); try done.
      by apply milestoneOrder_same_title. }
  split; [done|]. unfold currentMilestones. by rewrite Hsame.
Qed.

End SelectorOrder.

Section SelectorSize.
Context `{Runtime}.

Lemma currentMilestones_nil (data : list MilestoneData) :
  currentMilestones data = [] <-> data = [].
Proof.
  split; [|by intros ->].
  unfold currentMilestones. intros Hnil.
  pose proof (arraySort_perm milestoneCompare data) as Hperm.
  destruct (arraySort milestoneCompare data) as [|m0 l] eqn:E.
  - by apply Permutation_nil in Hperm.
  - exfalso. cbn [firstHasDueDate] in Hnil. destruct (hasDueDate m0) eqn:E0.
    + cbn [List.filter] in Hnil. rewrite E0 in Hnil. done.
    + done.
Qed.

Lemma milestonePasses_length (data : list MilestoneData) :
  (1 <= length (milestonePasses (currentMilestones data)) <= 2)%nat.
Proof.
  assert (Hlen : (length (currentMilestones data) <= 2)%nat).
  { unfold currentMilestones. rewrite length_map, length_take. lia. }
  unfold milestonePasses.
  destruct (currentMilestones data) as [|t rest]; [simpl; lia|].
  rewrite length_map. simpl in *. lia.
Qed.

End SelectorSize.

Section SearchPlan.
Context `{Runtime} `{GitHubClient World}.

(** X7. When the milestone listing of a remote throws, no search is made
    for it. When it succeeds, the search loop of the remote runs over one
    or two passes: the single pass without a milestone exactly when no
    milestone was fetched, otherwise one pass per selected title. The
    query of a pass is the query without a milestone, followed by the
    clause [milestone:"title"] exactly when the pass has a non-empty
    title. *)
Theorem one_or_two_passes (remote : GitRemote) (issues : list Issue) (w : World) :
  match getMilestones (owner remote) (repo remote) 10 w with
  | (Err e, w') => tryRemote remote issues w = (Some e, issues, w')
  | (Ok data, w') =>
      let passes := milestonePasses (currentMilestones data) in
      tryRemote remote issues w = milestoneLoop remote passes issues w' /\
      (1 <= length passes <= 2)%nat /\
      (passes = [None] <-> data = []) /\
      (data <> [] ->
       passes = map Some (currentMilestones data) /\ currentMilestones data <> []) /\
      forall pass, In pass passes ->
        searchQuery remote pass =
          searchQuery remote None +:+
          match pass with
          | Some title =>
              if truthyStr title
              then " milestone:" +:+ dquote +:+ title +:+ dquote
              else EmptyString
          | None => EmptyString
          end
  end.
Proof.
  unfold tryRemote, getCurrentMilestones.
  destruct (getMilestones (owner remote) (repo remote) 10 w) as [[data|e] w']; [|done].
  cbv zeta. split; [done|]. split; [apply milestonePasses_length|].
  pose proof (currentMilestones_nil data) as Hnil.
  unfold milestonePasses. split; [|split].
  - destruct (currentMilestones data) as [|t rest] eqn:E.
    + split; [intros _; by apply Hnil|done].
    + split; [done|]. intros Hd. by apply Hnil in Hd.
  - intros Hne. destruct (currentMilestones data) as [|t rest] eqn:E; [|done].
    by destruct Hne; apply Hnil.
  - intros pass _. unfold searchQuery.
    destruct pass as [title|]; [|by rewrite append_empty_r].
    destruct (truthyStr title); [|by rewrite append_empty_r].
    by rewrite !append_assoc.
Qed.

End SearchPlan.


(** ** How many requests the aggregation makes *)

Section RequestCount.
Context `{Runtime} `{client : GitHubClient World}.

Lemma milestoneLoop_counted (remote : GitRemote) (milestones : list (option string))
    (issues : list Issue) (w : World) (c : nat) :
  exists k, (k <= length milestones)%nat /\
    countsAs (@milestoneLoop _ (countingClient client) remote milestones issues (w, c))
             (milestoneLoop remote milestones issues w) c k.
Proof.
  revert issues w c. induction milestones as [|m rest IH]; intros issues w c.
  - exists 0%nat. split; [done|]. unfold countsAs. simpl. by rewrite Nat.add_0_r.
  - simpl. destruct (searchIssues (searchParams remote m) w) as [[items|e] w'] eqn:Hs.
    + destruct (IH (issues ++ map newIssue items) w' (S c)) as (k & Hk & Hrun).
      exists (S k). split; [lia|]. unfold countsAs in *. rewrite Hrun.
      by replace (S c + k)%nat with (c + S k)%nat by lia.
    + exists 1%nat. split; [lia|]. unfold countsAs. simpl.
      by replace (c + 1)%nat with (S c) by lia.
Qed.

Lemma tryRemote_counted (remote : GitRemote) (issues : list Issue) (w : World) (c : nat) :
  exists k, (1 <= k <= 3)%nat /\
    countsAs (@tryRemote _ _ (countingClient client) remote issues (w, c))
             (tryRemote remote issues w) c k.
Proof.
  unfold tryRemote, getCurrentMilestones. simpl.
  destruct (getMilestones (owner remote) (repo remote) 10 w) as [[data|e] w'] eqn:Hm.
  - destruct (milestoneLoop_counted remote (milestonePasses (currentMilestones data))
                issues w' (S c)) as (k & Hk & Hrun).
    pose proof (milestonePasses_length data) as Hlen.
    exists (S k). split; [lia|]. unfold countsAs in *. rewrite Hrun.
    by replace (S c + k)%nat with (c + S k)%nat by lia.
  - exists 1%nat. split; [lia|]. unfold countsAs. simpl.
    by replace (c + 1)%nat with (S c) by lia.
Qed.

Lemma remoteLoop_counted (remotes : list GitRemote) (issues : list Issue)
    (errors : list TreeItem) (w : World) (c : nat) :
  exists k, (k <= 3 * length remotes)%nat /\
    countsAs (@remoteLoop _ _ (countingClient client) remotes issues errors (w, c))
             (remoteLoop remotes issues errors w) c k.
Proof.
  revert issues errors w c.
  induction remotes as [|remote rest IH]; intros issues errors w c.
  - exists 0%nat. split; [simpl; lia|]. unfold countsAs. simpl. by rewrite Nat.add_0_r.
  - cbn [remoteLoop].
    destruct (tryRemote_counted remote issues w c) as (k1 & Hk1 & Hrun1).
    unfold countsAs in Hrun1. rewrite Hrun1.
    destruct (tryRemote remote issues w) as [[[err|] issues'] w'] eqn:Htry; simpl.
    + destruct (isNotFound err).
      * destruct (IH issues' (errors ++ [cannotAccess remote]) w' (c + k1)%nat)
          as (k & Hk & Hrun).
        exists (k1 + k)%nat. split; [simpl; lia|]. unfold countsAs in *. rewrite Hrun.
        by rewrite Nat.add_assoc.
      * exists k1. split; [simpl; lia|]. done.
    + destruct (IH issues' errors w' (c + k1)%nat) as (k & Hk & Hrun).
      exists (k1 + k)%nat. split; [simpl; lia|]. unfold countsAs in *. rewrite Hrun.
      by rewrite Nat.add_assoc.
Qed.

(** X8. The aggregation makes at most three requests per remote: one milestone
    listing and at most two searches. Counting them changes nothing else. *)
Theorem at_most_three_requests_per_remote (remotes : list GitRemote) (w : World) (c : nat) :
  exists k, (k <= 3 * length remotes)%nat /\
    @fetchIssues _ _ (countingClient client) remotes (w, c) =
      ((fetchIssues remotes w).1, ((fetchIssues remotes w).2, (c + k)%nat)).
Proof. apply remoteLoop_counted. Qed.

End RequestCount.

(** ** When no remote is accessible *)

Section AllInaccessible.
Context `{Runtime} `{GitHubClient World}.

(** Every milestone listing is refused with a 404-class error. *)
Hypothesis listing_refused :
  forall o r n w, exists e w', getMilestones o r n w = (Err e, w') /\ isNotFound e = true.

Lemma fetchIssues_all_refused (remotes : list GitRemote) (w : World) :
  exists w', fetchIssues remotes w = (Ok ([], map cannotAccess remotes), w').
Proof.
  revert w. induction remotes as [|remote rest IH]; intros w; [by exists w|].
  rewrite fetchIssues_cons. unfold remoteReport, getCurrentMilestones.
  destruct (listing_refused (owner remote) (repo remote) 10 w) as (e & w1 & -> & ->).
  destruct (IH w1) as (w' & ->). by exists w'.
Qed.

(** X9. When the listing of every remote is refused with a 404-class error, the
    view shows one "Cannot access" message per remote, in remote order, and
    nothing else. *)
Theorem all_remotes_inaccessible (ws : Workspace) (remotes : list GitRemote) (w : World) :
  truthy (rootPath ws) = true -> getGitHubRemotes ws = Some remotes -> remotes <> [] ->
  (fetchChildren ws w).1 = Ok (map cannotAccess remotes).
Proof.
  intros Hroot Hremotes Hne. unfold fetchChildren. rewrite Hroot, Hremotes. simpl.
  destruct remotes as [|remote rest]; [done|].
  destruct (fetchIssues_all_refused (remote :: rest) w) as (w' & ->). done.
Qed.

End AllInaccessible.

(** ** More on the provider *)

Lemma waitersOf_filter (ref : nat) (waiting : list nat) :
  (waitersOf ref waiting +
   length (List.filter (fun r => negb (Nat.eqb ref r)) waiting))%nat = length waiting.
Proof.
  unfold waitersOf. induction waiting as [|r waiting IH]; [done|]. simpl.
  destruct (Nat.eqb ref r); simpl; lia.
Qed.

Lemma orderly_new : orderly newProvider.
Proof. split; [done|]. split; [done|]. split; [simpl; lia|]. split; [simpl; lia|done]. Qed.

Lemma orderly_start (now : Z) (p : Provider) (extra : list nat) :
  orderly p -> fetching p = false -> consistent p ->
  extra = [] \/ extra = [length (promises p)] ->
  orderly {| fetching := true; lastFetch := Some now;
             children := Some (length (promises p));
             promises := promises p ++ [Pending];
             awaiting := awaiting p ++ extra; fired := fired p |}.
Proof.
  intros (Hcache & Hwait & Hfired & _ & _) Hidle (HA & _ & _) Hextra.
  assert (Hnone : awaiting p = []).
  { destruct (awaiting p) as [|r rest] eqn:E; [done|].
    assert (Hr : promises p !! r = Some Pending) by (apply Hwait; by left).
    by pose proof (proj1 (Forall_lookup _ _) (HA Hidle) r _ Hr). }
  assert (Hlast : (promises p ++ [Pending]) !! length (promises p) = Some Pending).
  { rewrite lookup_app_r by lia. by rewrite Nat.sub_diag. }
  split; [|split; [|split; [|split]]]; simpl.
  - rewrite length_app. simpl. lia.
  - rewrite Hnone. simpl. intros ref Hin.
    destruct Hextra as [->| ->]; [done|]. destruct Hin as [<-|[]]. exact Hlast.
  - unfold buildsStarted in *. simpl. rewrite !length_app. rewrite Hnone in *. simpl in *.
    destruct Hextra as [->| ->]; simpl; lia.
  - rewrite Hnone. destruct Hextra as [->| ->]; simpl; lia.
  - intros _ ref s [= <-] Hs. rewrite Hlast in Hs. injection Hs as Hs. subst s.
    intros [].
Qed.

Lemma orderly_getChildren (element : option TreeItem) (now : Z) (p : Provider) :
  orderly p -> consistent p -> orderly (getChildren element now p).2.
Proof.
  intros Hp Hc. unfold getChildren.
  assert (Hroot : orderly
            (match children p with
             | Some ref => (Promised ref, p)
             | None =>
                 (Promised (length (promises p)),
                  {| fetching := true; lastFetch := Some now;
                     children := Some (length (promises p));
                     promises := promises p ++ [Pending];
                     awaiting := awaiting p; fired := fired p |})
             end).2).
  { destruct (children p) eqn:E; [done|]. simpl.
    rewrite <- (app_nil_r (awaiting p)).
    apply orderly_start; [done| |done|by left]. by apply Hc. }
  by destruct element as [[| |m]|].
Qed.

Lemma orderly_refresh (now : Z) (p : Provider) :
  orderly p -> consistent p -> orderly (refresh now p).
Proof.
  intros Hp Hc. destruct (fetching p) eqn:E.
  - by rewrite refresh_fetching.
  - rewrite refresh_idle by done. apply orderly_start; [done|done|done|by right].
Qed.

Lemma orderly_settle (ref : nat) (outcome : Result (list TreeItem)) (p : Provider) :
  orderly p -> orderly (settle ref outcome p).
Proof.
  intros (Hcache & Hwait & Hfired & Hone & Hbusy). unfold settle.
  destruct (promises p !! ref) as [[| |]|] eqn:Hlook; try done.
  assert (Hkeep : forall new r,
            In r (List.filter (fun r => negb (Nat.eqb ref r)) (awaiting p)) ->
            <[ref := new]> (promises p) !! r = Some Pending).
  { intros new r Hr. apply List.filter_In in Hr as [Hr Hne].
    apply negb_true_iff, Nat.eqb_neq in Hne.
    rewrite list_lookup_insert_ne by done. by apply Hwait. }
  assert (Hcache' : forall new,
            match children p with
            | Some r => S r = length (<[ref := new]> (promises p))
            | None => <[ref := new]> (promises p) = []
            end).
  { intros new. destruct (children p); [by rewrite length_insert|].
    rewrite Hcache in Hlook. done. }
  pose proof (waitersOf_filter ref (awaiting p)) as Hsplit.
  destruct outcome as [items|e]; (split; [|split; [|split; [|split]]]); simpl.
  - apply Hcache'.
  - apply Hkeep.
  - unfold buildsStarted in *. simpl. rewrite length_insert. lia.
  - lia.
  - done.
  - apply Hcache'.
  - apply Hkeep.
  - unfold buildsStarted in *. simpl. rewrite length_insert. lia.
  - lia.
  - intros Hb r s Hr Hs. destruct (decide (r = ref)) as [->|Hne].
    + rewrite list_lookup_insert_eq in Hs by (by eapply lookup_lt_Some).
      injection Hs as Hs. subst s. intros [].
    + rewrite list_lookup_insert_ne in Hs by done. by eapply Hbusy.
Qed.

Lemma orderly_step (p : Provider) (timed : Z * Event) :
  orderly p -> consistent p -> orderly (step p timed).
Proof.
  intros Hp Hc. destruct timed as [now [element| | |ref outcome]]; simpl.
  - by apply orderly_getChildren.
  - by apply orderly_refresh.
  - unfold poll. destruct (isStale now p); [by apply orderly_refresh|done].
  - by apply orderly_settle.
Qed.

Lemma orderly_run (trace : list (Z * Event)) (p : Provider) :
  orderly p -> consistent p -> orderly (run trace p).
Proof.
  revert p. induction trace as [|e trace IH]; intros p Hp Hc; [done|].
  change (run (e :: trace) p) with (run trace (step p e)).
  apply IH; [by apply orderly_step|by apply consistent_step].
Qed.

Lemma reachable_orderly (p : Provider) : reachable p -> orderly p.
Proof. intros [trace ->]. apply orderly_run; [apply orderly_new|apply consistent_new]. Qed.

Lemma pendingCount_fulfilled (l : list PromiseState) :
  Forall isFulfilled l -> List.filter isPending l = [].
Proof. induction 1 as [|s l Hs _ IH]; [done|]. simpl. by destruct s. Qed.

(** X10. At most one build is in flight at any time, the cached one, and it is
    the build started last; [fetching] is set exactly when the cached build
    has not fulfilled (it is pending or has rejected). *)
Theorem at_most_one_build_in_flight (p : Provider) :
  reachable p ->
  (pendingCount p <= 1)%nat /\
  (forall ref, promises p !! ref = Some Pending ->
     children p = Some ref /\ S ref = buildsStarted p) /\
  (fetching p = true <->
   exists ref s, children p = Some ref /\ promises p !! ref = Some s /\ ~ isFulfilled s) /\
  (children p = None <-> buildsStarted p = 0%nat).
Proof.
  intros Hreach.
  pose proof (reachable_consistent p Hreach) as Hc.
  pose proof (reachable_orderly p Hreach) as (Hcache & _ & _ & _ & Hbusy).
  destruct Hc as (HA & HB & HC).
  assert (Hlatest : forall ref, children p = Some ref -> S ref = buildsStarted p).
  { intros ref Href. by rewrite Href in Hcache. }
  split; [|split; [|split]].
  - unfold pendingCount. destruct (children p) as [ref|] eqn:Href.
    + assert (Hlen : S ref = length (promises p)) by (by apply Hlatest).
      rewrite <- (take_drop ref (promises p)), List.filter_app, length_app.
      rewrite (pendingCount_fulfilled (take ref (promises p))).
      * pose proof (List.filter_length_le isPending (drop ref (promises p))).
        rewrite length_drop in *. simpl. lia.
      * apply Forall_lookup. intros i s Hs.
        apply lookup_take_Some in Hs as [Hs Hlt].
        apply (HB ref i s eq_refl Hs). lia.
    + rewrite pendingCount_fulfilled; [simpl; lia|]. by apply HA, HC.
  - intros ref Hpending.
    destruct (pending_is_cached p ref (conj HA (conj HB HC)) Hpending) as [_ Href].
    split; [done|by apply Hlatest].
  - split.
    + intros Hb. destruct (children p) as [ref|] eqn:Href.
      * assert (Hlt : (ref < length (promises p))%nat)
          by (pose proof (Hlatest ref eq_refl); unfold buildsStarted in *; lia).
        destruct (lookup_lt_is_Some_2 _ _ Hlt) as [s Hs].
        exists ref, s. split; [done|]. split; [done|]. by eapply Hbusy.
      * rewrite HC in Hb; done.
    + intros (ref & s & Href & Hs & Hnot). destruct (fetching p) eqn:E; [done|].
      exfalso. apply Hnot. by apply (proj1 (Forall_lookup _ _) (HA eq_refl) ref s).
  - unfold buildsStarted. destruct (children p) as [ref|] eqn:Href.
    + split; [done|]. pose proof (Hlatest ref eq_refl). unfold buildsStarted in *. lia.
    + by rewrite Hcache.
Qed.

(** X11. No more change notifications are fired than builds were started; at
    most one [refresh] is ever suspended, and only on the cached build
    while it is pending. A refresh of an idle provider followed by the
    fulfilment of its build fires exactly one notification and leaves the
    new tree cached; the build the host starts with its first request
    fires none. *)
Theorem one_notification_per_refresh (p : Provider) (now : Z) (items : list TreeItem) :
  reachable p ->
  (fired p + length (awaiting p) <= buildsStarted p)%nat /\
  (length (awaiting p) <= 1)%nat /\
  (forall ref, In ref (awaiting p) ->
     children p = Some ref /\ promises p !! ref = Some Pending) /\
  (fetching p = false ->
     awaiting p = [] /\
     let p' := settle (buildsStarted p) (Ok items) (refresh now p) in
     fired p' = S (fired p) /\ fetching p' = false /\ awaiting p' = [] /\
     children p' = Some (buildsStarted p) /\
     promises p' !! buildsStarted p = Some (Fulfilled items)) /\
  (children p = None ->
     fired (settle 0 (Ok items) (getChildren None now p).2) = fired p).
Proof.
  intros Hreach.
  pose proof (reachable_consistent p Hreach) as Hc.
  pose proof (reachable_orderly p Hreach) as (Hcache & Hwait & Hfired & Hone & _).
  split; [done|]. split; [done|]. split; [|split].
  - intros ref Hin. pose proof (Hwait ref Hin) as Hpending.
    by destruct (pending_is_cached p ref Hc Hpending).
  - intros Hidle.
    assert (Hnone : awaiting p = []).
    { destruct (awaiting p) as [|r rest] eqn:E; [done|].
      assert (Hr : promises p !! r = Some Pending) by (apply Hwait; by left).
      destruct Hc as (HA & _).
      by pose proof (proj1 (Forall_lookup _ _) (HA Hidle) r _ Hr). }
    split; [done|]. rewrite refresh_idle by done. unfold settle, buildsStarted. simpl.
    rewrite lookup_app_r by lia. rewrite Nat.sub_diag. simpl.
    rewrite Hnone. simpl. rewrite Nat.eqb_refl. simpl.
    split; [unfold waitersOf; simpl; rewrite Nat.eqb_refl; simpl; lia|]. split; [done|]. split; [done|]. split; [done|].
    rewrite list_lookup_insert_eq; [done|]. rewrite length_app. simpl. lia.
  - intros Hempty. rewrite Hempty in Hcache.
    assert (Hnone : awaiting p = []).
    { destruct (awaiting p) as [|r rest] eqn:E; [done|].
      assert (Hr : promises p !! r = Some Pending) by (apply Hwait; by left).
      rewrite Hcache in Hr. done. }
    unfold getChildren. rewrite Hempty. unfold settle. simpl.
    rewrite Hcache. simpl. rewrite Hnone. unfold waitersOf. simpl. lia.
Qed.

(** X12. Once a build has been started, [getChildren] never starts another: it
    answers with the cached promise, the latest build, and leaves the
    provider as it is, also when that build has failed. *)
Theorem getChildren_serves_the_cache (p : Provider) (element : option TreeItem) (now : Z) :
  reachable p -> buildsStarted p <> 0%nat ->
  (getChildren element now p).2 = p /\
  ((forall m, element <> Some (MilestoneNode m)) ->
   (getChildren element now p).1 = Promised (buildsStarted p - 1)).
Proof.
  intros Hreach Hstarted.
  pose proof (reachable_orderly p Hreach) as (Hcache & _).
  unfold getChildren, buildsStarted in *.
  destruct (children p) as [ref|] eqn:Href.
  - replace (length (promises p) - 1)%nat with ref by lia.
    split; [by destruct element as [[| |m]|]|].
    intros Hnot. destruct element as [[| |m]|]; try done. by destruct (Hnot m).
  - rewrite Hcache in Hstarted. done.
Qed.

(** ** What a match consists of *)

Lemma matchRep_inv (cls : ascii -> bool) (k : list ascii -> option MatchResult)
    (s : list ascii) :
  forall (min : nat) (segs : list (list ascii)) (rest : list ascii),
  matchRep cls min k s = Some (segs, rest) ->
  exists taken s' segs',
    s = taken ++ s' /\ forallb cls taken = true /\ (min <= length taken)%nat /\
    k s' = Some (segs', rest) /\ segs = taken :: segs'.
Proof.
  induction s as [|c s IH]; intros min segs rest Hm.
  - simpl in Hm. destruct min; [|done].
    destruct (k []) as [[segs' rest']|] eqn:Hk; [|done]. injection Hm as <- <-.
    exists [], [], segs'. done.
  - cbn [matchRep] in Hm.
    assert (Hstop : match min with
                    | O => withSegment [] (k (c :: s))
                    | S _ => None
                    end = Some (segs, rest) ->
                    exists taken s' segs',
                      c :: s = taken ++ s' /\ forallb cls taken = true /\
                      (min <= length taken)%nat /\
                      k s' = Some (segs', rest) /\ segs = taken :: segs').
    { destruct min; [|done].
      destruct (k (c :: s)) as [[segs' rest']|] eqn:Hk; [|done]. intros [= <- <-].
      exists [], (c :: s), segs'. done. }
    destruct (cls c) eqn:Hc; [|by apply Hstop].
    destruct (matchRep cls (pred min) k s) as [[[|seg segs1] rest1]|] eqn:Hdeep;
      simpl in Hm; try (by apply Hstop).
    injection Hm as <- <-.
    destruct (IH _ _ _ Hdeep) as (taken & s' & segs' & -> & Htaken & Hmin & Hk & [= -> ->]).
    exists (c :: taken), s', segs'. simpl. rewrite Hc, Htaken.
    split; [done|]. split; [done|]. split; [lia|done].
Qed.

Lemma matchSeq_sound (atoms : list Atom) :
  forall (s : list ascii) (segs : list (list ascii)) (rest : list ascii),
  matchSeq atoms s = Some (segs, rest) ->
  s = concat segs ++ rest /\ Forall2 segmentMatches atoms segs.
Proof.
  induction atoms as [|[cls min|l] atoms IH]; intros s segs rest Hm.
  - injection Hm as <- <-. split; [done|constructor].
  - rewrite matchSeq_Rep in Hm.
    apply matchRep_inv in Hm as (taken & s' & segs' & -> & Htaken & Hmin & Hk & ->).
    destruct (IH _ _ _ Hk) as [-> Hall].
    split; [simpl; by rewrite <- app_assoc|]. by constructor.
  - rewrite matchSeq_Lit in Hm.
    destruct (isPrefix l s) eqn:Hp; [|done]. apply isPrefix_split in Hp.
    destruct (matchSeq atoms (drop (length l) s)) as [[segs' rest']|] eqn:Hk; [|done].
    injection Hm as <- <-. destruct (IH _ _ _ Hk) as [Hs Hall].
    split; [simpl; rewrite <- app_assoc, <- Hs; exact Hp|]. by constructor.
Qed.

Lemma regexExec_sound (atoms : list Atom) (s : list ascii)
    (segs : list (list ascii)) (rest : list ascii) :
  regexExec atoms s = Some (segs, rest) ->
  exists skipped, s = skipped ++ concat segs ++ rest /\ Forall2 segmentMatches atoms segs.
Proof.
  induction s as [|c s IH]; cbn [regexExec].
  - destruct (matchSeq atoms []) as [r|] eqn:Hm; [|done]. intros [= ->].
    exists []. by apply matchSeq_sound.
  - destruct (matchSeq atoms (c :: s)) as [r|] eqn:Hm.
    + intros [= ->]. exists []. by apply matchSeq_sound.
    + intros Hlater. destruct (IH Hlater) as (skipped & -> & Hall).
      by exists (c :: skipped).
Qed.

Lemma matchRep_zero_total (cls : ascii -> bool) (s : list ascii) :
  exists seg rest, matchRep cls 0 (matchSeq []) s = Some ([seg], rest).
Proof.
  induction s as [|c s IH]; [by exists [], []|].
  cbn [matchRep pred]. destruct (cls c); [|by exists [], (c :: s)].
  destruct IH as (seg & rest & ->). by exists (c :: seg), rest.
Qed.

(** A pattern that ends in an unbounded repetition takes all it can: the
    text left over is empty or starts with a character outside the class. *)
Lemma matchRep_last_maximal (cls : ascii -> bool) (s : list ascii) :
  forall (min : nat) (segs : list (list ascii)) (rest : list ascii),
  matchRep cls min (matchSeq []) s = Some (segs, rest) ->
  match rest with [] => true | c :: _ => negb (cls c) end = true.
Proof.
  induction s as [|c s IH]; intros min segs rest Hm.
  - simpl in Hm. destruct min; [|done]. by injection Hm as <- <-.
  - cbn [matchRep] in Hm. destruct (cls c) eqn:Hc.
    + destruct min as [|min]; cbn [pred] in Hm.
      * destruct (matchRep_zero_total cls s) as (seg & rest1 & Hdeep).
        rewrite Hdeep in Hm. simpl in Hm. injection Hm as <- <-. by eapply IH.
      * destruct (matchRep cls min (matchSeq []) s) as [[[|seg segs1] rest1]|] eqn:Hdeep;
          simpl in Hm; try done.
        injection Hm as <- <-. by eapply IH.
    + destruct min; [|done]. simpl in Hm. injection Hm as <- <-. simpl. by rewrite Hc.
Qed.

Lemma matchSeq_last_maximal (cls : ascii -> bool) (atoms : list Atom) :
  forall (s : list ascii) (segs : list (list ascii)) (rest : list ascii),
  matchSeq (atoms ++ [Rep cls 0]) s = Some (segs, rest) ->
  match rest with [] => true | c :: _ => negb (cls c) end = true.
Proof.
  induction atoms as [|[cls' min|l] atoms IH]; intros s segs rest Hm.
  - simpl app in Hm. rewrite matchSeq_Rep in Hm. by eapply matchRep_last_maximal.
  - simpl app in Hm. rewrite matchSeq_Rep in Hm.
    apply matchRep_inv in Hm as (taken & s' & segs' & _ & _ & _ & Hk & _).
    by eapply IH.
  - simpl app in Hm. rewrite matchSeq_Lit in Hm.
    destruct (isPrefix l s); [|done].
    destruct (matchSeq (atoms ++ [Rep cls 0]) (drop (length l) s))
      as [[segs' rest']|] eqn:Hk; [|done].
    injection Hm as <- <-. by eapply IH.
Qed.

(** A leading unbounded repetition makes the search succeed at the first
    position whenever it succeeds at all on text of the class. *)
Lemma regexExec_leading_star (cls : ascii -> bool) (atoms : list Atom) (s : list ascii) :
  forallb cls s = true ->
  regexExec (Rep cls 0 :: atoms) s = matchSeq (Rep cls 0 :: atoms) s.
Proof.
  induction s as [|c s IH]; intros Hs; cbn [regexExec].
  - by destruct (matchSeq (Rep cls 0 :: atoms) []).
  - simpl in Hs. apply andb_true_iff in Hs as [Hc Hs].
    destruct (matchSeq (Rep cls 0 :: atoms) (c :: s)) as [r|] eqn:Hm; [done|].
    rewrite IH by done. rewrite matchSeq_Rep in *. cbn [matchRep pred] in Hm.
    rewrite Hc in Hm.
    destruct (matchRep cls 0 (matchSeq atoms) s) as [[[|seg segs] rest]|] eqn:Hdeep;
      try done.
    apply matchRep_inv in Hdeep as (? & ? & ? & _ & _ & _ & _ & [=]).
Qed.

(** ** Every resolved remote *)

Lemma allMatchesFrom_tokens (s : list ascii) :
  forall (atLineStart : bool) (skip : nat) (u : list ascii),
  In u (allMatchesFrom remoteLinePattern 2 atLineStart skip s) ->
  u <> [] /\ forallb nonWhitespace u = true.
Proof.
  assert (Hhere : forall t r, matchSeq remoteLinePattern t = Some r ->
            default [] (r.1 !! 2%nat) <> [] /\
            forallb nonWhitespace (default [] (r.1 !! 2%nat)) = true).
  { intros t [segs rest] Hm. apply matchSeq_sound in Hm as [_ Hall].
    unfold remoteLinePattern in Hall.
    apply Forall2_cons_inv_l in Hall as (a & segs1 & _ & Hall & ->).
    apply Forall2_cons_inv_l in Hall as (b & segs2 & _ & Hall & ->).
    apply Forall2_cons_inv_l in Hall as (c & segs3 & [Hc Hlen] & _ & ->).
    simpl. split; [|done]. destruct c; [simpl in Hlen; lia|done]. }
  induction s as [|c s IH]; intros atLineStart skip u Hin.
  - destruct skip; [|done]. cbn [allMatchesFrom] in Hin.
    destruct (if atLineStart then matchSeq remoteLinePattern [] else None) as [r|] eqn:Hm;
      [|done].
    destruct atLineStart; [|done]. destruct Hin as [<-|[]]. by eapply Hhere.
  - destruct skip as [|n]; cbn [allMatchesFrom] in Hin; [|by eapply IH].
    destruct (if atLineStart then matchSeq remoteLinePattern (c :: s) else None)
      as [r|] eqn:Hm; [|by eapply IH].
    destruct atLineStart; [|done].
    destruct Hin as [<-|Hin]; [by eapply Hhere|by eapply IH].
Qed.

Lemma remoteUrls_tokens (stdout : string) (u : string) :
  In u (remoteUrls stdout) -> isToken u = true.
Proof.
  unfold remoteUrls, allMatches. intros Hin.
  apply in_map_iff in Hin as (chars & <- & Hin).
  apply allMatchesFrom_tokens in Hin as [Hne Hall].
  unfold isToken. rewrite list_ascii_of_string_of_list_ascii, Hall.
  by destruct chars.
Qed.

(** On a token the pattern, when it matches, matches all of it; the owner
    it captures is a non-empty run without slash, the repository a
    non-empty run without space or dot, and they stand in the URL after
    [github.com/], separated by a slash. *)
Lemma githubGroups_token (u m1 m2 m3 : string) :
  isToken u = true -> githubGroups u = Some (m1, m2, m3) ->
  m1 = u /\
  (exists pre ext, u = pre +:+ "github.com/" +:+ m2 +:+ "/" +:+ m3 +:+ ext) /\
  m2 <> EmptyString /\ forallb notSlash (list_ascii_of_string m2) = true /\
  m3 <> EmptyString /\ forallb notSpaceOrDot (list_ascii_of_string m3) = true.
Proof.
  unfold isToken, githubGroups. intros Htoken Hgroups.
  apply andb_true_iff in Htoken as [_ Hchars].
  destruct (regexExec githubPattern (list_ascii_of_string u)) as [[segs rest]|] eqn:Hexec;
    [|done].
  injection Hgroups as <- <- <-.
  unfold githubPattern in Hexec. rewrite regexExec_leading_star in Hexec by done.
  pose proof (matchSeq_last_maximal nonWhitespace
                [Rep nonWhitespace 0; Lit (list_ascii_of_string "github.com/");
                 Rep notSlash 1; Lit (list_ascii_of_string "/"); Rep notSpaceOrDot 1]
                _ _ _ Hexec) as Hmax.
  apply matchSeq_sound in Hexec as [Hu Hall].
  apply Forall2_cons_inv_l in Hall as (pre & segs1 & _ & Hall & ->).
  apply Forall2_cons_inv_l in Hall as (lit & segs2 & -> & Hall & ->).
  apply Forall2_cons_inv_l in Hall as (o & segs3 & [Ho Holen] & Hall & ->).
  apply Forall2_cons_inv_l in Hall as (sl & segs4 & -> & Hall & ->).
  apply Forall2_cons_inv_l in Hall as (r & segs5 & [Hr Hrlen] & Hall & ->).
  apply Forall2_cons_inv_l in Hall as (ext & segs6 & _ & Hall & ->).
  apply Forall2_nil_inv_l in Hall as ->.
  assert (Hrest : rest = []).
  { destruct rest as [|c rest]; [done|]. exfalso.
    rewrite Hu in Hchars. rewrite forallb_app in Hchars.
    apply andb_true_iff in Hchars as [_ Hc]. simpl in Hc.
    apply andb_true_iff in Hc as [Hc _]. by rewrite Hc in Hmax. }
  subst rest. rewrite app_nil_r in Hu. cbn [lookup list_lookup default]. unfold id.
  assert (Hwhole : string_of_list_ascii
                     (concat [pre; list_ascii_of_string "github.com/"; o;
                              list_ascii_of_string "/"; r; ext]) = u).
  { by rewrite <- Hu, string_of_list_ascii_of_string. }
  split; [exact Hwhole|]. split.
  - exists (string_of_list_ascii pre), (string_of_list_ascii ext).
    rewrite <- (string_of_list_ascii_of_string u) at 1.
    rewrite <- (string_of_list_ascii_of_string (_ +:+ _)).
    f_equal. rewrite Hu, !list_ascii_of_string_app, !list_ascii_of_string_of_list_ascii.
    simpl concat. by rewrite app_nil_r.
  - rewrite !list_ascii_of_string_of_list_ascii.
    split; [by destruct o; [simpl in Holen; lia|]|]. split; [done|].
    split; [by destruct r; [simpl in Hrlen; lia|]|done].
Qed.

Lemma parseRemotes_omap (fill : string -> option Credential) (stdout : string) :
  parseRemotes fill stdout = omap (resolveRemote fill) (newSet (remoteUrls stdout)).
Proof. unfold parseRemotes. by rewrite remotesOf_omap. Qed.

Lemma resolveRemote_token (fill : string -> option Credential) (u : string) (r : GitRemote) :
  isToken u = true -> resolveRemote fill u = Some r ->
  url r = u /\
  (exists pre ext, u = pre +:+ "github.com/" +:+ owner r +:+ "/" +:+ repo r +:+ ext) /\
  owner r <> EmptyString /\ forallb notSlash (list_ascii_of_string (owner r)) = true /\
  repo r <> EmptyString /\ forallb notSpaceOrDot (list_ascii_of_string (repo r)) = true /\
  exists data, fill u = Some data /\ username r = cred_username data.
Proof.
  unfold resolveRemote. intros Htoken Hres.
  destruct (githubGroups u) as [[[m1 m2] m3]|] eqn:Hg; [|done].
  destruct (githubGroups_token u m1 m2 m3 Htoken Hg) as (-> & Hshape & Ho & Ho' & Hr & Hr').
  destruct (fill u) as [data|] eqn:Hfill; [|done]. injection Hres as <-. simpl.
  repeat (split; [done|]). by exists data.
Qed.

Lemma resolved_urls_sublist (fill : string -> option Credential) (urls : list string) :
  (forall u, In u urls -> isToken u = true) ->
  map url (omap (resolveRemote fill) urls) `sublist_of` urls.
Proof.
  induction urls as [|u urls IH]; intros Htokens; [done|]. simpl.
  assert (Hrest : map url (omap (resolveRemote fill) urls) `sublist_of` urls).
  { apply IH. intros u' Hu'. apply Htokens. by right. }
  destruct (resolveRemote fill u) as [r|] eqn:Hres; simpl.
  - destruct (resolveRemote_token fill u r) as [-> _]; [apply Htokens; by left|done|].
    by apply sublist_skip.
  - by apply sublist_cons.
Qed.

Lemma newSet_tokens (stdout u : string) :
  In u (newSet (remoteUrls stdout)) -> In u (remoteUrls stdout) /\ isToken u = true.
Proof.
  intros Hin.
  assert (Hu : In u (remoteUrls stdout)).
  { apply list_elem_of_In. apply elem_of_newSet. by apply list_elem_of_In. }
  split; [exact Hu|]. by eapply remoteUrls_tokens.
Qed.

(** X13. Whatever [git remote -v] prints, every remote the resolver returns has
    a whitespace-free URL taken from the output, of the form
    [...github.com/{owner}/{repo}...] with a non-empty owner free of
    slashes and a non-empty repository name free of spaces and dots, and
    carries the user name the credential helper gave for that URL. *)
Theorem resolved_remotes_are_github_urls (ws : Workspace) (stdout : string)
    (remotes : list GitRemote) (r : GitRemote) :
  gitRemoteV ws = Some stdout -> getGitHubRemotes ws = Some remotes -> In r remotes ->
  In (url r) (remoteUrls stdout) /\ isToken (url r) = true /\
  (exists pre ext,
     url r = pre +:+ "github.com/" +:+ owner r +:+ "/" +:+ repo r +:+ ext) /\
  owner r <> EmptyString /\ forallb notSlash (list_ascii_of_string (owner r)) = true /\
  repo r <> EmptyString /\ forallb notSpaceOrDot (list_ascii_of_string (repo r)) = true /\
  exists data, fill ws (url r) = Some data /\ username r = cred_username data.
Proof.
  unfold getGitHubRemotes. intros -> [= <-] Hin.
  rewrite parseRemotes_omap in Hin.
  apply list_elem_of_In, list_elem_of_omap in Hin as (u & Hu & Hres).
  apply list_elem_of_In in Hu. apply newSet_tokens in Hu as [Hu Htoken].
  destruct (resolveRemote_token (fill ws) u r Htoken Hres) as (-> & Hrest).
  split; [done|]. split; [done|]. exact Hrest.
Qed.

(** X14. The resolver returns at most one remote per distinct URL of the output,
    in the order the URLs first appear, and it returns one for every URL
    that matches the pattern and has credentials. *)
Theorem one_remote_per_url (ws : Workspace) (stdout : string) (remotes : list GitRemote) :
  gitRemoteV ws = Some stdout -> getGitHubRemotes ws = Some remotes ->
  NoDup (map url remotes) /\
  map url remotes `sublist_of` firstOccurrences [] (remoteUrls stdout) /\
  (length remotes <= length (firstOccurrences [] (remoteUrls stdout)))%nat /\
  (forall u, In u (remoteUrls stdout) ->
     (exists r, In r remotes /\ url r = u) <-> is_Some (resolveRemote (fill ws) u)).
Proof.
  unfold getGitHubRemotes. intros -> [= <-]. rewrite parseRemotes_omap.
  assert (Hsub : map url (omap (resolveRemote (fill ws)) (newSet (remoteUrls stdout)))
                 `sublist_of` newSet (remoteUrls stdout)).
  { apply resolved_urls_sublist. intros u Hu. by apply newSet_tokens in Hu as [_ ?]. }
  split; [|split; [|split]].
  - eapply sublist_NoDup; [apply NoDup_newSet|exact Hsub].
  - by rewrite <- newSet_firstOccurrences.
  - rewrite <- newSet_firstOccurrences. apply sublist_length in Hsub.
    by rewrite length_map in Hsub.
  - intros u Hu. split.
    + intros (r & Hr & <-).
      apply list_elem_of_In, list_elem_of_omap in Hr as (u' & Hu' & Hres).
      apply list_elem_of_In in Hu'. apply newSet_tokens in Hu' as [_ Htoken].
      destruct (resolveRemote_token (fill ws) u' r Htoken Hres) as [-> _]. by eexists.
    + intros [r Hres]. exists r.
      pose proof (remoteUrls_tokens stdout u Hu) as Htoken.
      destruct (resolveRemote_token (fill ws) u r Htoken Hres) as [Hurl _].
      split; [|done]. apply list_elem_of_In, list_elem_of_omap. exists u.
      split; [|done]. by apply elem_of_newSet, list_elem_of_In.
Qed.

(** ** The remote resolver on every text *)

(** *** The matcher finds a match whenever there is one *)

Lemma matchRep_complete (cls : ascii -> bool) (k : list ascii -> option MatchResult)
    (taken s' : list ascii) :
  forall min : nat,
  forallb cls taken = true -> (min <= length taken)%nat -> is_Some (k s') ->
  is_Some (matchRep cls min k (taken ++ s')).
Proof.
  induction taken as [|c taken IH]; intros min Htaken Hmin [[segs rest] Hk].
  - simpl in Hmin. assert (min = 0%nat) as -> by lia. simpl app.
    destruct s' as [|c s']; cbn [matchRep]; [rewrite Hk; by eexists|].
    destruct (cls c); [|rewrite Hk; by eexists].
    destruct (consumed c (matchRep cls (pred 0) k s')); [by eexists|].
    rewrite Hk. by eexists.
  - simpl in Htaken, Hmin. apply andb_true_iff in Htaken as [Hc Htaken].
    simpl app. cbn [matchRep]. rewrite Hc.
    destruct (IH (pred min) Htaken ltac:(lia) ltac:(by eexists)) as [[segs1 rest1] Hdeep].
    rewrite Hdeep.
    apply matchRep_inv in Hdeep as (? & ? & ? & _ & _ & _ & _ & ->).
    by eexists.
Qed.

Lemma matchSeq_complete (atoms : list Atom) (segs : list (list ascii)) (rest : list ascii) :
  Forall2 segmentMatches atoms segs -> is_Some (matchSeq atoms (concat segs ++ rest)).
Proof.
  induction 1 as [|atom seg atoms segs Hseg _ IH]; [by eexists|].
  simpl concat. rewrite <- app_assoc. destruct atom as [cls min|l].
  - rewrite matchSeq_Rep. destruct Hseg as [Hcls Hmin]. by apply matchRep_complete.
  - simpl in Hseg. subst seg. rewrite matchSeq_Lit, isPrefix_app, drop_app_length.
    destruct IH as [[segs' rest'] ->]. by eexists.
Qed.

Lemma regexExec_complete (atoms : list Atom) (skipped s : list ascii) :
  is_Some (matchSeq atoms s) -> is_Some (regexExec atoms (skipped ++ s)).
Proof.
  intros Hm. induction skipped as [|c skipped IH]; simpl app.
  - destruct Hm as [r Hr]. destruct s; cbn [regexExec]; rewrite Hr; by eexists.
  - cbn [regexExec]. by destruct (matchSeq atoms (c :: skipped ++ s)).
Qed.

Lemma string_of_list_ascii_app (a b : list ascii) :
  string_of_list_ascii (a ++ b) = string_of_list_ascii a +:+ string_of_list_ascii b.
Proof. induction a as [|c a IH]; [done|]. simpl. by rewrite IH, append_cons. Qed.

(** The URL pattern matches exactly the texts that hold [github.com/], an
    owner, a slash and the start of a repository name. *)
Lemma githubGroups_shaped (u : string) : is_Some (githubGroups u) <-> githubShaped u.
Proof.
  unfold githubGroups, githubShaped. split.
  - destruct (regexExec githubPattern (list_ascii_of_string u)) as [[segs rest]|] eqn:Hexec;
      [|by intros [? ?]].
    intros _. apply regexExec_sound in Hexec as (skipped & Hu & Hall).
    unfold githubPattern in Hall.
    apply Forall2_cons_inv_l in Hall as (pre & segs1 & _ & Hall & ->).
    apply Forall2_cons_inv_l in Hall as (lit & segs2 & -> & Hall & ->).
    apply Forall2_cons_inv_l in Hall as (o & segs3 & [Ho Holen] & Hall & ->).
    apply Forall2_cons_inv_l in Hall as (sl & segs4 & -> & Hall & ->).
    apply Forall2_cons_inv_l in Hall as (r & segs5 & [Hr Hrlen] & Hall & ->).
    apply Forall2_cons_inv_l in Hall as (ext & segs6 & _ & Hall & ->).
    apply Forall2_nil_inv_l in Hall as ->.
    destruct r as [|c r]; [simpl in Hrlen; lia|].
    exists (string_of_list_ascii (skipped ++ pre)), (string_of_list_ascii o), c,
           (string_of_list_ascii (r ++ ext ++ rest)).
    rewrite list_ascii_of_string_of_list_ascii.
    split; [|split; [by destruct o; [simpl in Holen; lia|]|split; [done|]]].
    + rewrite <- (string_of_list_ascii_of_string u), Hu.
      simpl concat. rewrite app_nil_r.
      change (String c (string_of_list_ascii (r ++ ext ++ rest)))
        with (string_of_list_ascii (c :: r ++ ext ++ rest)).
      change "github.com/"%string
        with (string_of_list_ascii (list_ascii_of_string "github.com/")).
      change "/"%string with (string_of_list_ascii (list_ascii_of_string "/")) at 2.
      rewrite <- !string_of_list_ascii_app. f_equal.
      simpl. repeat rewrite <- app_assoc. simpl. repeat rewrite <- app_assoc. simpl.
      repeat rewrite <- app_assoc. reflexivity.
    + simpl in Hr. by apply andb_true_iff in Hr as [-> _].
  - intros (pre & owner0 & c & rest & -> & Hne & Ho & Hc).
    assert (Hexec : is_Some (regexExec githubPattern
                      (list_ascii_of_string
                         (pre +:+ "github.com/" +:+ owner0 +:+ "/" +:+ String c rest)))).
    { rewrite !list_ascii_of_string_app.
      change (list_ascii_of_string (String c rest)) with (c :: list_ascii_of_string rest).
      apply regexExec_complete.
      set (lit := list_ascii_of_string "github.com/").
      set (o := list_ascii_of_string owner0).
      set (sl := list_ascii_of_string "/").
      assert (Hall : Forall2 segmentMatches githubPattern [[]; lit; o; sl; [c]; []]).
      { unfold githubPattern. repeat constructor; try done.
        - subst o. by destruct owner0; [|simpl; lia].
        - simpl. by rewrite Hc. }
      pose proof (matchSeq_complete githubPattern _ (list_ascii_of_string rest) Hall) as Hm.
      replace (lit ++ o ++ sl ++ c :: list_ascii_of_string rest)
        with (concat [[]; lit; o; sl; [c]; []] ++ list_ascii_of_string rest); [done|].
      cbn [concat]. rewrite !app_nil_r. cbn [app].
      repeat rewrite <- app_assoc. reflexivity. }
    destruct Hexec as [[segs rest'] ->]. by eexists.
Qed.

(** A URL gives a remote exactly when it has the GitHub shape and the
    credential helper has data for it. *)
Lemma resolveRemote_iff (fill : string -> option Credential) (u : string) :
  isToken u = true ->
  is_Some (resolveRemote fill u) <-> githubShaped u /\ is_Some (fill u).
Proof.
  intros Htoken. rewrite <- githubGroups_shaped. unfold resolveRemote.
  destruct (githubGroups u) as [[[m1 m2] m3]|] eqn:Hg.
  - destruct (githubGroups_token u m1 m2 m3 Htoken Hg) as (-> & _).
    destruct (fill u) as [data|]; split.
    + intros _. split; by eexists.
    + intros _. by eexists.
    + by intros [? ?].
    + by intros [_ [? ?]].
  - split; [by intros [? ?]|by intros [[? ?] _]].
Qed.

(** *** Lines and tokens *)

Lemma splitOn_field (sep : ascii -> bool) (field rest : list ascii) (c : ascii) :
  forallb (fun x => negb (sep x)) field = true -> sep c = true ->
  splitOn sep (field ++ c :: rest) = field :: splitOn sep rest.
Proof.
  intros Hfield Hc. induction field as [|x field IH]; simpl in *; [by rewrite Hc|].
  apply andb_true_iff in Hfield as [Hx Hfield]. apply negb_true_iff in Hx.
  by rewrite Hx, IH.
Qed.

Lemma splitOn_last (sep : ascii -> bool) (field : list ascii) :
  forallb (fun x => negb (sep x)) field = true -> splitOn sep field = [field].
Proof.
  induction field as [|x field IH]; simpl; [done|]. intros Hfield.
  apply andb_true_iff in Hfield as [Hx Hfield]. apply negb_true_iff in Hx.
  by rewrite Hx, IH.
Qed.

Lemma token_not_separated (t : list ascii) :
  forallb nonWhitespace t = true ->
  forallb (fun x => negb (isWhitespace x)) t = true /\
  forallb (fun x => negb (isLineTerminator x)) t = true.
Proof.
  induction t as [|c t IH]; simpl; [done|]. intros Ht.
  apply andb_true_iff in Ht as [Hc Ht]. destruct (IH Ht) as [-> ->].
  rewrite (token_char_not_terminator c Hc). unfold nonWhitespace in Hc. by rewrite Hc.
Qed.

(** In git's format the second token of each line is its URL. *)
Lemma secondTokens_output (lines : list RemoteLine) :
  Forall (fun l => wellFormedLine l = true) lines ->
  secondTokens (gitRemoteOutput lines) = map line_url lines.
Proof.
  unfold secondTokens. induction 1 as [|l lines Hl _ IH]; [done|].
  simpl gitRemoteOutput. rewrite list_ascii_of_string_app, renderLine_chars.
  unfold wellFormedLine in Hl. apply andb_true_iff in Hl as [Hname Hurl].
  apply isToken_chars in Hname as [Hname Hn], Hurl as [Hurl Hu].
  destruct (token_not_separated _ Hn) as [Hn1 Hn2].
  destruct (token_not_separated _ Hu) as [Hu1 Hu2].
  set (name := list_ascii_of_string (line_name l)) in *.
  set (url0 := list_ascii_of_string (line_url l)) in *.
  set (dir := list_ascii_of_string (directionText (line_direction l))).
  set (more := list_ascii_of_string (gitRemoteOutput lines)) in *.
  replace ((name ++ tabChar :: url0 ++ dir ++ [newlineChar]) ++ more)
    with ((name ++ tabChar :: url0 ++ dir) ++ newlineChar :: more).
  2:{ rewrite <- !app_assoc. simpl. f_equal. f_equal. by rewrite <- !app_assoc. }
  rewrite splitOn_field; [|
    rewrite forallb_app; apply andb_true_iff; split; [done|];
    simpl; rewrite forallb_app; apply andb_true_iff; split; [done|];
    subst dir; by destruct (line_direction l) | done].
  cbn [omap list_omap]. rewrite IH.
  assert (Htokens : tokensOf (name ++ tabChar :: url0 ++ dir) !! 1%nat = Some url0).
  { unfold tokensOf. rewrite splitOn_field by done.
    assert (Hdir : exists word, dir = " "%char :: word /\
                     forallb (fun x => negb (isWhitespace x)) word = true).
    { subst dir. destruct (line_direction l); by eexists. }
    destruct Hdir as (word & -> & Hword).
    rewrite splitOn_field by done. rewrite splitOn_last by done.
    cbn [List.filter]. destruct name as [|? ?]; [done|].
    destruct url0 as [|? ?]; [done|]. done. }
  rewrite Htokens. cbn [option_map]. subst url0.
  by rewrite string_of_list_ascii_of_string.
Qed.

(** C6 (amended). For every output text, the resolver takes as URLs the
    second whitespace-free run of each successive match of the line
    pattern, drops repeated URLs, keeps exactly those that hold
    [github.com/], an owner and a repository name and for which the
    credential lookup returns data, and returns the remotes in the order
    in which their URLs first appear; the owner is a non-empty run
    without a slash and the repository name a non-empty run without a
    space or a dot, so without [.git]. When the text is in git's format,
    each line a name, a tab, a URL and the direction, the URLs are the
    second whitespace-delimited token of each line. A fetch and a push
    line for [https://github.com/acme/widgets.git] give one remote,
    acme/widgets. *)
Theorem remotes_resolved (ws : Workspace) (stdout : string) :
  gitRemoteV ws = Some stdout ->
  getGitHubRemotes ws =
    Some (omap (resolveRemote (fill ws)) (firstOccurrences [] (remoteUrls stdout))) /\
  (forall u, In u (remoteUrls stdout) ->
     isToken u = true /\
     (is_Some (resolveRemote (fill ws) u) <-> githubShaped u /\ is_Some (fill ws u)) /\
     forall r, resolveRemote (fill ws) u = Some r ->
       url r = u /\
       (exists pre ext,
          u = pre +:+ "github.com/" +:+ owner r +:+ "/" +:+ repo r +:+ ext) /\
       owner r <> EmptyString /\
       forallb notSlash (list_ascii_of_string (owner r)) = true /\
       repo r <> EmptyString /\
       forallb notSpaceOrDot (list_ascii_of_string (repo r)) = true /\
       exists data, fill ws u = Some data /\ username r = cred_username data) /\
  (forall pre owner0 repo0 ext : string,
     noWhitespace pre = true -> isOwnerName owner0 = true -> isRepoName repo0 = true ->
     isExtension ext = true ->
     let whole := pre +:+ "github.com/" +:+ owner0 +:+ "/" +:+ repo0 +:+ ext in
     resolveRemote (fill ws) whole =
       option_map (fun data => {| url := whole; owner := owner0; repo := repo0;
                                  username := cred_username data |})
                  (fill ws whole)) /\
  (forall lines : list RemoteLine,
     Forall (fun l => wellFormedLine l = true) lines -> stdout = gitRemoteOutput lines ->
     remoteUrls stdout = map line_url lines /\
     remoteUrls stdout = secondTokens stdout) /\
  parseRemotes bobsCredentials (gitRemoteOutput widgetsOutput) =
    [{| url := "https://github.com/acme/widgets.git"; owner := "acme"; repo := "widgets";
        username := "bob" |}].
Proof.
  intros Hout. split; [|split; [|split; [|split]]].
  - unfold getGitHubRemotes. rewrite Hout. simpl.
    by rewrite parseRemotes_omap, newSet_firstOccurrences.
  - intros u Hu. pose proof (remoteUrls_tokens stdout u Hu) as Htoken.
    split; [done|]. split; [by apply resolveRemote_iff|].
    intros r Hr. by apply resolveRemote_token.
  - intros pre owner0 repo0 ext Hpre Ho Hr He whole. unfold resolveRemote.
    subst whole. rewrite githubGroups_url by done.
    by destruct (fill ws _).
  - intros lines Hwf ->. rewrite remoteUrls_output, secondTokens_output by done. done.
  - vm_compute. reflexivity.
Qed.

(** C6 as stated fails: the blanks of the line pattern also run over a line
    end. After a line that holds a name only, the match takes the first
    token of the next line as its URL, and the second token of that line,
    the URL of a GitHub remote with credentials, is never looked at. *)
Lemma single_token_line_hides_a_remote :
  secondTokens strayNameOutput = ["https://github.com/acme/widgets.git"] /\
  remoteUrls strayNameOutput = ["upstream"] /\
  resolveRemote bobsCredentials "https://github.com/acme/widgets.git" = Some acmeWidgets /\
  getGitHubRemotes strayNameWorkspace = Some [].
Proof. repeat split; vm_compute; reflexivity. Qed.

Lemma remotes_resolved_witness :
  gitRemoteV widgetsWorkspace = Some (gitRemoteOutput widgetsOutput) /\
  getGitHubRemotes widgetsWorkspace = Some [acmeWidgets].
Proof.
  split; [reflexivity|].
  destruct (remotes_resolved widgetsWorkspace (gitRemoteOutput widgetsOutput) eq_refl)
    as (Hremotes & _).
  rewrite Hremotes. vm_compute. reflexivity.
Defined.

(** ** Checking out a pull request *)

Lemma execAllFrom_skip (atoms : list Atom) (pre s : list ascii) (atLineStart : bool) :
  execAllFrom atoms atLineStart (length pre) (pre ++ s) =
    execAllFrom atoms (fold_left (fun _ c => isLineTerminator c) pre atLineStart) 0 s.
Proof.
  revert atLineStart. induction pre as [|c pre IH]; intros atLineStart; simpl; [done|].
  apply IH.
Qed.

Lemma execAllFrom_rest_of_line (atoms : list Atom) (t more : list ascii) :
  forallb (fun c => negb (isLineTerminator c)) t = true ->
  execAllFrom atoms false 0 (t ++ newlineChar :: more) = execAllFrom atoms true 0 more.
Proof.
  induction t as [|c t IH]; intros Ht; simpl in *; [done|].
  apply andb_true_iff in Ht as [Hc Ht]. apply negb_true_iff in Hc.
  rewrite Hc. by apply IH.
Qed.

(** A run of characters of one class ends where the first character of
    another class stands. *)
Lemma span_unique (cls : ascii -> bool) (run1 run2 rest1 rest2 : list ascii) :
  forallb cls run1 = true -> forallb cls run2 = true ->
  match rest1 with [] => true | c :: _ => negb (cls c) end = true ->
  match rest2 with [] => true | c :: _ => negb (cls c) end = true ->
  run1 ++ rest1 = run2 ++ rest2 ->
  run1 = run2 /\ rest1 = rest2.
Proof.
  revert run2. induction run1 as [|c run1 IH]; intros run2 H1 H2 Hr1 Hr2 Heq.
  - destruct run2 as [|c2 run2]; [done|]. simpl in *. subst rest1.
    apply andb_true_iff in H2 as [Hc _]. by rewrite Hc in Hr1.
  - destruct run2 as [|c2 run2]; simpl in *.
    + subst rest2. apply andb_true_iff in H1 as [Hc _]. by rewrite Hc in Hr2.
    + injection Heq as <- Heq.
      apply andb_true_iff in H1 as [_ H1]. apply andb_true_iff in H2 as [_ H2].
      destruct (IH run2 H1 H2 Hr1 Hr2 Heq) as [-> ->]. done.
Qed.

(** A fetch line matches, with the name and the URL as its groups. *)
Lemma matchSeq_fetch_line (name url0 rest : list ascii) :
  name <> [] -> forallb nonWhitespace name = true ->
  url0 <> [] -> forallb nonWhitespace url0 = true ->
  matchSeq fetchLinePattern (name ++ tabChar :: url0 ++ " "%char :: fetchText ++ rest)
    = Some ([name; [tabChar]; url0; [" "%char]; fetchText], rest).
Proof.
  intros Hname Hn Hurl Hu. unfold fetchLinePattern. rewrite matchSeq_Rep.
  apply matchRep_run; [done|done|destruct name; [done|simpl; lia]|].
  change (tabChar :: url0 ++ " "%char :: fetchText ++ rest)
    with ([tabChar] ++ url0 ++ " "%char :: fetchText ++ rest).
  rewrite matchSeq_Rep.
  apply matchRep_run; [done| |simpl; lia|].
  { destruct url0 as [|c url0]; [done|]. simpl in *.
    apply andb_true_iff in Hu as [Hc _]. unfold nonWhitespace in Hc.
    by rewrite Hc. }
  rewrite matchSeq_Rep.
  apply matchRep_run; [done|done|destruct url0; [done|simpl; lia]|].
  change (" "%char :: fetchText ++ rest) with ([" "%char] ++ fetchText ++ rest).
  rewrite matchSeq_Rep.
  apply matchRep_run; [done|done|simpl; lia|].
  rewrite matchSeq_Lit. change (list_ascii_of_string "(fetch)") with fetchText.
  by rewrite isPrefix_app, drop_app_length.
Qed.

(** A push line does not match, however the repetitions are split. *)
Lemma matchSeq_push_line (name url0 more : list ascii) :
  forallb nonWhitespace name = true ->
  url0 <> [] -> forallb nonWhitespace url0 = true ->
  matchSeq fetchLinePattern
    (name ++ tabChar :: url0 ++ list_ascii_of_string " (push)" ++ more) = None.
Proof.
  intros Hn Hurl Hu.
  destruct (matchSeq fetchLinePattern _) as [[segs rest]|] eqn:Hm; [|done].
  exfalso. apply matchSeq_sound in Hm as [Hs Hall]. unfold fetchLinePattern in Hall.
  inversion Hall as [|? a ? segs1 Ha Hall1]; subst. destruct Ha as [Ha Ha1].
  inversion Hall1 as [|? b ? segs2 Hb Hall2]; subst. destruct Hb as [Hb Hb1].
  inversion Hall2 as [|? c ? segs3 Hc Hall3]; subst. destruct Hc as [Hc Hc1].
  inversion Hall3 as [|? d ? segs4 Hd Hall4]; subst. destruct Hd as [Hd Hd1].
  inversion Hall4 as [|? e ? segs5 He Hall5]; subst.
  inversion Hall5; subst. simpl in He. subst e.
  simpl concat in Hs. rewrite ?app_nil_r in Hs. repeat rewrite <- app_assoc in Hs.
  assert (Hhead : forall (cls : ascii -> bool) (x tail : list ascii),
             forallb (fun ch => negb (cls ch)) x = true -> (1 <= length x)%nat ->
             match x ++ tail with [] => true | ch :: _ => negb (cls ch) end = true).
  { intros cls [|ch x] tail Hx Hlen; [simpl in Hlen; lia|].
    simpl in *. by apply andb_true_iff in Hx as [-> _]. }
  assert (Hws : forall x, forallb isWhitespace x = true ->
                          forallb (fun ch => negb (nonWhitespace ch)) x = true).
  { intros x Hx. induction x as [|ch x IHx]; [done|]. simpl in *.
    apply andb_true_iff in Hx as [Hch Hx]. unfold nonWhitespace at 1.
    by rewrite Hch, IHx. }
  apply (span_unique nonWhitespace) in Hs as [<- Hs]; [|done|done|done|].
  2:{ apply Hhead; [by apply Hws|done]. }
  change (tabChar :: url0 ++ list_ascii_of_string " (push)" ++ more)
    with ([tabChar] ++ url0 ++ list_ascii_of_string " (push)" ++ more) in Hs.
  apply (span_unique isWhitespace) in Hs as [<- Hs]; [|done|done| |].
  2:{ apply Hhead; [done|]. destruct url0; [done|simpl; lia]. }
  2:{ by apply Hhead. }
  apply (span_unique nonWhitespace) in Hs as [<- Hs]; [|done|done|done|].
  2:{ apply Hhead; [by apply Hws|done]. }
  change (list_ascii_of_string " (push)" ++ more)
    with ([" "%char] ++ list_ascii_of_string "(push)" ++ more) in Hs.
  apply (span_unique isWhitespace) in Hs as [<- Hs]; [|done|done|done|done].
  done.
Qed.

Lemma execAll_line (l : RemoteLine) (more : list ascii) :
  wellFormedLine l = true ->
  execAllFrom fetchLinePattern true 0 (list_ascii_of_string (renderLine l) ++ more) =
    match line_direction l with
    | Fetch => [fetchSegments l]
    | Push => []
    end ++ execAllFrom fetchLinePattern true 0 more.
Proof.
  unfold wellFormedLine. intros Hwf. apply andb_true_iff in Hwf as [Hname Hurl].
  apply isToken_chars in Hname as [Hname Hn], Hurl as [Hurl Hu].
  rewrite renderLine_chars. unfold fetchSegments.
  set (name := list_ascii_of_string (line_name l)) in *.
  set (url0 := list_ascii_of_string (line_url l)) in *.
  assert (Hlt : forall t, forallb nonWhitespace t = true ->
                          forallb (fun c => negb (isLineTerminator c)) t = true).
  { intros t Ht. apply forallb_forall. intros c Hc.
    apply negb_true_iff, token_char_not_terminator.
    by eapply forallb_forall in Ht. }
  destruct (line_direction l); cbn [directionText].
  - pose proof (matchSeq_fetch_line name url0 (newlineChar :: more) Hname Hn Hurl Hu) as Hm.
    replace ((name ++ tabChar :: url0 ++ list_ascii_of_string " (fetch)" ++ [newlineChar]) ++ more)
      with (name ++ tabChar :: url0 ++ " "%char :: fetchText ++ newlineChar :: more).
    2:{ rewrite <- !app_assoc. simpl. f_equal. f_equal. by rewrite <- !app_assoc. }
    destruct name as [|c name'] eqn:Ename; [done|].
    cbn [app] in *. cbn [execAllFrom]. rewrite Hm. cbn [fst app]. f_equal.
    replace (pred (matchedLength
               ([c :: name'; [tabChar]; url0; [" "%char]; fetchText], newlineChar :: more)))
      with (length (name' ++ tabChar :: url0 ++ " "%char :: fetchText)).
    2:{ unfold matchedLength. simpl. rewrite !length_app. simpl.
        rewrite !length_app. simpl. lia. }
    replace (name' ++ tabChar :: url0 ++ " "%char :: fetchText ++ newlineChar :: more)
      with ((name' ++ tabChar :: url0 ++ " "%char :: fetchText) ++ newlineChar :: more).
    2:{ rewrite <- app_assoc. simpl. f_equal. f_equal. by rewrite <- app_assoc. }
    rewrite execAllFrom_skip.
    replace (name' ++ tabChar :: url0 ++ " "%char :: fetchText)
      with ((name' ++ tabChar :: url0 ++ [" "%char]) ++ fetchText).
    2:{ rewrite <- app_assoc. simpl. f_equal. f_equal. by rewrite <- app_assoc. }
    rewrite fold_left_app.
    rewrite (last_char_not_terminator fetchText) by done.
    exact (execAllFrom_rest_of_line fetchLinePattern [] more eq_refl).
  - pose proof (matchSeq_push_line name url0 (newlineChar :: more) Hn Hurl Hu) as Hm.
    replace ((name ++ tabChar :: url0 ++ list_ascii_of_string " (push)" ++ [newlineChar]) ++ more)
      with (name ++ tabChar :: url0 ++ list_ascii_of_string " (push)" ++ newlineChar :: more).
    2:{ rewrite <- !app_assoc. simpl. f_equal. f_equal. by rewrite <- !app_assoc. }
    destruct name as [|c name'] eqn:Ename; [done|].
    cbn [app] in *. cbn [execAllFrom]. rewrite Hm.
    rewrite (token_char_not_terminator c).
    2:{ simpl in Hn. by apply andb_true_iff in Hn as [-> _]. }
    replace (name' ++ tabChar :: url0 ++ list_ascii_of_string " (push)" ++ newlineChar :: more)
      with ((name' ++ tabChar :: url0 ++ list_ascii_of_string " (push)")
              ++ newlineChar :: more).
    2:{ rewrite <- app_assoc. simpl. f_equal. f_equal. by rewrite <- app_assoc. }
    apply execAllFrom_rest_of_line.
    simpl in Hn. apply andb_true_iff in Hn as [_ Hn].
    rewrite forallb_app. apply andb_true_iff. split; [by apply Hlt|].
    simpl. rewrite forallb_app. apply andb_true_iff. split; [by apply Hlt|done].
Qed.

Lemma execAll_output (lines : list RemoteLine) :
  Forall (fun l => wellFormedLine l = true) lines ->
  execAllFrom fetchLinePattern true 0 (list_ascii_of_string (gitRemoteOutput lines)) =
    map fetchSegments (fetchRemotes lines).
Proof.
  induction 1 as [|l lines Hl _ IH]; simpl; [done|].
  rewrite list_ascii_of_string_app, execAll_line, IH by done.
  unfold fetchRemotes. simpl. by destruct (line_direction l).
Qed.

(** On a well-formed listing the loop finds the first fetch line with the
    clone URL. *)
Lemma findRemote_output (clone_url : string) (lines : list RemoteLine) :
  Forall (fun l => wellFormedLine l = true) lines ->
  findRemote clone_url (gitRemoteOutput lines) =
    option_map line_name
      (List.find (fun l => String.eqb (line_url l) clone_url) (fetchRemotes lines)).
Proof.
  intros Hwf. unfold findRemote. rewrite execAll_output by done.
  induction (fetchRemotes lines) as [|l ls IH]; [done|].
  simpl. rewrite string_of_list_ascii_of_string.
  destruct (String.eqb (line_url l) clone_url); [|exact IH].
  simpl. by rewrite string_of_list_ascii_of_string.
Qed.

Lemma fetch_line_named (lines : list RemoteLine) (clone_url : string) (l : RemoteLine) :
  Forall (fun l => wellFormedLine l = true) lines ->
  List.find (fun l => String.eqb (line_url l) clone_url) (fetchRemotes lines) = Some l ->
  In l lines /\ line_direction l = Fetch /\ line_url l = clone_url /\
  truthyStr (line_name l) = true.
Proof.
  intros Hwf Hfind. apply find_some in Hfind as [Hin Hurl].
  apply String.eqb_eq in Hurl. unfold fetchRemotes in Hin.
  apply filter_In in Hin as [Hin Hdir].
  split; [done|]. split; [by destruct (line_direction l)|]. split; [done|].
  rewrite List.Forall_forall in Hwf. specialize (Hwf l Hin).
  unfold wellFormedLine, isToken in Hwf.
  by repeat (apply andb_true_iff in Hwf as [Hwf _]).
Qed.

Lemma execAllFrom_sound (atoms : list Atom) (segs : list (list ascii)) :
  forall (s : list ascii) (atLineStart : bool) (skip : nat),
  In segs (execAllFrom atoms atLineStart skip s) ->
  Forall2 segmentMatches atoms segs.
Proof.
  assert (Hhere : forall (b : bool) (s : list ascii) (r : MatchResult),
             (if b then matchSeq atoms s else None) = Some r ->
             Forall2 segmentMatches atoms r.1).
  { intros [|] s [segs' rest] Hm; [|done]. by apply matchSeq_sound in Hm as [_ Hall]. }
  induction s as [|c s IH]; intros atLineStart skip Hin.
  - destruct skip; [|done]. cbn [execAllFrom] in Hin.
    destruct (if atLineStart then matchSeq atoms [] else None) as [r|] eqn:Hm; [|done].
    destruct Hin as [<-|[]]. by eapply Hhere.
  - destruct skip as [|n]; cbn [execAllFrom] in Hin; [|by eapply IH].
    destruct (if atLineStart then matchSeq atoms (c :: s) else None) as [r|] eqn:Hm;
      [|by eapply IH].
    destruct Hin as [<-|Hin]; [by eapply Hhere|by eapply IH].
Qed.

(** The name the loop finds is never empty. *)
Lemma findRemote_truthy (clone_url stdout remote : string) :
  findRemote clone_url stdout = Some remote -> truthyStr remote = true.
Proof.
  unfold findRemote.
  destruct (List.find _ _) as [segs|] eqn:Hsegs; [|done]. intros [= <-].
  apply find_some in Hsegs as [Hin _]. apply execAllFrom_sound in Hin.
  unfold fetchLinePattern in Hin.
  inversion Hin as [|? a ? segs1 Ha _]; subst. destruct Ha as [_ Ha]. simpl.
  by destruct a; [simpl in Ha; lia|].
Qed.

Section Checkout.
  Context `{host : PullRequestHost World} `{shell : Shell Sh}.

Lemma checkoutSteps_recorded (pr : PullRequestHead) (sh : Sh) :
  exists (trace : Trace),
    @checkoutSteps _ (recordingShell shell) pr (sh, []) =
      ((checkoutSteps pr sh).1, ((checkoutSteps pr sh).2, trace)) /\
    (checkoutSteps pr sh).1 = failuresOf trace /\
    let localBranch := head_login pr +:+ "/" +:+ head_ref pr in
    let add := gitRemoteAdd (head_login pr) (head_clone_url pr) in
    ((exists err, trace = [("git remote -v", inl err)]) \/
     (exists stdout err,
        findRemote (head_clone_url pr) stdout = None /\
        trace = [("git remote -v", inr stdout); (add, inl err)]) \/
     (exists stdout remote fetched out,
        findRemote (head_clone_url pr) stdout = Some remote /\
        trace = [("git remote -v", inr stdout);
                 (gitFetch remote (head_ref pr), fetched);
                 (gitCheckout localBranch remote (head_ref pr), out)]) \/
     (exists stdout added fetched out,
        findRemote (head_clone_url pr) stdout = None /\
        trace = [("git remote -v", inr stdout); (add, inr added);
                 (gitFetch (head_login pr) (head_ref pr), fetched);
                 (gitCheckout localBranch (head_login pr) (head_ref pr), out)])).
Proof.
  unfold checkoutSteps. cbn [exec recordingShell fst snd].
  destruct (exec "git remote -v" sh) as [[err|stdout] sh1] eqn:Hlist; cbn [fst snd app].
  { eexists. split; [done|]. split; [done|]. left. by eexists. }
  destruct (findRemote (head_clone_url pr) stdout) as [remote|] eqn:Hfind; cbn [truthy].
  - rewrite (findRemote_truthy _ _ _ Hfind).
    change (default EmptyString (Some remote)) with remote.
    destruct (exec (gitFetch remote (head_ref pr)) sh1) as [fetched sh3] eqn:Hfetch.
    cbn [fst snd app].
    destruct (exec (gitCheckout (head_login pr +:+ "/" +:+ head_ref pr) remote (head_ref pr)) sh3)
      as [out sh4] eqn:Hout.
    cbn [fst snd app]. rewrite ?Hfetch. cbn [fst snd app]. rewrite ?Hout.
    eexists. split; [by destruct fetched, out|].
    split; [by destruct fetched, out|].
    right. right. left. by exists stdout, remote, fetched, out.
  - destruct (exec (gitRemoteAdd (head_login pr) (head_clone_url pr)) sh1)
      as [[err|added] sh2] eqn:Hadd; cbn [fst snd app].
    { eexists. split; [done|]. split; [done|]. right. left. by exists stdout, err. }
    destruct (exec (gitFetch (head_login pr) (head_ref pr)) sh2) as [fetched sh3] eqn:Hfetch.
    cbn [fst snd app].
    destruct (exec (gitCheckout (head_login pr +:+ "/" +:+ head_ref pr) (head_login pr)
                     (head_ref pr)) sh3) as [out sh4] eqn:Hout.
    cbn [fst snd app]. rewrite ?Hfetch. cbn [fst snd app]. rewrite ?Hout.
    eexists. split; [by destruct fetched, out|].
    split; [by destruct fetched, out|].
    right. right. right. by exists stdout, added, fetched, out.
Qed.
End Checkout.

Section CheckoutRuns.
  Context `{host : PullRequestHost World} `{shell : Shell Sh}.

(** X15. A failed lookup of the pull request (the request, or the reads of
    its head) rejects before any command is run. After a successful lookup
    the method never rejects: every failure of a git command is logged and
    nothing else is; a failed listing or a failed [git remote add] ends the
    run, a failed fetch does not, and the checkout follows every fetch.
    Recording the commands changes nothing of the run. *)
Theorem git_failures_are_logged_not_thrown (issue : Issue) (w : World) (sh : Sh) :
  let p := uriPath (repository_url (issue_item issue)) in
  let lookup := pullRequestsGet (basename (dirname p)) (basename p)
                  (item_number (issue_item issue)) w in
  match lookup.1 with
  | Err e =>
      checkoutPullRequest issue w sh = (Err e, lookup.2, sh) /\
      recordedCheckout issue w sh = (Err e, lookup.2, (sh, []))
  | Ok pr =>
      exists (trace : Trace) (sh' : Sh),
        checkoutPullRequest issue w sh = (Ok (failuresOf trace), lookup.2, sh') /\
        recordedCheckout issue w sh = (Ok (failuresOf trace), lookup.2, (sh', trace)) /\
        let localBranch := head_login pr +:+ "/" +:+ head_ref pr in
        let add := gitRemoteAdd (head_login pr) (head_clone_url pr) in
        ((exists err, trace = [("git remote -v", inl err)]) \/
         (exists stdout err,
            findRemote (head_clone_url pr) stdout = None /\
            trace = [("git remote -v", inr stdout); (add, inl err)]) \/
         (exists stdout remote fetched out,
            findRemote (head_clone_url pr) stdout = Some remote /\
            trace = [("git remote -v", inr stdout);
                     (gitFetch remote (head_ref pr), fetched);
                     (gitCheckout localBranch remote (head_ref pr), out)]) \/
         (exists stdout added fetched out,
            findRemote (head_clone_url pr) stdout = None /\
            trace = [("git remote -v", inr stdout); (add, inr added);
                     (gitFetch (head_login pr) (head_ref pr), fetched);
                     (gitCheckout localBranch (head_login pr) (head_ref pr), out)]))
  end.
Proof.
  intros p lookup. unfold recordedCheckout, checkoutPullRequest.
  fold p. fold lookup. destruct lookup as [[pr|e] w']; cbn [fst snd]; [|done].
  destruct (checkoutSteps_recorded pr sh) as (trace & Hrec & Hlog & Hshape).
  exists trace, (checkoutSteps pr sh).2.
  rewrite Hrec. destruct (checkoutSteps pr sh) as [logged sh'].
  cbn [fst snd] in *. by subst logged.
Qed.

(** X16. When the listing is well formed, the method reuses the first
    fetch remote whose URL is the clone URL of the pull request: it
    fetches from it and checks out [login/branch] from it, without
    adding a remote. With no such line it adds a remote named after the
    author, and goes on to fetch and check out only if that succeeded. *)
Theorem checkout_reuses_the_remote_of_the_clone_url (issue : Issue)
    (pr : PullRequestHead) (lines : list RemoteLine) (w w' : World) (sh sh1 : Sh) :
  let p := uriPath (repository_url (issue_item issue)) in
  pullRequestsGet (basename (dirname p)) (basename p)
    (item_number (issue_item issue)) w = (Ok pr, w') ->
  exec "git remote -v" sh = (inr (gitRemoteOutput lines), sh1) ->
  Forall (fun l => wellFormedLine l = true) lines ->
  let localBranch := head_login pr +:+ "/" +:+ head_ref pr in
  let add := gitRemoteAdd (head_login pr) (head_clone_url pr) in
  let commands := map fst (recordedCheckout issue w sh).2 .2 in
  match List.find (fun l => String.eqb (line_url l) (head_clone_url pr))
          (fetchRemotes lines) with
  | Some l =>
      commands = ["git remote -v"; gitFetch (line_name l) (head_ref pr);
                  gitCheckout localBranch (line_name l) (head_ref pr)]
  | None =>
      commands =
        "git remote -v" :: add ::
        (if isSuccess (exec add sh1).1
         then [gitFetch (head_login pr) (head_ref pr);
               gitCheckout localBranch (head_login pr) (head_ref pr)]
         else [])
  end.
Proof.
  intros p Hget Hlist Hwf localBranch add commands. subst commands.
  unfold recordedCheckout, checkoutPullRequest. fold p. rewrite Hget.
  unfold checkoutSteps. cbn [exec recordingShell fst snd]. rewrite Hlist.
  cbn [fst snd app]. rewrite findRemote_output by done.
  fold localBranch. fold add.
  destruct (List.find _ (fetchRemotes lines)) as [l|] eqn:Hfind; cbn [option_map truthy].
  - destruct (fetch_line_named _ _ _ Hwf Hfind) as (_ & _ & _ & Hname).
    rewrite Hname. change (default EmptyString (Some (line_name l))) with (line_name l).
    destruct (exec (gitFetch (line_name l) (head_ref pr)) sh1) as [fetched sh3] eqn:Hfetch.
    cbn [fst snd app]. rewrite ?Hfetch. cbn [fst snd app].
    destruct (exec (gitCheckout localBranch (line_name l) (head_ref pr)) sh3)
      as [out sh4] eqn:Hout.
    cbn [fst snd app]. rewrite ?Hout. by destruct out.
  - destruct (exec add sh1) as [[err|added] sh2] eqn:Hadd; cbn [fst snd app isSuccess];
      rewrite ?Hadd; cbn [fst snd app]; [done|].
    destruct (exec (gitFetch (head_login pr) (head_ref pr)) sh2) as [fetched sh3] eqn:Hfetch.
    cbn [fst snd app]. rewrite ?Hfetch. cbn [fst snd app].
    destruct (exec (gitCheckout localBranch (head_login pr) (head_ref pr)) sh3)
      as [out sh4] eqn:Hout.
    cbn [fst snd app]. rewrite ?Hout. by destruct out.
Qed.
End CheckoutRuns.

(** ** The further properties at the sample inputs *)

Lemma codeUnit_antisym (a b : string) :
  @localeCompare codeUnitRuntime a b <= 0 -> @localeCompare codeUnitRuntime b a <= 0 -> a = b.
Proof.
  simpl.
  destruct (OrdersEx.String_as_OT.compare_spec a b) as [Heq|Hab|Hba]; simpl; [done| |lia].
  destruct (OrdersEx.String_as_OT.compare_spec b a) as [Heq|Hba|Hab']; simpl; [done| |lia].
  intros _ _. exfalso. apply (irreflexivity OrdersEx.String_as_OT.lt a). by etransitivity.
Defined.

Lemma milestone_nodes_distinct_and_nonempty_witness :
  looseIssues ++ [widgetLeaf] <> [] /\
  buildTree (looseIssues ++ [widgetLeaf]) [] =
    Ok (map MilestoneNode (groupsOf (looseIssues ++ [widgetLeaf]))) /\
  Forall (fun node => isMilestoneNode node = true)
    (map MilestoneNode (groupsOf (looseIssues ++ [widgetLeaf]))) /\
  exists milestones,
    map MilestoneNode (groupsOf (looseIssues ++ [widgetLeaf])) = map MilestoneNode milestones /\
    map milestone_label milestones = ["No Milestone"; "v1"].
Proof.
  assert (Hne : looseIssues ++ [widgetLeaf] <> []) by discriminate.
  assert (Htree : buildTree (looseIssues ++ [widgetLeaf]) [] =
                  Ok (map MilestoneNode (groupsOf (looseIssues ++ [widgetLeaf]))))
    by reflexivity.
  assert (Hnodes : Forall (fun node => isMilestoneNode node = true)
                     (map MilestoneNode (groupsOf (looseIssues ++ [widgetLeaf]))))
    by (vm_compute; repeat constructor).
  split; [exact Hne|]. split; [exact Htree|]. split; [exact Hnodes|].
  destruct (milestone_nodes_distinct_and_nonempty _ [] _ Hne Htree Hnodes)
    as (milestones & Hitems & _ & Hlabels & _).
  exists milestones. split; [exact Hitems|]. rewrite Hlabels. reflexivity.
Defined.

Lemma root_list_of_one_kind_witness :
  @fetchChildren codeUnitRuntime unit widgetClient widgetsWorkspace tt = (Ok widgetTree, tt) /\
  widgetTree <> [].
Proof.
  assert (Hfetch : @fetchChildren codeUnitRuntime unit widgetClient widgetsWorkspace tt =
                   (Ok widgetTree, tt)) by (vm_compute; reflexivity).
  split; [exact Hfetch|].
  destruct (@root_list_of_one_kind codeUnitRuntime unit widgetClient
              widgetsWorkspace tt tt widgetTree Hfetch) as [Hne _].
  exact Hne.
Defined.

Lemma shown_leaves_built_from_items_witness :
  @fetchChildren codeUnitRuntime unit widgetClient widgetsWorkspace tt = (Ok widgetTree, tt) /\
  In widgetLeaf (shownIssues widgetTree) /\
  copyMarkdown widgetLeaf =
    "[" +:+ copyNumber widgetLeaf +:+ "](" +:+ openIssue widgetLeaf +:+ ")".
Proof.
  assert (Hfetch : @fetchChildren codeUnitRuntime unit widgetClient widgetsWorkspace tt =
                   (Ok widgetTree, tt)) by (vm_compute; reflexivity).
  assert (Hin : In widgetLeaf (shownIssues widgetTree)) by (simpl; left; reflexivity).
  split; [exact Hfetch|]. split; [exact Hin|].
  destruct (@shown_leaves_built_from_items codeUnitRuntime unit widgetClient
              widgetsWorkspace tt tt widgetTree widgetLeaf Hfetch Hin)
    as (_ & _ & Hmarkdown & _).
  exact Hmarkdown.
Defined.

Lemma copyNumber_determines_number_witness :
  isSafeInteger (item_number (issue_item widgetLeaf)) = true /\
  isSafeInteger (item_number (issue_item constructorIssue)) = true /\
  exists digits, copyNumber widgetLeaf = String "#" digits /\
    option_map N.of_uint (NilZero.uint_of_string digits) = Some 7%N.
Proof.
  split; [reflexivity|]. split; [reflexivity|].
  destruct (copyNumber_determines_number widgetLeaf constructorIssue eq_refl eq_refl)
    as [_ Hdigits].
  exact Hdigits.
Defined.

Lemma currentMilestones_order_independent_witness :
  Permutation [milestoneA; milestoneB; milestoneC] reorderedMilestones /\
  NoDup (map ms_title [milestoneA; milestoneB; milestoneC]) /\
  @currentMilestones codeUnitRuntime [milestoneA; milestoneB; milestoneC] =
    @currentMilestones codeUnitRuntime reorderedMilestones.
Proof.
  assert (Hperm : Permutation [milestoneA; milestoneB; milestoneC] reorderedMilestones).
  { unfold reorderedMilestones.
    apply (perm_trans (l' := [milestoneA; milestoneC; milestoneB])).
    - apply perm_skip, perm_swap.
    - apply perm_swap. }
  assert (Hnd : NoDup (map ms_title [milestoneA; milestoneB; milestoneC])).
  { apply (bool_decide_unpack _). vm_compute. reflexivity. }
  split; [exact Hperm|]. split; [exact Hnd|].
  destruct (@currentMilestones_order_independent codeUnitRuntime codeUnit_total
              codeUnit_trans codeUnit_antisym _ _ Hperm Hnd) as [_ Hsame].
  exact Hsame.
Defined.

Lemma all_remotes_inaccessible_witness :
  truthy (rootPath widgetsWorkspace) = true /\
  getGitHubRemotes widgetsWorkspace = Some [acmeWidgets] /\
  (@fetchChildren codeUnitRuntime unit notFoundClient widgetsWorkspace tt).1 =
    Ok [Message "Cannot access acme/widgets"].
Proof.
  assert (Hroot : truthy (rootPath widgetsWorkspace) = true) by reflexivity.
  assert (Hremotes : getGitHubRemotes widgetsWorkspace = Some [acmeWidgets])
    by (vm_compute; reflexivity).
  assert (Hne : [acmeWidgets] <> []) by discriminate.
  assert (Hrefused : forall (o r : string) (n : Z) (w : unit),
             exists (e : Error) (w' : unit),
               @getMilestones unit notFoundClient o r n w = (Err e, w') /\
               isNotFound e = true).
  { intros o r n w. exists (HttpError 404), w. split; reflexivity. }
  split; [exact Hroot|]. split; [exact Hremotes|].
  exact (@all_remotes_inaccessible codeUnitRuntime unit notFoundClient Hrefused
           widgetsWorkspace [acmeWidgets] tt Hroot Hremotes Hne).
Defined.

Lemma at_most_one_build_in_flight_witness :
  reachable (run firstBuild newProvider) /\
  (pendingCount (run firstBuild newProvider) <= 1)%nat.
Proof.
  assert (Hreach : reachable (run firstBuild newProvider)) by (by exists firstBuild).
  split; [exact Hreach|].
  destruct (at_most_one_build_in_flight (run firstBuild newProvider) Hreach) as [Hone _].
  exact Hone.
Defined.

Lemma one_notification_per_refresh_witness :
  reachable (run slowBuild newProvider) /\
  fired (settle (buildsStarted (run slowBuild newProvider)) (Ok widgetTree)
           (refresh 2000000 (run slowBuild newProvider))) =
    S (fired (run slowBuild newProvider)).
Proof.
  assert (Hreach : reachable (run slowBuild newProvider)) by (by exists slowBuild).
  split; [exact Hreach|].
  destruct (one_notification_per_refresh (run slowBuild newProvider) 2000000 widgetTree Hreach)
    as (_ & _ & _ & Hidle & _).
  destruct (Hidle eq_refl) as (_ & Hfired & _).
  exact Hfired.
Defined.

Lemma getChildren_serves_the_cache_witness :
  reachable (run firstBuild newProvider) /\
  buildsStarted (run firstBuild newProvider) <> 0%nat /\
  (getChildren None 5000 (run firstBuild newProvider)).2 = run firstBuild newProvider.
Proof.
  assert (Hreach : reachable (run firstBuild newProvider)) by (by exists firstBuild).
  assert (Hstarted : buildsStarted (run firstBuild newProvider) <> 0%nat) by discriminate.
  split; [exact Hreach|]. split; [exact Hstarted|].
  destruct (getChildren_serves_the_cache (run firstBuild newProvider) None 5000
              Hreach Hstarted) as [Hsame _].
  exact Hsame.
Defined.

Lemma resolved_remotes_are_github_urls_witness :
  gitRemoteV mixedWorkspace = Some (gitRemoteOutput mixedOutput) /\
  getGitHubRemotes mixedWorkspace = Some [acmeWidgets; octoGadgets] /\
  In octoGadgets [acmeWidgets; octoGadgets] /\
  isToken (url octoGadgets) = true.
Proof.
  assert (Hout : gitRemoteV mixedWorkspace = Some (gitRemoteOutput mixedOutput))
    by reflexivity.
  assert (Hremotes : getGitHubRemotes mixedWorkspace = Some [acmeWidgets; octoGadgets])
    by (vm_compute; reflexivity).
  assert (Hin : In octoGadgets [acmeWidgets; octoGadgets]) by (right; left; reflexivity).
  split; [exact Hout|]. split; [exact Hremotes|]. split; [exact Hin|].
  destruct (resolved_remotes_are_github_urls mixedWorkspace _ _ octoGadgets Hout Hremotes Hin)
    as (_ & Htoken & _).
  exact Htoken.
Defined.

Lemma one_remote_per_url_witness :
  gitRemoteV mixedWorkspace = Some (gitRemoteOutput mixedOutput) /\
  getGitHubRemotes mixedWorkspace = Some [acmeWidgets; octoGadgets] /\
  NoDup (map url [acmeWidgets; octoGadgets]).
Proof.
  assert (Hout : gitRemoteV mixedWorkspace = Some (gitRemoteOutput mixedOutput))
    by reflexivity.
  assert (Hremotes : getGitHubRemotes mixedWorkspace = Some [acmeWidgets; octoGadgets])
    by (vm_compute; reflexivity).
  split; [exact Hout|]. split; [exact Hremotes|].
  destruct (one_remote_per_url mixedWorkspace _ _ Hout Hremotes) as [Hnd _].
  exact Hnd.
Defined.

Lemma checkout_reuses_the_remote_of_the_clone_url_witness :
  Forall (fun l => wellFormedLine l = true) mixedOutput /\
  map fst (@recordedCheckout unit (fixedHost (Ok forkHead)) unit
             (quietShell (gitRemoteOutput mixedOutput)) widgetLeaf tt tt).2.2 =
    ["git remote -v"; "git fetch upstream fix-flange";
     "git checkout -b octo/fix-flange upstream/fix-flange"] /\
  map fst (@recordedCheckout unit (fixedHost (Ok strangerHead)) unit
             (quietShell (gitRemoteOutput mixedOutput)) widgetLeaf tt tt).2.2 =
    ["git remote -v"; "git remote add mallory https://github.com/mallory/widgets.git";
     "git fetch mallory patch-1"; "git checkout -b mallory/patch-1 mallory/patch-1"].
Proof.
  assert (Hwf : Forall (fun l => wellFormedLine l = true) mixedOutput)
    by (repeat constructor).
  split; [exact Hwf|]. split.
  - exact (@checkout_reuses_the_remote_of_the_clone_url unit (fixedHost (Ok forkHead)) unit
             (quietShell (gitRemoteOutput mixedOutput)) widgetLeaf forkHead mixedOutput
             tt tt tt tt eq_refl eq_refl Hwf).
  - exact (@checkout_reuses_the_remote_of_the_clone_url unit (fixedHost (Ok strangerHead)) unit
             (quietShell (gitRemoteOutput mixedOutput)) widgetLeaf strangerHead mixedOutput
             tt tt tt tt eq_refl eq_refl Hwf).
Defined.
